(** * Structural pattern matching of Python311_examples.py

    The functions [analyze_data], [process_value] and
    [complex_pattern_matching] of
    [old_code/grammar/examples/Python311_examples.py] are [match] statements.
    This development embeds those statements: runtime values are a tagged
    union, the [case] patterns are pattern trees, and the [match] statement
    itself is the ordered scan [select] over (pattern, guard) pairs, run the
    way Python 3.11 runs it (PEP 634): literal patterns compare with [==],
    class patterns test [isinstance], guards are evaluated with the captured
    names bound and an exception raised by a guard leaves the statement.

    The subjects are numbers, strings, [None], lists, dicts and instances of
    user classes. An instance carries its class together with the classes it
    inherits from, so that a class pattern accepts an instance of a subclass.
    A string is kept as its UTF-8 bytes and measured in characters. The
    f-strings that the functions return write their values out, which
    CPython refuses for an [int] of more than 4300 digits: that failure is
    part of what a function does. Values carry no object identity: where
    [==] would look at identity, a value stands for objects that are all
    distinct, and the statements about [x == y] are made for scalars, where
    identity plays no part. *)

From Stdlib Require Import ZArith.
From Stdlib Require Import Floats.SpecFloat.
From stdpp Require Import gmap strings list fin_maps.

Set Warnings "-register-all,-clear-no-such-hyp".

Open Scope Z_scope.
Open Scope string_scope.
Open Scope list_scope.

(** ** Value model *)

(** Scalar subjects: [int], [float] (IEEE value as sign, mantissa, exponent),
    [bool], [str] (the bytes of its UTF-8 encoding) and [None]. *)
Inductive Scalar :=
| SInt (n : Z)
| SFloat (f : spec_float)
| SBool (b : bool)
| SStr (s : string)
| SNone.

(** A user class: its name and the names of the classes it inherits from,
    nearest first (its method resolution order without itself and [object]).
    The classes meant are those of the source, such as [Builder] and [Point],
    and subclasses of them that add no special method of their own:
    [Builder.add] returns [type(self)(...)], an instance of whatever subclass
    [self] belongs to. *)
Record UserClass := mkClass {
  class_name : string;
  class_bases : list string
}.

Global Instance UserClass_eq_dec : EqDecision UserClass.
Proof. solve_decision. Defined.

(** Subjects: a scalar, a [list], a [dict] (pairs in insertion order) or an
    instance of a user class, given by its class and the attributes that
    [getattr] finds on it. *)
Inductive Value :=
| VScalar (s : Scalar)
| VSequence (items : list Value)
| VMapping (entries : list (Scalar * Value))
| VRecord (class : UserClass) (fields : list (string * Value)).

(** The built-in classes that the class patterns of the source name
    ([str(name)], [int(age)], [float()], [list(perms)]) together with [bool]
    and [dict]: a positional sub-pattern of such a class is matched against
    the subject itself. *)
Inductive Kind := KInt | KFloat | KBool | KStr | KList | KDict.

Global Instance Kind_eq_dec : EqDecision Kind.
Proof. solve_decision. Defined.

(** [type(v)], where [v] belongs to one of the built-in classes above. *)
Definition kind_of (v : Value) : option Kind :=
  match v with
  | VScalar (SInt _) => Some KInt
  | VScalar (SFloat _) => Some KFloat
  | VScalar (SBool _) => Some KBool
  | VScalar (SStr _) => Some KStr
  | VScalar SNone => None
  | VSequence _ => Some KList
  | VMapping _ => Some KDict
  | VRecord _ _ => None
  end.

(** [isinstance(v, C)] for an instance of the user class [c] and the class
    named [C]: [c] is [C] or inherits from it. *)
Definition instance_of (c : UserClass) (tag : string) : bool :=
  bool_decide (tag ∈ class_name c :: class_bases c).

(** [isinstance(v, k)]: [bool] is a subclass of [int]. *)
Definition isinstance (v : Value) (k : Kind) : bool :=
  match kind_of v with
  | Some k' => bool_decide (k' = k) || (bool_decide (k' = KBool) && bool_decide (k = KInt))
  | None => false
  end.

(** ** Numbers

    Python compares [int], [bool] and [float] by mathematical value, exactly
    (an [int] is never rounded to a [float] first). A number is read as an
    extended dyadic [m * 2^e]. *)
Inductive Num :=
| NNaN
| NInf (negative : bool)
| NFin (m e : Z).

Definition num_of_float (f : spec_float) : Num :=
  match f with
  | S754_zero _ => NFin 0 0
  | S754_infinity s => NInf s
  | S754_nan => NNaN
  | S754_finite s m e => NFin (if s then Z.neg m else Z.pos m) e
  end.

Definition num_of (s : Scalar) : option Num :=
  match s with
  | SInt n => Some (NFin n 0)
  | SBool b => Some (NFin (if b then 1 else 0) 0)
  | SFloat f => Some (num_of_float f)
  | SStr _ | SNone => None
  end.

(** Three-way comparison of two numbers; [None] when one of them is NaN. *)
Definition num_compare (a b : Num) : option comparison :=
  match a, b with
  | NNaN, _ | _, NNaN => None
  | NInf s1, NInf s2 =>
      Some (match s1, s2 with
            | true, false => Lt
            | false, true => Gt
            | _, _ => Eq
            end)
  | NInf s, NFin _ _ => Some (if s then Lt else Gt)
  | NFin _ _, NInf s => Some (if s then Gt else Lt)
  | NFin m1 e1, NFin m2 e2 =>
      let e := Z.min e1 e2 in
      Some (Z.compare (m1 * 2 ^ (e1 - e)) (m2 * 2 ^ (e2 - e)))
  end.

(** [a == b] on scalars. *)
Definition scalar_eq (a b : Scalar) : bool :=
  match num_of a, num_of b with
  | Some x, Some y =>
      match num_compare x y with Some Eq => true | _ => false end
  | None, None =>
      match a, b with
      | SStr s, SStr t => bool_decide (s = t)
      | SNone, SNone => true
      | _, _ => false
      end
  | _, _ => false
  end.

(** [v == l] for a number or string literal [l]. A [list], a [dict] and an
    instance of a class of the source are never equal to it: [Builder] has no
    [__eq__], and the one that [@dataclass] gives [Point] answers for another
    [Point] only. *)
Definition value_eq_scalar (v : Value) (l : Scalar) : bool :=
  match v with
  | VScalar s => scalar_eq s l
  | _ => false
  end.

(** [v is l] for the singletons [None], [True] and [False]. *)
Definition value_is_scalar (v : Value) (l : Scalar) : bool :=
  match v, l with
  | VScalar (SBool a), SBool b => bool_decide (a = b)
  | VScalar SNone, SNone => true
  | _, _ => false
  end.

(** ** Errors *)

Inductive Exn := TypeError | NameError | ValueError | AttributeError | OverflowError.

(** Outcome of code that may raise. *)
Inductive Res (A : Type) :=
| Ok (a : A)
| Raise (e : Exn).
Arguments Ok {A} a.
Arguments Raise {A} e.

(** ** Pattern model *)

(** The patterns a [case] of the source is built from: a number, string,
    [True], [False] or [None] literal; [_]; a capture name; a class pattern
    of a built-in class, bare ([str()]) or with a name ([str(name)]); a
    sequence pattern with at most one star name ([[first, *middle, last]]); a
    mapping pattern with an optional double-star name
    ([{"required": value, **rest}]); a class pattern with keyword
    sub-patterns ([Point(x=0, y=0)]); alternatives ([p | q]); and
    [p as name]. *)
Inductive Pattern :=
| Literal (l : Scalar)
| Wildcard
| Capture (name : string)
| TypedCapture (expected_kind : Kind) (name : option string)
| PSequence (head_patterns : list Pattern) (rest_capture : option string)
            (tail_patterns : list Pattern)
| PMapping (required : list (Scalar * Pattern)) (rest_capture : option string)
| PRecord (type_tag : string) (field_patterns : list (string * Pattern))
| Or (alternatives : list Pattern)
| As (inner : Pattern) (name : string).

(** Names bound by a successful match. *)
Abbreviation Bindings := (gmap string Value).

(** A failed match is [None] ([NoMatch]), a successful one [Some] bindings
    ([Matched]). *)
Abbreviation MatchResult := (option Bindings).
Abbreviation NoMatch := (@None Bindings).
Abbreviation Matched := (@Some Bindings).

(** Names are assigned in the order the sub-patterns are visited, so a later
    binding of a name replaces an earlier one. *)
Definition merge {A} (earlier later : gmap string A) : gmap string A := later ∪ earlier.

(** First entry of a [dict] whose key equals [k] ([subject.get(k)]). *)
Fixpoint lookup_key {A} (k : Scalar) (entries : list (Scalar * A)) : option A :=
  match entries with
  | [] => None
  | (k', v) :: rest => if scalar_eq k' k then Some v else lookup_key k rest
  end.

(** Attribute [f] of an instance ([getattr(subject, f)]). *)
Fixpoint lookup_field {A} (f : string) (fields : list (string * A)) : option A :=
  match fields with
  | [] => None
  | (f', v) :: rest => if bool_decide (f' = f) then Some v else lookup_field f rest
  end.

(** The entries of a [dict] left over once the keys of a mapping pattern are
    removed from a copy of it. *)
Definition remaining {A} (keys : list Scalar) (entries : list (Scalar * A)) :
  list (Scalar * A) :=
  List.filter (fun kv => negb (existsb (scalar_eq (fst kv)) keys)) entries.

(** Sub-patterns against the items of a sequence, pairwise and in order,
    stopping at the first failure. *)
Definition match_items (m : Pattern → Value → MatchResult) :
  list Pattern → list Value → MatchResult :=
  fix go ps vs :=
    match ps, vs with
    | [], [] => Matched ∅
    | p :: ps', v :: vs' =>
        match m p v with
        | None => NoMatch
        | Some b1 =>
            match go ps' vs' with
            | None => NoMatch
            | Some b2 => Matched (merge b1 b2)
            end
        end
    | _, _ => NoMatch
    end.

(** Keyed sub-patterns against the entries of a [dict]. *)
Definition match_keys (m : Pattern → Value → MatchResult) :
  list (Scalar * Pattern) → list (Scalar * Value) → MatchResult :=
  fix go req entries :=
    match req with
    | [] => Matched ∅
    | (k, p) :: req' =>
        match lookup_key k entries with
        | None => NoMatch
        | Some v =>
            match m p v with
            | None => NoMatch
            | Some b1 =>
                match go req' entries with
                | None => NoMatch
                | Some b2 => Matched (merge b1 b2)
                end
            end
        end
    end.

(** Keyword sub-patterns against the attributes of an instance. *)
Definition match_fields (m : Pattern → Value → MatchResult) :
  list (string * Pattern) → list (string * Value) → MatchResult :=
  fix go fps fields :=
    match fps with
    | [] => Matched ∅
    | (f, p) :: fps' =>
        match lookup_field f fields with
        | None => NoMatch
        | Some v =>
            match m p v with
            | None => NoMatch
            | Some b1 =>
                match go fps' fields with
                | None => NoMatch
                | Some b2 => Matched (merge b1 b2)
                end
            end
        end
    end.

(** Alternatives of an or-pattern, first success wins. *)
Definition match_any (m : Pattern → Value → MatchResult) :
  list Pattern → Value → MatchResult :=
  fix go alts v :=
    match alts with
    | [] => NoMatch
    | p :: alts' =>
        match m p v with
        | Some b => Matched b
        | None => go alts' v
        end
    end.

(** Binding of an optional name: a star or double-star name, or the name in
    a class pattern such as [str(name)]. *)
Definition bind_rest {A} (rest : option string) (v : A) (b : gmap string A) :
  gmap string A :=
  match rest with
  | Some r => <[r := v]> b
  | None => b
  end.

(** ** Matcher *)

(** One pattern against one subject, as the [match] statement tries it: a
    number or string literal is compared with [==] and [True], [False],
    [None] with [is]; a class pattern tests [isinstance]; a sequence pattern
    asks for a list of the right length, a mapping pattern for a dict that
    has the keys, a keyword class pattern for an instance of the class that
    has the attributes; sub-patterns are tried in order and the first failure
    ends the attempt. *)
Fixpoint match_pattern (p : Pattern) (value : Value) : MatchResult :=
  match p with
  | Literal l =>
      match l with
      | SBool _ | SNone =>
          if value_is_scalar value l then Matched ∅ else NoMatch
      | _ => if value_eq_scalar value l then Matched ∅ else NoMatch
      end
  | Wildcard => Matched ∅
  | Capture n => Matched {[n := value]}
  | TypedCapture k n =>
      if isinstance value k then Matched (bind_rest n value ∅) else NoMatch
  | PSequence head rest tail =>
      match value with
      | VSequence items =>
          let len := (length head + length tail)%nat in
          let n_mid := (length items - len)%nat in
          let arity_ok :=
            match rest with
            | None => bool_decide (length items = len)
            | Some _ => bool_decide (len ≤ length items)%nat
            end in
          if arity_ok
          then
            match match_items match_pattern head (take (length head) items) with
            | None => NoMatch
            | Some b1 =>
                let middle := VSequence (take n_mid (drop (length head) items)) in
                match match_items match_pattern tail
                        (drop (length head + n_mid) items) with
                | None => NoMatch
                | Some b3 => Matched (merge (bind_rest rest middle b1) b3)
                end
            end
          else NoMatch
      | _ => NoMatch
      end
  | PMapping required rest =>
      match value with
      | VMapping entries =>
          match match_keys match_pattern required entries with
          | None => NoMatch
          | Some b =>
              Matched (bind_rest rest (VMapping (remaining (required.*1) entries)) b)
          end
      | _ => NoMatch
      end
  | PRecord tag fps =>
      match value with
      | VRecord c fields =>
          if instance_of c tag
          then match_fields match_pattern fps fields
          else NoMatch
      | _ => NoMatch
      end
  | Or alts => match_any match_pattern alts value
  | As inner n =>
      match match_pattern inner value with
      | None => NoMatch
      | Some b => Matched (<[n := value]> b)
      end
  end.

(** ** Case selector *)

(** A guard is the [if] expression of a [case], evaluated with the names the
    pattern bound; it yields a truth value or raises. *)
Definition Guard := Bindings → Res bool.

Record Case := mkCase {
  pattern : Pattern;
  guard : option Guard
}.

Inductive SelectResult :=
| Selected (index : nat) (bindings : Bindings)
| Exhausted.

(** The scan of a [match] statement from the case numbered [i] on. *)
Fixpoint select_from (i : nat) (cases : list Case) (value : Value) : Res SelectResult :=
  match cases with
  | [] => Ok Exhausted
  | c :: cases' =>
      match match_pattern (pattern c) value with
      | None => select_from (S i) cases' value
      | Some b =>
          match guard c with
          | None => Ok (Selected i b)
          | Some g =>
              match g b with
              | Ok true => Ok (Selected i b)
              | Ok false => select_from (S i) cases' value
              | Raise e => Raise e
              end
          end
      end
  end.

Definition select (cases : list Case) (value : Value) : Res SelectResult :=
  select_from 0 cases value.

(** ** Operators used by the guards of the source *)

(** Ordering of a value against an [int] constant ([x < 0], [v > 100],
    [age >= 18]): defined for numbers, a [TypeError] for [str], [None],
    [list], [dict] and instances of classes without ordering methods (no
    class of the source defines one). The comparison is [None] on NaN. *)
Definition compare_int (v : Value) (n : Z) : Res (option comparison) :=
  match v with
  | VScalar s =>
      match num_of s with
      | Some x => Ok (num_compare x (NFin n 0))
      | None => Raise TypeError
      end
  | _ => Raise TypeError
  end.

Definition order_int (test : comparison → bool) (v : Value) (n : Z) : Res bool :=
  match compare_int v n with
  | Ok (Some c) => Ok (test c)
  | Ok None => Ok false
  | Raise e => Raise e
  end.

Definition lt_int := order_int (fun c => match c with Lt => true | _ => false end).
Definition gt_int := order_int (fun c => match c with Gt => true | _ => false end).
Definition ge_int := order_int (fun c => match c with Lt => false | _ => true end).

(** A [str] is kept as the bytes of its UTF-8 encoding, which is how a string
    literal of this file reads. A byte [10xxxxxx] continues the character
    that the bytes before it began. *)
Definition continuation_byte (c : Ascii.ascii) : bool :=
  match c with
  | Ascii.Ascii _ _ _ _ _ _ b6 b7 => b7 && negb b6
  end.

(** The number of characters (code points) of a [str]. *)
Fixpoint code_points (s : string) : nat :=
  match s with
  | EmptyString => 0
  | String c s' => if continuation_byte c then code_points s' else S (code_points s')
  end.

(** [len(v)]. *)
Definition py_len (v : Value) : Res Z :=
  match v with
  | VScalar (SStr s) => Ok (Z.of_nat (code_points s))
  | VSequence items => Ok (Z.of_nat (length items))
  | VMapping entries => Ok (Z.of_nat (length entries))
  | _ => Raise TypeError
  end.

(** [bool(v)], the truth value of a guard that is a bare name. *)
Definition truthy (v : Value) : bool :=
  match v with
  | VScalar s =>
      match s with
      | SStr t => negb (bool_decide (t = EmptyString))
      | SNone => false
      | _ => negb (scalar_eq s (SInt 0))
      end
  | VSequence items => negb (bool_decide (items = []))
  | VMapping entries => negb (bool_decide (length entries = 0%nat))
  | VRecord _ _ => true
  end.

(** The fields that [@dataclass] declares in the classes of the source. *)
Definition dataclass_fields : list (string * list string) :=
  [("Point", ["x"; "y"]); ("Person", ["name"; "age"; "email"])].

(** The declared fields of the dataclass whose generated [__eq__] and
    [__repr__] an instance of [c] uses, the first dataclass in its method
    resolution order; [None] when there is none, as for [Builder], and the
    methods are those of [object]. *)
Definition declared_fields (c : UserClass) : option (list string) :=
  (fix go (names : list string) : option (list string) :=
     match names with
     | [] => None
     | n :: names' =>
         match lookup_field n dataclass_fields with
         | Some fields => Some fields
         | None => go names'
         end
     end) (class_name c :: class_bases c).

(** The tests [tests] applied to the values [ys], pairwise and in order, up
    to the first that fails or answers false. *)
Fixpoint all_equal (tests : list (Value → Res bool)) (ys : list Value) : Res bool :=
  match tests, ys with
  | test :: tests', y :: ys' =>
      match test y with
      | Ok true => all_equal tests' ys'
      | r => r
      end
  | _, _ => Ok true
  end.

(** [a == b] on values. A value carries no object identity: it stands for
    objects none of which occurs twice, so that two instances of a class
    without [__eq__], and two NaN, are never equal. Two lists of one length
    are compared item by item and two dicts of one size key by key, up to the
    first difference. Two instances of one class that has the [__eq__] of
    [@dataclass] are compared as the tuples of their declared fields, which
    fails with [AttributeError] when one of them lacks a field. *)
Fixpoint value_eq (a b : Value) : Res bool :=
  match a, b with
  | VScalar s, VScalar t => Ok (scalar_eq s t)
  | VSequence xs, VSequence ys =>
      if bool_decide (length xs = length ys)
      then
        (fix items_eq (xs ys : list Value) : Res bool :=
           match xs, ys with
           | x :: xs', y :: ys' =>
               match value_eq x y with
               | Ok true => items_eq xs' ys'
               | r => r
               end
           | _, _ => Ok true
           end) xs ys
      else Ok false
  | VMapping es, VMapping fs =>
      if bool_decide (length es = length fs)
      then
        (fix entries_eq (es : list (Scalar * Value)) : Res bool :=
           match es with
           | [] => Ok true
           | (k, v) :: es' =>
               match lookup_key k fs with
               | Some w =>
                   match value_eq v w with
                   | Ok true => entries_eq es'
                   | r => r
                   end
               | None => Ok false
               end
           end) es
      else Ok false
  | VRecord c1 f1, VRecord c2 f2 =>
      match declared_fields c1 with
      | Some names =>
          if bool_decide (c1 = c2)
          then
            let tests :=
              (fix tests_of (f1 : list (string * Value)) :
                 list (string * (Value → Res bool)) :=
                 match f1 with
                 | [] => []
                 | (n, x) :: f1' => (n, value_eq x) :: tests_of f1'
                 end) f1 in
            match mapM (fun n => lookup_field n tests) names,
                  mapM (fun n => lookup_field n f2) names with
            | Some tests, Some ys => all_equal tests ys
            | _, _ => Raise AttributeError
            end
          else Ok false
      | None => Ok false
      end
  | _, _ => Ok false
  end.

(** ** Writing a value out

    [str(v)] and [repr(v)] write an [int] in decimal, which CPython refuses
    with [ValueError] for an [int] of more than [sys.get_int_max_str_digits()]
    digits, 4300 unless the interpreter is told otherwise (the source does
    not change it). A list and a dict write their items, an instance of a
    dataclass its declared fields; an instance of any other class of the
    source is written by [object.__repr__], which looks at no attribute.
    Containers nested so deep that [repr] or [==] runs into the recursion
    limit of the interpreter are beyond this model: the statements that
    write a container out are made for data of bounded nesting ([plain]). *)
Definition int_max_str_digits : Z := 4300.

Definition written_scalar (s : Scalar) : Res unit :=
  match s with
  | SInt n =>
      if bool_decide (Z.abs n < 10 ^ int_max_str_digits) then Ok tt else Raise ValueError
  | _ => Ok tt
  end.

(** The results [results] of writing the attributes of an instance, looked
    up for the declared fields [names] in order. *)
Fixpoint written_fields (names : list string) (results : list (string * Res unit)) :
  Res unit :=
  match names with
  | [] => Ok tt
  | n :: names' =>
      match lookup_field n results with
      | None => Raise AttributeError
      | Some (Raise e) => Raise e
      | Some (Ok _) => written_fields names' results
      end
  end.

(** Whether [str(v)] succeeds, and the exception it raises when not. *)
Fixpoint written (v : Value) : Res unit :=
  match v with
  | VScalar s => written_scalar s
  | VSequence items =>
      (fix items_written (items : list Value) : Res unit :=
         match items with
         | [] => Ok tt
         | x :: items' =>
             match written x with
             | Ok _ => items_written items'
             | Raise e => Raise e
             end
         end) items
  | VMapping entries =>
      (fix entries_written (entries : list (Scalar * Value)) : Res unit :=
         match entries with
         | [] => Ok tt
         | (k, x) :: entries' =>
             match written_scalar k with
             | Ok _ =>
                 match written x with
                 | Ok _ => entries_written entries'
                 | Raise e => Raise e
                 end
             | Raise e => Raise e
             end
         end) entries
  | VRecord c fields =>
      match declared_fields c with
      | Some names =>
          written_fields names
            ((fix results_of (fields : list (string * Value)) :
                list (string * Res unit) :=
                match fields with
                | [] => []
                | (n, x) :: fields' => (n, written x) :: results_of fields'
                end) fields)
      | None => Ok tt
      end
  end.

(** [format(v, ".2f")]: a [float] and a [bool] are written with two
    decimals, an [int] is first converted to a [float], which overflows from
    [2^1024 - 2^970] on; the format is unknown to [str] and refused by
    [None], a list, a dict and an instance. *)
Definition fixed_point (v : Value) : Res unit :=
  match v with
  | VScalar (SFloat _) | VScalar (SBool _) => Ok tt
  | VScalar (SInt n) =>
      if bool_decide (Z.abs n < 2 ^ 1024 - 2 ^ 970) then Ok tt else Raise OverflowError
  | VScalar (SStr _) => Raise ValueError
  | _ => Raise TypeError
  end.

(** ** The [match] statements of the source *)

(** What a function returns: an f-string (or plain string), kept as its
    source text with the values of the names in its replacement fields, or
    [None] when no [case] applies. *)
Inductive Reply :=
| Fmt (template : string) (args : list Value)
| ReturnNone.

(** Reading a local name; an unbound name is a [NameError]. *)
Definition with_name {A} (env : Bindings) (n : string) (k : Value → Res A) : Res A :=
  match env !! n with
  | Some v => k v
  | None => Raise NameError
  end.

(** A replacement field of an f-string, by what it does with the name in it:
    [{x}] writes the value out, [{len(items)}] its length, [{type(data)}] its
    class and [{value:.2f}] the value with two decimals. *)
Inductive Field :=
| Shown (name : string)
| Length (name : string)
| TypeOf (name : string)
| Fixed (name : string).

Definition field_name (f : Field) : string :=
  match f with
  | Shown n | Length n | TypeOf n | Fixed n => n
  end.

(** Formatting one field; a length is a small [int] and a class has a name,
    so that once [len] has answered nothing is left to fail in those. *)
Definition format_field (f : Field) (v : Value) : Res unit :=
  match f with
  | Shown _ => written v
  | Length _ =>
      match py_len v with
      | Ok _ => Ok tt
      | Raise e => Raise e
      end
  | TypeOf _ => Ok tt
  | Fixed _ => fixed_point v
  end.

(** The fields of an f-string are evaluated and formatted one after the
    other, from left to right; the first failure ends it. *)
Fixpoint interpolate (fields : list Field) (env : Bindings) : Res (list Value) :=
  match fields with
  | [] => Ok []
  | f :: fields' =>
      with_name env (field_name f) (fun v =>
        match format_field f v with
        | Raise e => Raise e
        | Ok _ =>
            match interpolate fields' env with
            | Ok args => Ok (v :: args)
            | Raise e => Raise e
            end
        end)
  end.

Definition fstring (template : string) (fields : list Field) (env : Bindings) : Res Reply :=
  match interpolate fields env with
  | Ok args => Ok (Fmt template args)
  | Raise e => Raise e
  end.

(** One [case] block: pattern, guard and the [return] of its body. *)
Record Clause := mkClause {
  clause_case : Case;
  clause_body : Bindings → Res Reply
}.

Definition case_ (p : Pattern) (body : Bindings → Res Reply) : Clause :=
  mkClause (mkCase p None) body.

Definition case_if (p : Pattern) (g : Guard) (body : Bindings → Res Reply) : Clause :=
  mkClause (mkCase p (Some g)) body.

(** [def f(param): match param: clauses]. The body of the selected case runs
    with the parameter and the captured names as locals. *)
Definition run_match (param : string) (clauses : list Clause) (subject : Value) : Res Reply :=
  match select (clause_case <$> clauses) subject with
  | Raise e => Raise e
  | Ok Exhausted => Ok ReturnNone
  | Ok (Selected i b) =>
      match clauses !! i with
      | Some cl => clause_body cl (merge {[param := subject]} b)
      | None => Ok ReturnNone
      end
  end.

(** A string literal as a pattern and as a key. *)
Definition str_lit (s : string) : Pattern := Literal (SStr s).
Definition key (s : string) : Scalar := SStr s.

(** The cases of [analyze_data] (lines 120-166), numbered from 0 in the
    order of the source:
    [case 0], [case x if x < 0], [case []], [case [x]], [case [x, y]],
    [case [x, *rest]], the two mapping patterns with [str(name)] and
    [list(perms)], [case Builder(value=v) if v > 100], [case Builder(value=v)],
    [case "start" | "begin" | "init"], [case {"data": list(items)} as
    full_dict] and [case _]. *)
Definition analyze_data_clauses : list Clause :=
  [ case_ (Literal (SInt 0)) (fstring "Zero" []);
    case_if (Capture "x") (fun b => with_name b "x" (fun x => lt_int x 0))
      (fstring "Negative: {x}" [Shown "x"]);
    case_ (PSequence [] None []) (fstring "Empty list" []);
    case_ (PSequence [Capture "x"] None []) (fstring "Single item: {x}" [Shown "x"]);
    case_ (PSequence [Capture "x"; Capture "y"] None [])
      (fstring "Two items: {x}, {y}" [Shown "x"; Shown "y"]);
    case_ (PSequence [Capture "x"] (Some "rest") [])
      (fstring "First: {x}, Rest: {rest}" [Shown "x"; Shown "rest"]);
    case_ (PMapping [(key "type", str_lit "user");
                     (key "name", TypedCapture KStr (Some "name"))] None)
      (fstring "User: {name}" [Shown "name"]);
    case_ (PMapping [(key "type", str_lit "admin");
                     (key "permissions", TypedCapture KList (Some "perms"))] None)
      (fstring "Admin with permissions: {perms}" [Shown "perms"]);
    case_if (PRecord "Builder" [("value", Capture "v")])
      (fun b => with_name b "v" (fun v => gt_int v 100))
      (fstring "Large builder: {v}" [Shown "v"]);
    case_ (PRecord "Builder" [("value", Capture "v")]) (fstring "Builder: {v}" [Shown "v"]);
    case_ (Or [str_lit "start"; str_lit "begin"; str_lit "init"])
      (fstring "Starting operation" []);
    case_ (As (PMapping [(key "data", TypedCapture KList (Some "items"))] None) "full_dict")
      (fstring "Data list with {len(items)} items in {full_dict}"
               [Length "items"; Shown "full_dict"]);
    case_ Wildcard (fstring "Unknown data type: {type(data)}" [TypeOf "data"]) ].

Definition analyze_data : Value → Res Reply := run_match "data" analyze_data_clauses.

(** The cases of [process_value] (lines 340-348): [case str()],
    [case int()], [case float()] and [case _]. *)
Definition process_value_clauses : list Clause :=
  [ case_ (TypedCapture KStr None) (fstring "String: {value}" [Shown "value"]);
    case_ (TypedCapture KInt None) (fstring "Integer: {value}" [Shown "value"]);
    case_ (TypedCapture KFloat None) (fstring "Float: {value:.2f}" [Fixed "value"]);
    case_ Wildcard (fstring "Unknown type" []) ].

Definition process_value : Value → Res Reply := run_match "value" process_value_clauses.

(** [{"users": [{"name": str(name), "age": int(age)}]}], the pattern of the
    first two cases of [complex_pattern_matching]. *)
Definition one_user : Pattern :=
  PMapping [(key "users",
             PSequence [PMapping [(key "name", TypedCapture KStr (Some "name"));
                                  (key "age", TypedCapture KInt (Some "age"))] None]
                       None [])] None.

(** The cases of [complex_pattern_matching] (lines 491-519). *)
Definition complex_pattern_matching_clauses : list Clause :=
  [ case_if one_user (fun b => with_name b "age" (fun age => ge_int age 18))
      (fstring "Adult user: {name}" [Shown "name"]);
    case_if one_user (fun b => with_name b "age" (fun age => lt_int age 18))
      (fstring "Minor user: {name}" [Shown "name"]);
    case_ (PMapping [(key "status",
                      Or [str_lit "active"; str_lit "pending"; str_lit "processing"])] None)
      (fstring "System is operational" []);
    case_if (PMapping [(key "items",
                        PSequence [Capture "first"] (Some "middle") [Capture "last"])] None)
      (fun b => with_name b "middle" (fun middle =>
         match py_len middle with
         | Ok n => gt_int (VScalar (SInt n)) 0
         | Raise e => Raise e
         end))
      (fstring "List: first={first}, middle={middle}, last={last}"
               [Shown "first"; Shown "middle"; Shown "last"]);
    case_ (PRecord "Point" [("x", Literal (SInt 0)); ("y", Literal (SInt 0))])
      (fstring "Origin point" []);
    case_if (PRecord "Point" [("x", Capture "x"); ("y", Capture "y")])
      (fun b => with_name b "x" (fun x => with_name b "y" (fun y => value_eq x y)))
      (fstring "Diagonal point: ({x}, {y})" [Shown "x"; Shown "y"]);
    case_if (PMapping [(key "required", Capture "value")] (Some "rest"))
      (fun b => with_name b "rest" (fun rest => Ok (truthy rest)))
      (fstring "Required: {value}, Optional: {rest}" [Shown "value"; Shown "rest"]);
    case_ Wildcard (fstring "No pattern matched" []) ].

Definition complex_pattern_matching : Value → Res Reply :=
  run_match "data" complex_pattern_matching_clauses.

(** Shorthands for writing subjects. *)
Definition int (n : Z) : Value := VScalar (SInt n).
Definition str (s : string) : Value := VScalar (SStr s).
Definition Builder (value : Value) : Value :=
  VRecord (mkClass "Builder" []) [("value", value)].
Definition Point (x y : Value) : Value :=
  VRecord (mkClass "Point" []) [("x", x); ("y", y)].

(** [class name(base): pass]. *)
Definition subclass (name : string) (base : UserClass) : UserClass :=
  mkClass name (class_name base :: class_bases base).

(** ** Answers of a case *)

(** How one case answers a subject: it accepts with bindings, it rejects
    (structurally, or because its guard returned false), or its guard
    raises. *)
Definition accepts (c : Case) (v : Value) (b : Bindings) : Prop :=
  match_pattern (pattern c) v = Some b ∧
  (guard c = None ∨ ∃ g, guard c = Some g ∧ g b = Ok true).

Definition rejects (c : Case) (v : Value) : Prop :=
  match_pattern (pattern c) v = None ∨
  ∃ b g, match_pattern (pattern c) v = Some b ∧ guard c = Some g ∧ g b = Ok false.

Definition guard_raises (c : Case) (v : Value) (e : Exn) : Prop :=
  ∃ b g, match_pattern (pattern c) v = Some b ∧ guard c = Some g ∧ g b = Raise e.

(** Every case before position [i] rejects the subject. *)
Definition all_reject_before (i : nat) (cases : list Case) (v : Value) : Prop :=
  ∀ j c, (j < i)%nat → cases !! j = Some c → rejects c v.

(** ** Names bound by a pattern *)

(** Induction over pattern trees, with the sub-patterns held in lists. *)
Section Pattern_induction.
Variable P : Pattern → Prop.
Hypothesis HLiteral : ∀ l, P (Literal l).
Hypothesis HWildcard : P Wildcard.
Hypothesis HCapture : ∀ n, P (Capture n).
Hypothesis HTyped : ∀ k n, P (TypedCapture k n).
Hypothesis HSequence : ∀ head rest tail,
  Forall P head → Forall P tail → P (PSequence head rest tail).
Hypothesis HMapping : ∀ req rest, Forall (fun kp => P kp.2) req → P (PMapping req rest).
Hypothesis HRecord : ∀ tag fps, Forall (fun fp => P fp.2) fps → P (PRecord tag fps).
Hypothesis HOr : ∀ alts, Forall P alts → P (Or alts).
Hypothesis HAs : ∀ inner n, P inner → P (As inner n).

Fixpoint Pattern_tree_ind (p : Pattern) : P p :=
  let all :=
    fix all (ps : list Pattern) : Forall P ps :=
      match ps with
      | [] => @List.Forall_nil _ P
      | q :: qs => @List.Forall_cons _ P q qs (Pattern_tree_ind q) (all qs)
      end in
  let all_snd :=
    fun (K : Type) =>
    fix all_snd (kps : list (K * Pattern)) : Forall (fun kp => P kp.2) kps :=
      match kps with
      | [] => @List.Forall_nil _ _
      | kp :: rest => @List.Forall_cons _ (fun kp => P kp.2) kp rest (Pattern_tree_ind kp.2) (all_snd rest)
      end in
  match p with
  | Literal l => HLiteral l
  | Wildcard => HWildcard
  | Capture n => HCapture n
  | TypedCapture k n => HTyped k n
  | PSequence head rest tail => HSequence head rest tail (all head) (all tail)
  | PMapping req rest => HMapping req rest (all_snd Scalar req)
  | PRecord tag fps => HRecord tag fps (all_snd string fps)
  | Or alts => HOr alts (all alts)
  | As inner n => HAs inner n (Pattern_tree_ind inner)
  end.
End Pattern_induction.

Definition rest_name (rest : option string) : gset string :=
  match rest with
  | Some r => {[r]}
  | None => ∅
  end.

(** The names a pattern can bind. *)
Fixpoint bound_names (p : Pattern) : gset string :=
  match p with
  | Literal _ | Wildcard => ∅
  | Capture n => {[n]}
  | TypedCapture _ n => rest_name n
  | PSequence head rest tail =>
      ⋃ (bound_names <$> head) ∪ rest_name rest ∪ ⋃ (bound_names <$> tail)
  | PMapping req rest => ⋃ ((fun kp => bound_names kp.2) <$> req) ∪ rest_name rest
  | PRecord _ fps => ⋃ ((fun fp => bound_names fp.2) <$> fps)
  | Or alts => ⋃ (bound_names <$> alts)
  | As inner n => bound_names inner ∪ {[n]}
  end.

(** ** Auxiliary definitions of the statements *)

(** The two [Builder] cases of [analyze_data], on their own. *)
Definition builder_cases : list Case :=
  [ mkCase (PRecord "Builder" [("value", Capture "v")])
      (Some (fun b => with_name b "v" (fun v => gt_int v 100)));
    mkCase (PRecord "Builder" [("value", Capture "v")]) None ].

(** The items of a sequence from position [i] up to position [j], Python's
    [items[i:j]]. *)
Definition between {A} (i j : nat) (items : list A) : list A := drop i (take j items).

(** ** Literal equality in the words of the specification *)

Definition same_magnitude (x y : Num) : bool :=
  match num_compare x y with
  | Some Eq => true
  | _ => false
  end.

(** Literal equality as the specification words it: kind and payload equal,
    with the one cross-kind exception that an [int] and a [float] are equal
    when their magnitudes are. Two floats are equal when IEEE equality says
    so. *)
Definition spec_literal_equal (v : Value) (l : Scalar) : bool :=
  match v with
  | VScalar s =>
      match s, l with
      | SInt a, SInt b => bool_decide (a = b)
      | SFloat f, SFloat g => same_magnitude (num_of_float f) (num_of_float g)
      | SInt a, SFloat g => same_magnitude (NFin a 0) (num_of_float g)
      | SFloat f, SInt b => same_magnitude (num_of_float f) (NFin b 0)
      | SBool a, SBool b => bool_decide (a = b)
      | SStr a, SStr b => bool_decide (a = b)
      | SNone, SNone => true
      | _, _ => false
      end
  | _ => false
  end.

(** What the code accepts beyond that: a [bool] subject against an [int] or
    [float] literal of equal magnitude, [True] counting as 1 and [False] as
    0. *)
Definition bool_equals_number (v : Value) (l : Scalar) : bool :=
  match v, l with
  | VScalar (SBool a), SInt b => same_magnitude (NFin (if a then 1 else 0) 0) (NFin b 0)
  | VScalar (SBool a), SFloat g => same_magnitude (NFin (if a then 1 else 0) 0) (num_of_float g)
  | _, _ => false
  end.

(** ** Record patterns in the words of the specification *)

(** What the specification asks of a value for [Record(tag, fields)]: it is a
    record whose type tag equals [tag], and every field that the pattern
    names is present in it and satisfies its sub-pattern. *)
Definition spec_record_matches (tag : string) (fps : list (string * Pattern))
    (v : Value) : Prop :=
  ∃ c fields,
    v = VRecord c fields ∧ class_name c = tag ∧
    Forall (fun fp => ∃ x, lookup_field fp.1 fields = Some x ∧
                           is_Some (match_pattern fp.2 x)) fps.

(** An instance of a subclass of [Point] that adds nothing,
    [class Point3D(Point): pass], built as [Point3D(x, y)]. *)
Definition Point3D (x y : Value) : Value :=
  VRecord (subclass "Point3D" (mkClass "Point" [])) [("x", x); ("y", y)].

(** The subjects that are numbers: [int], [float] and [bool]. *)
Definition is_number (v : Value) : Prop := ∃ s, v = VScalar s ∧ is_Some (num_of s).

(** ** Store model

    Python binds names to objects, not to copies: to say that a [match]
    leaves its subject as it was, the subject has to live in a store. The
    store is the sequence of objects allocated so far and a location is a
    position in it; a [list], a [dict] and an instance hold the locations of
    their parts. *)

Abbreviation loc := nat.

Inductive Obj :=
| OScalar (s : Scalar)
| OList (items : list loc)
| ODict (entries : list (Scalar * loc))
| OInstance (class : UserClass) (attrs : list (string * loc)).

Abbreviation Store := (list Obj).
Abbreviation Refs := (gmap string loc).

(** A new object is put at the end of the store. *)
Definition alloc (o : Obj) (h : Store) : loc * Store := (length h, h ++ [o]).

(** An object as far as literal and kind tests look at it: its scalar, or
    which container it is. *)
Definition head_value (o : Obj) : Value :=
  match o with
  | OScalar s => VScalar s
  | OList _ => VSequence []
  | ODict _ => VMapping []
  | OInstance c _ => VRecord c []
  end.

(** The star and double-star names are bound to a newly built container. *)
Definition store_bind_rest (rest : option string) (o : Obj) (b : Refs) (h : Store) :
  Refs * Store :=
  match rest with
  | Some r => let '(l, h') := alloc o h in (<[r := l]> b, h')
  | None => (b, h)
  end.

Definition store_match_items (m : Pattern → loc → Store → option Refs * Store) :
  list Pattern → list loc → Store → option Refs * Store :=
  fix go ps ls h :=
    match ps, ls with
    | [], [] => (Some ∅, h)
    | p :: ps', l :: ls' =>
        match m p l h with
        | (None, h1) => (None, h1)
        | (Some b1, h1) =>
            match go ps' ls' h1 with
            | (None, h2) => (None, h2)
            | (Some b2, h2) => (Some (merge b1 b2), h2)
            end
        end
    | _, _ => (None, h)
    end.

Definition store_match_keys (m : Pattern → loc → Store → option Refs * Store) :
  list (Scalar * Pattern) → list (Scalar * loc) → Store → option Refs * Store :=
  fix go req entries h :=
    match req with
    | [] => (Some ∅, h)
    | (k, p) :: req' =>
        match lookup_key k entries with
        | None => (None, h)
        | Some l =>
            match m p l h with
            | (None, h1) => (None, h1)
            | (Some b1, h1) =>
                match go req' entries h1 with
                | (None, h2) => (None, h2)
                | (Some b2, h2) => (Some (merge b1 b2), h2)
                end
            end
        end
    end.

Definition store_match_fields (m : Pattern → loc → Store → option Refs * Store) :
  list (string * Pattern) → list (string * loc) → Store → option Refs * Store :=
  fix go fps attrs h :=
    match fps with
    | [] => (Some ∅, h)
    | (f, p) :: fps' =>
        match lookup_field f attrs with
        | None => (None, h)
        | Some l =>
            match m p l h with
            | (None, h1) => (None, h1)
            | (Some b1, h1) =>
                match go fps' attrs h1 with
                | (None, h2) => (None, h2)
                | (Some b2, h2) => (Some (merge b1 b2), h2)
                end
            end
        end
    end.

Definition store_match_any (m : Pattern → loc → Store → option Refs * Store) :
  list Pattern → loc → Store → option Refs * Store :=
  fix go alts l h :=
    match alts with
    | [] => (None, h)
    | p :: alts' =>
        match m p l h with
        | (Some b, h1) => (Some b, h1)
        | (None, h1) => go alts' l h1
        end
    end.

(** The matcher on the store: the subject is a location, captured names
    refer to the objects themselves, and the store is handed on because a
    rest-capture allocates. *)
Fixpoint store_match (p : Pattern) (l : loc) (h : Store) : option Refs * Store :=
  match p with
  | Literal lit =>
      match h !! l with
      | Some o =>
          match lit with
          | SBool _ | SNone =>
              (if value_is_scalar (head_value o) lit then Some ∅ else None, h)
          | _ => (if value_eq_scalar (head_value o) lit then Some ∅ else None, h)
          end
      | None => (None, h)
      end
  | Wildcard => (Some ∅, h)
  | Capture n => (Some {[n := l]}, h)
  | TypedCapture k n =>
      match h !! l with
      | Some o =>
          (if isinstance (head_value o) k then Some (bind_rest n l ∅) else None, h)
      | None => (None, h)
      end
  | PSequence head rest tail =>
      match h !! l with
      | Some (OList items) =>
          let len := (length head + length tail)%nat in
          let n_mid := (length items - len)%nat in
          let arity_ok :=
            match rest with
            | None => bool_decide (length items = len)
            | Some _ => bool_decide (len ≤ length items)%nat
            end in
          if arity_ok
          then
            match store_match_items store_match head (take (length head) items) h with
            | (None, h1) => (None, h1)
            | (Some b1, h1) =>
                let middle := OList (take n_mid (drop (length head) items)) in
                let '(b2, h2) := store_bind_rest rest middle b1 h1 in
                match store_match_items store_match tail
                        (drop (length head + n_mid) items) h2 with
                | (None, h3) => (None, h3)
                | (Some b3, h3) => (Some (merge b2 b3), h3)
                end
            end
          else (None, h)
      | _ => (None, h)
      end
  | PMapping required rest =>
      match h !! l with
      | Some (ODict entries) =>
          match store_match_keys store_match required entries h with
          | (None, h1) => (None, h1)
          | (Some b, h1) =>
              let '(b', h2) :=
                store_bind_rest rest (ODict (remaining (required.*1) entries)) b h1 in
              (Some b', h2)
          end
      | _ => (None, h)
      end
  | PRecord tag fps =>
      match h !! l with
      | Some (OInstance c attrs) =>
          if instance_of c tag
          then store_match_fields store_match fps attrs h
          else (None, h)
      | _ => (None, h)
      end
  | Or alts => store_match_any store_match alts l h
  | As inner n =>
      match store_match inner l h with
      | (None, h1) => (None, h1)
      | (Some b, h1) => (Some (<[n := l]> b), h1)
      end
  end.

(** The value an object stands for, read off the store down to a given
    depth. *)
Fixpoint reify (depth : nat) (h : Store) (l : loc) : option Value :=
  match depth with
  | O => None
  | S d =>
      match h !! l with
      | Some (OScalar s) => Some (VScalar s)
      | Some (OList items) => VSequence <$> mapM (reify d h) items
      | Some (ODict entries) =>
          VMapping <$> mapM (fun kl => pair kl.1 <$> reify d h kl.2) entries
      | Some (OInstance c attrs) =>
          VRecord c <$> mapM (fun fl => pair fl.1 <$> reify d h fl.2) attrs
      | None => None
      end
  end.

(** A guard and a body read the objects their names refer to, down to
    [depth]. *)
Definition reify_refs (depth : nat) (h : Store) (b : Refs) : Bindings :=
  omap (reify depth h) b.

Inductive SelectRefs :=
| SelectedRefs (index : nat) (refs : Refs)
| ExhaustedRefs.

(** The scan on the store. A guard gets the values of the names, read down
    to [depth], and returns a truth value or raises; nothing it is given lets
    it write. *)
Fixpoint store_select_from (depth i : nat) (cases : list Case) (l : loc) (h : Store) :
  Res SelectRefs * Store :=
  match cases with
  | [] => (Ok ExhaustedRefs, h)
  | c :: cases' =>
      match store_match (pattern c) l h with
      | (None, h1) => store_select_from depth (S i) cases' l h1
      | (Some b, h1) =>
          match guard c with
          | None => (Ok (SelectedRefs i b), h1)
          | Some g =>
              match g (reify_refs depth h1 b) with
              | Ok true => (Ok (SelectedRefs i b), h1)
              | Ok false => store_select_from depth (S i) cases' l h1
              | Raise e => (Raise e, h1)
              end
          end
      end
  end.

Definition store_select (depth : nat) (cases : list Case) (l : loc) (h : Store) :
  Res SelectRefs * Store :=
  store_select_from depth 0 cases l h.

(** A function of the source called on the object at [subject]. *)
Definition store_run_match (depth : nat) (param : string) (clauses : list Clause)
    (subject : loc) (h : Store) : Res Reply * Store :=
  match store_select depth (clause_case <$> clauses) subject h with
  | (Raise e, h') => (Raise e, h')
  | (Ok ExhaustedRefs, h') => (Ok ReturnNone, h')
  | (Ok (SelectedRefs i b), h') =>
      match clauses !! i with
      | Some cl => (clause_body cl (reify_refs depth h' (merge {[param := subject]} b)), h')
      | None => (Ok ReturnNone, h')
      end
  end.

Definition store_analyze_data (depth : nat) : loc → Store → Res Reply * Store :=
  store_run_match depth "data" analyze_data_clauses.

Definition store_complex_pattern_matching (depth : nat) : loc → Store → Res Reply * Store :=
  store_run_match depth "data" complex_pattern_matching_clauses.

(** A store matcher that never touches what is in the store. *)
Definition grows_only (m : Pattern → loc → Store → option Refs * Store)
    (p : Pattern) : Prop :=
  ∀ l h r h', m p l h = (r, h') → h `prefix_of` h'.

(** ** Relating the store to values *)

(** The references [lb] stand for the bindings [b]: the same names, each
    referring to an object that reads as the bound value. *)
Definition stands_for (depth : nat) (h : Store) (lb : Refs) (b : Bindings) : Prop :=
  map_Forall2 (fun _ l v => reify depth h l = Some v) lb b.

(** What reading an object at depth [S d] amounts to. *)
Inductive reads_as (d : nat) (h : Store) : Obj → Value → Prop :=
| reads_scalar s : reads_as d h (OScalar s) (VScalar s)
| reads_list items vs :
    Forall2 (fun l v => reify d h l = Some v) items vs →
    reads_as d h (OList items) (VSequence vs)
| reads_dict es ves :
    Forall2 (fun kl kv => kl.1 = kv.1 ∧ reify d h kl.2 = Some kv.2) es ves →
    reads_as d h (ODict es) (VMapping ves)
| reads_instance c attrs fs :
    Forall2 (fun fl fv => fl.1 = fv.1 ∧ reify d h fl.2 = Some fv.2) attrs fs →
    reads_as d h (OInstance c attrs) (VRecord c fs).

(** A store result agrees with a value result: both fail, or both succeed
    and the references stand for the bindings in the store left behind. *)
Definition agree (depth : nat) (r : option Refs * Store) (res : MatchResult) : Prop :=
  option_Forall2 (stands_for depth r.2) r.1 res.

(** A store matcher computes what a value matcher computes on a pattern. *)
Definition refines_at (depth : nat)
    (ms : Pattern → loc → Store → option Refs * Store)
    (mp : Pattern → Value → MatchResult) (p : Pattern) : Prop :=
  ∀ l h v, reify depth h l = Some v → agree depth (ms p l h) (mp p v).

(** A store matcher that binds only names of the pattern. *)
Definition binds_within (m : Pattern → loc → Store → option Refs * Store)
    (p : Pattern) : Prop :=
  ∀ l h b h', m p l h = (Some b, h') → dom b ⊆ bound_names p.

(** A store with the subjects of two of the test cases of the source:
    [{"required": "value", "optional1": "a"}] at 5 and [{"items": [1, 2]}]
    at 6. *)
Definition demo_store : Store :=
  [ OScalar (SStr "value"); OScalar (SStr "a"); OScalar (SInt 1); OScalar (SInt 2);
    OList [2; 3]%nat;
    ODict [(key "required", 0%nat); (key "optional1", 1%nat)];
    ODict [(key "items", 4%nat)] ].

(** * Further definitions: the rest of the source *)

(** ** Well-formed patterns *)

(** Python compiles an or-pattern only when its alternatives bind the same
    names ("alternative patterns bind different names" otherwise):
    [well_formed] is that check, through the whole pattern tree. *)
Fixpoint well_formed (p : Pattern) : bool :=
  match p with
  | Literal _ | Wildcard | Capture _ | TypedCapture _ _ => true
  | PSequence head _ tail => forallb well_formed head && forallb well_formed tail
  | PMapping req _ => forallb (fun kp => well_formed kp.2) req
  | PRecord _ fps => forallb (fun fp => well_formed fp.2) fps
  | Or alts =>
      forallb well_formed alts &&
      forallb (fun q => bool_decide (bound_names q = ⋃ (bound_names <$> alts))) alts
  | As inner _ => well_formed inner
  end.

(** A matcher that, on a well-formed pattern, binds every name of it. *)
Definition binds_all (m : Pattern → Value → MatchResult) (p : Pattern) : Prop :=
  well_formed p = true → ∀ v b, m p v = Some b → dom b = bound_names p.

(** The patterns of the three [match] statements of the source. *)
Definition source_patterns : list Pattern :=
  (fun cl => pattern (clause_case cl)) <$>
    (analyze_data_clauses ++ process_value_clauses ++ complex_pattern_matching_clauses).

(** ** The [match] statement, clause by clause *)

(** [run_match] read off the clauses directly: the first clause whose pattern
    matches and whose guard accepts runs its body. *)
Fixpoint run_clauses (param : string) (clauses : list Clause) (subject : Value) : Res Reply :=
  match clauses with
  | [] => Ok ReturnNone
  | cl :: clauses' =>
      match match_pattern (pattern (clause_case cl)) subject with
      | None => run_clauses param clauses' subject
      | Some b =>
          match guard (clause_case cl) with
          | None => clause_body cl (merge {[param := subject]} b)
          | Some g =>
              match g b with
              | Ok true => clause_body cl (merge {[param := subject]} b)
              | Ok false => run_clauses param clauses' subject
              | Raise e => Raise e
              end
          end
      end
  end.

(** An [int], or a [bool] taken as one. *)
Definition int_value (v : Value) : option Z :=
  match v with
  | VScalar (SInt n) => Some n
  | VScalar (SBool b) => Some (if b then 1 else 0)
  | _ => None
  end.

(** ** The loop of [main] *)

(** A number that an f-string can write out: any [float] or [bool], and an
    [int] of at most [int_max_str_digits] digits. *)
Definition short_number (v : Value) : Prop :=
  is_number v ∧ ∀ n, v = int n → (Z.abs n < 10 ^ int_max_str_digits)%Z.

(** [test_data] of [main] (lines 406-418). *)
Definition main_test_data : list Value :=
  [ int 42;
    int (-5);
    VSequence [];
    VSequence [int 1];
    VSequence [int 1; int 2];
    VSequence [int 1; int 2; int 3; int 4];
    VMapping [(key "type", str "user"); (key "name", str "Alice")];
    VMapping [(key "type", str "admin");
              (key "permissions", VSequence [str "read"; str "write"])];
    Builder (int 150);
    str "start";
    VMapping [(key "data", VSequence [int 1; int 2; int 3]); (key "meta", str "info")] ].

(** [for data in test_data: result = f(data); print(f"... {data}: {result}")]
    (lines 420-422, with [analyze_data] for [f]): the lines printed, each
    kept as the subject and the result it shows, and how the loop ends. The
    call comes first; then the f-string writes the subject out, which can
    fail, and the result, which is a string. *)
Fixpoint print_results (f : Value → Res Reply) (test_data : list Value) :
  list (Value * Reply) * Res unit :=
  match test_data with
  | [] => ([], Ok tt)
  | data :: rest =>
      match f data with
      | Raise e => ([], Raise e)
      | Ok result =>
          match written data with
          | Raise e => ([], Raise e)
          | Ok _ =>
              let '(printed, outcome) := print_results f rest in
              ((data, result) :: printed, outcome)
          end
      end
  end.

(** The patterns of the third, fourth and seventh case of
    [complex_pattern_matching]. *)
Definition status_pattern : Pattern :=
  PMapping [(key "status",
             Or [str_lit "active"; str_lit "pending"; str_lit "processing"])] None.

Definition items_pattern : Pattern :=
  PMapping [(key "items",
             PSequence [Capture "first"] (Some "middle") [Capture "last"])] None.

Definition required_pattern : Pattern :=
  PMapping [(key "required", Capture "value")] (Some "rest").

(** ** Plain data

    The subjects for which writing out and comparing depend on nothing but
    the value: numbers, strings and [None], and lists and dicts of them, with
    every [int] inside the digit limit and the containers nested no deeper
    than [depth], so that [repr] stays far from the recursion limit of the
    interpreter (1000 frames unless changed). Instances are left out. *)
Definition plain_scalar (s : Scalar) : bool :=
  match s with
  | SInt n => bool_decide (Z.abs n < 10 ^ int_max_str_digits)
  | _ => true
  end.

Fixpoint plain (depth : nat) (v : Value) {struct depth} : bool :=
  match v with
  | VScalar s => plain_scalar s
  | VSequence items =>
      match depth with
      | O => false
      | S d => forallb (plain d) items
      end
  | VMapping entries =>
      match depth with
      | O => false
      | S d => forallb (fun kv => plain_scalar kv.1 && plain d kv.2) entries
      end
  | VRecord _ _ => false
  end.

Definition nesting_limit : nat := 100.

(** ** [type_safe_function] *)

(** The characters of a [str], each with the bytes that continue it; the
    first component holds the continuation bytes met before any character
    began, none in a well-formed string. *)
Fixpoint split_characters (s : string) : string * list string :=
  match s with
  | EmptyString => (EmptyString, [])
  | String c s' =>
      let '(pending, chars) := split_characters s' in
      if continuation_byte c
      then (String c pending, chars)
      else (EmptyString, String c pending :: chars)
  end.

Definition characters (s : string) : list string := (split_characters s).2.

(** [for item in v]: the items of a list, the keys of a dict, the characters
    of a string; nothing else of the value model can be iterated (no class of
    the source defines [__iter__] or [__getitem__]). *)
Definition iterate (v : Value) : Res (list Value) :=
  match v with
  | VSequence items => Ok items
  | VMapping entries => Ok (VScalar <$> entries.*1)
  | VScalar (SStr s) => Ok (str <$> characters s)
  | _ => Raise TypeError
  end.

(** [d[k] = v]: the value under an equal key is replaced where it stands, a
    new key goes to the end. *)
Fixpoint dict_set (k : Scalar) (v : Value) (entries : list (Scalar * Value)) :
  list (Scalar * Value) :=
  match entries with
  | [] => [(k, v)]
  | (k', v') :: rest =>
      if scalar_eq k' k then (k', v) :: rest else (k', v') :: dict_set k v rest
  end.

(** The dict comprehension [{item: len(item) for item in items}], entry by
    entry: [len(item)] is taken first, then the item is hashed as a key,
    which a list or a dict refuses. *)
Fixpoint lengths_into (acc : list (Scalar * Value)) (items : list Value) :
  Res (list (Scalar * Value)) :=
  match items with
  | [] => Ok acc
  | item :: rest =>
      match py_len item with
      | Raise e => Raise e
      | Ok n =>
          match item with
          | VScalar k => lengths_into (dict_set k (int n) acc) rest
          | _ => Raise TypeError
          end
      end
  end.

Definition type_safe_function (items : Value) : Res Value :=
  match iterate items with
  | Raise e => Raise e
  | Ok xs =>
      match lengths_into [] xs with
      | Ok d => Ok (VMapping d)
      | Raise e => Raise e
      end
  end.

(** The items of the value model that the comprehension cannot take as a
    key with a length: a number and [None] have no [len], a list and a dict
    cannot be hashed. *)
Definition no_key (item : Value) : Prop :=
  match item with
  | VScalar (SStr _) | VRecord _ _ => False
  | _ => True
  end.

(** The entry a word gets. *)
Definition word_entry (w : string) : Scalar * Value :=
  (SStr w, int (Z.of_nat (code_points w))).

(** A dict of words with their lengths, no word twice. *)
Definition lengths_dict (d : list (Scalar * Value)) : Prop :=
  Forall (fun kv => ∃ w, kv = word_entry w) d ∧ NoDup (d.*1).

(** ** [Builder] *)

(** An instance of [Builder] with the [int] value that [__init__] is
    annotated with. *)
Record BuilderOf := mkBuilder { self_value : Z }.

(** [add] and [multiply] build a new instance with [type(self)(...)] and
    leave [self] as it is. *)
Definition Builder_add (self : BuilderOf) (other : Z) : BuilderOf :=
  mkBuilder (self_value self + other).

Definition Builder_multiply (self : BuilderOf) (factor : Z) : BuilderOf :=
  mkBuilder (self_value self * factor).

(** The instance as a subject of a [match] statement. *)
Definition Builder_object (b : BuilderOf) : Value := Builder (int (self_value b)).

(** * Theorems *)

(** ** The ordered scan *)

Lemma accepts_not_rejects c v b : accepts c v b → ¬ rejects c v.
Proof.
  intros [Hm Hg] [Hn | (b' & g & Hm' & Hg' & Hfalse)]; [congruence |].
  rewrite Hm in Hm'. injection Hm' as <-.
  destruct Hg as [Hg | (g' & Hg & Htrue)]; congruence.
Qed.

Lemma guard_raises_not_rejects c v e : guard_raises c v e → ¬ rejects c v.
Proof.
  intros (b & g & Hm & Hg & Hr) [Hn | (b' & g' & Hm' & Hg' & Hfalse)]; congruence.
Qed.

Lemma select_from_cons_reject i c cases v :
  rejects c v → select_from i (c :: cases) v = select_from (S i) cases v.
Proof.
  intros [Hn | (b & g & Hm & Hg & Hfalse)]; simpl.
  - by rewrite Hn.
  - by rewrite Hm, Hg, Hfalse.
Qed.

Lemma select_from_cons_accept i c cases v b :
  accepts c v b → select_from i (c :: cases) v = Ok (Selected i b).
Proof.
  intros [Hm [Hg | (g & Hg & Htrue)]]; simpl; rewrite Hm, Hg; [done |].
  by rewrite Htrue.
Qed.

Lemma select_from_cons_raise i c cases v e :
  guard_raises c v e → select_from i (c :: cases) v = Raise e.
Proof. intros (b & g & Hm & Hg & Hr); simpl. by rewrite Hm, Hg, Hr. Qed.

(** A case either accepts, rejects or has its guard raise. *)
Lemma case_trichotomy c v :
  (∃ b, accepts c v b) ∨ rejects c v ∨ ∃ e, guard_raises c v e.
Proof.
  unfold accepts, rejects, guard_raises.
  destruct (match_pattern (pattern c) v) as [b |] eqn:Hm; [| by right; left; left].
  destruct (guard c) as [g |] eqn:Hg; [| by left; exists b; split; [| left]].
  destruct (g b) as [[|] | e] eqn:Hgb.
  - left; exists b; split; [done | right; eauto].
  - right; left; right; eauto.
  - right; right; eauto 10.
Qed.

Lemma all_reject_before_cons i c cases v :
  all_reject_before (S i) (c :: cases) v ↔ rejects c v ∧ all_reject_before i cases v.
Proof.
  unfold all_reject_before; split.
  - intros H; split; [apply (H 0%nat); [lia | done] |].
    intros j cj Hj Hl. apply (H (S j)); [lia | done].
  - intros [Hc H] [| j] cj Hj Hl; simpl in Hl.
    + by injection Hl as <-.
    + apply (H j); [lia | done].
Qed.

(** The scan started at number [i] selects number [i + k] exactly when the
    [k]-th remaining case accepts and all before it reject. *)
Lemma select_from_selected i cases v n b :
  select_from i cases v = Ok (Selected n b) ↔
  ∃ k c, n = (i + k)%nat ∧ cases !! k = Some c ∧ accepts c v b ∧
         all_reject_before k cases v.
Proof.
  revert i; induction cases as [| c cases IH]; intros i.
  - simpl; split; [discriminate | intros (k & c & _ & Hl & _); discriminate].
  - destruct (case_trichotomy c v) as [[b' Hacc] | [Hrej | [e Hr]]].
    + rewrite (select_from_cons_accept _ _ _ _ _ Hacc). split.
      * intros [= <- <-]. exists 0%nat, c. split; [lia |].
        repeat split; try done; try apply Hacc. intros j cj Hj; lia.
      * intros (k & ck & -> & Hl & Hck & Hbefore). destruct k as [| k].
        -- injection Hl as <-. destruct Hacc as [Hm _], Hck as [Hm' _].
           rewrite Hm in Hm'. injection Hm' as <-. do 2 f_equal. lia.
        -- exfalso. apply (accepts_not_rejects _ _ _ Hacc).
           apply (Hbefore 0%nat c); [lia | done].
    + rewrite (select_from_cons_reject _ _ _ _ Hrej), IH. split.
      * intros (k & ck & -> & Hl & Hck & Hbefore). exists (S k), ck.
        split; [lia |]. split; [done |]. split; [done |].
        by apply all_reject_before_cons.
      * intros (k & ck & -> & Hl & Hck & Hbefore). destruct k as [| k].
        -- injection Hl as <-. by destruct (accepts_not_rejects _ _ _ Hck).
        -- exists k, ck. split; [lia |]. split; [done |]. split; [done |].
           by apply all_reject_before_cons in Hbefore as [_ ?].
    + rewrite (select_from_cons_raise _ _ _ _ _ Hr). split; [discriminate |].
      intros (k & ck & -> & Hl & Hck & Hbefore). destruct k as [| k].
      * injection Hl as <-. destruct Hr as (b1 & g1 & Hm1 & Hg1 & Hr1).
        destruct Hck as [Hm [Hg | (g & Hg & Htrue)]]; congruence.
      * exfalso. apply (guard_raises_not_rejects _ _ _ Hr).
        apply (Hbefore 0%nat c); [lia | done].
Qed.

(** The scan raises exactly when the guard of some case raises and all cases
    before it reject. *)
Lemma select_from_raise i cases v e :
  select_from i cases v = Raise e ↔
  ∃ k c, cases !! k = Some c ∧ guard_raises c v e ∧ all_reject_before k cases v.
Proof.
  revert i; induction cases as [| c cases IH]; intros i.
  - simpl; split; [discriminate | intros (k & c & Hl & _); discriminate].
  - destruct (case_trichotomy c v) as [[b' Hacc] | [Hrej | [e' Hr]]].
    + rewrite (select_from_cons_accept _ _ _ _ _ Hacc). split; [discriminate |].
      intros (k & ck & Hl & Hck & Hbefore). destruct k as [| k].
      * injection Hl as <-. destruct Hck as (b1 & g1 & Hm1 & Hg1 & Hr1).
        destruct Hacc as [Hm [Hg | (g & Hg & Htrue)]]; congruence.
      * exfalso. apply (accepts_not_rejects _ _ _ Hacc).
        apply (Hbefore 0%nat c); [lia | done].
    + rewrite (select_from_cons_reject _ _ _ _ Hrej), IH. split.
      * intros (k & ck & Hl & Hck & Hbefore). exists (S k), ck.
        split; [done |]. split; [done |]. by apply all_reject_before_cons.
      * intros (k & ck & Hl & Hck & Hbefore). destruct k as [| k].
        -- injection Hl as <-. by destruct (guard_raises_not_rejects _ _ _ Hck).
        -- exists k, ck. split; [done |]. split; [done |].
           by apply all_reject_before_cons in Hbefore as [_ ?].
    + rewrite (select_from_cons_raise _ _ _ _ _ Hr). split.
      * intros [= <-]. exists 0%nat, c. repeat split; try done.
        intros j cj Hj; lia.
      * intros (k & ck & Hl & Hck & Hbefore). destruct k as [| k].
        -- injection Hl as <-. destruct Hr as (b1 & g1 & Hm1 & Hg1 & Hr1).
           destruct Hck as (b2 & g2 & Hm2 & Hg2 & Hr2). congruence.
        -- exfalso. apply (guard_raises_not_rejects _ _ _ Hr).
           apply (Hbefore 0%nat c); [lia | done].
Qed.

(** [select] returns case [i] exactly when case [i] is the first that
    matches structurally with an accepting guard, every earlier case having
    rejected the subject. *)
Lemma select_selected_iff cases v i b :
  select cases v = Ok (Selected i b) ↔
  ∃ c, cases !! i = Some c ∧ accepts c v b ∧ all_reject_before i cases v.
Proof.
  unfold select. rewrite select_from_selected. split.
  - intros (k & c & -> & H). by exists c.
  - intros (c & H). by exists i, c.
Qed.

(** ** Names bound by a successful match *)

Lemma dom_merge {A} (b1 b2 : gmap string A) : dom (merge b1 b2) = dom b1 ∪ dom b2.
Proof. unfold merge. rewrite dom_union_L. set_solver. Qed.

Lemma dom_bind_rest {A} rest (v : A) (b : gmap string A) :
  dom (bind_rest rest v b) = rest_name rest ∪ dom b.
Proof. destruct rest; simpl; [apply dom_insert_L | set_solver]. Qed.

Section Bound_names.
Variable m : Pattern → Value → MatchResult.

Lemma match_items_dom ps :
  Forall (fun p => ∀ v b, m p v = Some b → dom b ⊆ bound_names p) ps →
  ∀ vs b, match_items m ps vs = Some b → dom b ⊆ ⋃ (bound_names <$> ps).
Proof.
  induction 1 as [| p ps Hp _ IH]; intros [| v vs] b; simpl; try discriminate.
  - intros [= <-]. set_solver.
  - destruct (m p v) as [b1 |] eqn:H1; [| discriminate].
    destruct (match_items m ps vs) as [b2 |] eqn:H2; [| discriminate].
    intros [= <-]. rewrite dom_merge.
    specialize (Hp _ _ H1). specialize (IH _ _ H2). set_solver.
Qed.

Lemma match_keys_dom req :
  Forall (fun kp => ∀ v b, m kp.2 v = Some b → dom b ⊆ bound_names kp.2) req →
  ∀ es b, match_keys m req es = Some b →
          dom b ⊆ ⋃ ((fun kp => bound_names kp.2) <$> req).
Proof.
  induction 1 as [| [k p] req Hp _ IH]; intros es b; simpl.
  - intros [= <-]. set_solver.
  - destruct (lookup_key k es) as [v |]; [| discriminate].
    destruct (m p v) as [b1 |] eqn:H1; [| discriminate].
    destruct (match_keys m req es) as [b2 |] eqn:H2; [| discriminate].
    intros [= <-]. rewrite dom_merge.
    specialize (Hp _ _ H1). specialize (IH _ _ H2). set_solver.
Qed.

Lemma match_fields_dom fps :
  Forall (fun fp => ∀ v b, m fp.2 v = Some b → dom b ⊆ bound_names fp.2) fps →
  ∀ fs b, match_fields m fps fs = Some b →
          dom b ⊆ ⋃ ((fun fp => bound_names fp.2) <$> fps).
Proof.
  induction 1 as [| [f p] fps Hp _ IH]; intros fs b; simpl.
  - intros [= <-]. set_solver.
  - destruct (lookup_field f fs) as [v |]; [| discriminate].
    destruct (m p v) as [b1 |] eqn:H1; [| discriminate].
    destruct (match_fields m fps fs) as [b2 |] eqn:H2; [| discriminate].
    intros [= <-]. rewrite dom_merge.
    specialize (Hp _ _ H1). specialize (IH _ _ H2). set_solver.
Qed.

Lemma match_any_dom alts :
  Forall (fun p => ∀ v b, m p v = Some b → dom b ⊆ bound_names p) alts →
  ∀ v b, match_any m alts v = Some b → dom b ⊆ ⋃ (bound_names <$> alts).
Proof.
  induction 1 as [| p alts Hp _ IH]; intros v b; simpl; [discriminate |].
  destruct (m p v) as [b1 |] eqn:H1.
  - intros [= <-]. specialize (Hp _ _ H1). set_solver.
  - intros H2. specialize (IH _ _ H2). set_solver.
Qed.
End Bound_names.

(** A successful match binds only names that occur in the pattern. *)
Lemma match_pattern_dom p :
  ∀ v b, match_pattern p v = Some b → dom b ⊆ bound_names p.
Proof.
  induction p as [l | | n | k n | head rest tail IHh IHt | req rest IH
                 | tag fps IH | alts IH | inner n IH] using Pattern_tree_ind;
    intros v b; simpl.
  - destruct l; case_match; intros [= <-]; set_solver.
  - intros [= <-]. set_solver.
  - intros [= <-]. rewrite dom_singleton_L. set_solver.
  - case_match; intros [= <-]. rewrite dom_bind_rest. set_solver.
  - destruct v as [| items | |]; try discriminate.
    case_match; [| discriminate].
    destruct (match_items _ head _) as [b1 |] eqn:H1; [| discriminate].
    destruct (match_items _ tail _) as [b3 |] eqn:H3; [| discriminate].
    intros [= <-]. rewrite dom_merge, dom_bind_rest.
    apply (match_items_dom _ _ IHh) in H1. apply (match_items_dom _ _ IHt) in H3.
    set_solver.
  - destruct v as [| | es |]; try discriminate.
    destruct (match_keys _ req es) as [b1 |] eqn:H1; [| discriminate].
    intros [= <-]. rewrite dom_bind_rest.
    apply (match_keys_dom _ _ IH) in H1. set_solver.
  - destruct v as [| | | tag' fs]; try discriminate.
    case_match; [| discriminate].
    intros H1. by apply (match_fields_dom _ _ IH) in H1.
  - intros H1. by apply (match_any_dom _ _ IH) in H1.
  - destruct (match_pattern inner v) as [b1 |] eqn:H1; [| discriminate].
    intros [= <-]. rewrite dom_insert_L. specialize (IH _ _ H1). set_solver.
Qed.

(** ** The functions on the test data of the source *)

(** [main] runs [analyze_data] over its [test_data]: the first two items are
    answered, the third, [[]], already raises. *)
Lemma analyze_data_on_test_data :
  analyze_data (int 42) = Ok (Fmt "Unknown data type: {type(data)}" [int 42]) ∧
  analyze_data (int (-5)) = Ok (Fmt "Negative: {x}" [int (-5)]) ∧
  analyze_data (VSequence []) = Raise TypeError ∧
  analyze_data (VSequence [int 1; int 2; int 3; int 4]) = Raise TypeError ∧
  analyze_data (VMapping [(key "type", str "user"); (key "name", str "Alice")])
    = Raise TypeError ∧
  analyze_data (Builder (int 150)) = Raise TypeError ∧
  analyze_data (str "start") = Raise TypeError.
Proof. repeat split. Qed.

(** The [test_cases] of the source, one per case of
    [complex_pattern_matching]. *)
Lemma complex_pattern_matching_on_test_cases :
  complex_pattern_matching
    (VMapping [(key "users",
                VSequence [VMapping [(key "name", str "Alice"); (key "age", int 25)]])])
    = Ok (Fmt "Adult user: {name}" [str "Alice"]) ∧
  complex_pattern_matching
    (VMapping [(key "users",
                VSequence [VMapping [(key "name", str "Bob"); (key "age", int 16)]])])
    = Ok (Fmt "Minor user: {name}" [str "Bob"]) ∧
  complex_pattern_matching (VMapping [(key "status", str "active")])
    = Ok (Fmt "System is operational" []) ∧
  complex_pattern_matching
    (VMapping [(key "items", VSequence [int 1; int 2; int 3; int 4; int 5])])
    = Ok (Fmt "List: first={first}, middle={middle}, last={last}"
              [int 1; VSequence [int 2; int 3; int 4]; int 5]) ∧
  complex_pattern_matching (Point (int 0) (int 0)) = Ok (Fmt "Origin point" []) ∧
  complex_pattern_matching (Point (int 3) (int 3))
    = Ok (Fmt "Diagonal point: ({x}, {y})" [int 3; int 3]) ∧
  complex_pattern_matching
    (VMapping [(key "required", str "value"); (key "optional1", str "a");
               (key "optional2", str "b")])
    = Ok (Fmt "Required: {value}, Optional: {rest}"
              [str "value";
               VMapping [(key "optional1", str "a"); (key "optional2", str "b")]]) ∧
  complex_pattern_matching (str "unmatched") = Ok (Fmt "No pattern matched" []).
Proof. repeat split. Qed.

(** A matched star pattern whose middle is empty is rejected by the guard
    [len(middle) > 0], and a matched double-star pattern with nothing left
    over by the guard [rest]: the scan goes on to the wildcard. *)
Lemma complex_pattern_matching_empty_rest :
  complex_pattern_matching (VMapping [(key "items", VSequence [int 1; int 2])])
    = Ok (Fmt "No pattern matched" []) ∧
  complex_pattern_matching (VMapping [(key "required", str "value")])
    = Ok (Fmt "No pattern matched" []).
Proof. repeat split. Qed.

(** ** Guards: rejection and failure *)

(** A guard rejection lets a later case be selected: the decision table
    [[(Capture x, x > 100), (Capture x, no guard)]] on the subject [5]. *)
Lemma select_fallthrough_example :
  select [ mkCase (Capture "x") (Some (fun b => with_name b "x" (fun x => gt_int x 100)));
           mkCase (Capture "x") None ] (int 5)
  = Ok (Selected 1 {["x" := int 5]}).
Proof. reflexivity. Qed.

Lemma builder_cases_small :
  select builder_cases (Builder (int 50)) = Ok (Selected 1 {["v" := int 50]}).
Proof. reflexivity. Qed.

Lemma builder_cases_large :
  select builder_cases (Builder (int 150)) = Ok (Selected 0 {["v" := int 150]}).
Proof. reflexivity. Qed.

(** C1. [select] returns case [i] exactly when case [i] is the first to match
    structurally with an accepting guard, every earlier case having rejected
    the subject; a guard rejection does not stop the scan, and on their own
    the two [Builder] cases of [analyze_data] report a [Builder] whose value
    is not above 100 through the second, unguarded case. In [analyze_data]
    as written, however, no [Builder] reaches those cases: the guard [x < 0]
    of the second case is evaluated first and raises [TypeError] for every
    instance of [Builder], whatever its value. *)
Theorem C1_select_order_and_builder :
  (∀ cases v i b,
     select cases v = Ok (Selected i b) ↔
     ∃ c, cases !! i = Some c ∧ accepts c v b ∧ all_reject_before i cases v) ∧
  select [ mkCase (Capture "x") (Some (fun b => with_name b "x" (fun x => gt_int x 100)));
           mkCase (Capture "x") None ] (int 5)
    = Ok (Selected 1 {["x" := int 5]}) ∧
  (∀ value,
     gt_int value 100 = Ok false →
     select builder_cases (Builder value) = Ok (Selected 1 {["v" := value]})) ∧
  (∀ value, analyze_data (Builder value) = Raise TypeError).
Proof.
  split; [apply select_selected_iff |].
  split; [apply select_fallthrough_example |].
  split; [| reflexivity].
  intros value Hgt. unfold select, builder_cases.
  cbn [select_from pattern guard].
  assert (match_pattern (PRecord "Builder" [("value", Capture "v")]) (Builder value)
          = Matched {["v" := value]}) as ->.
  { simpl. unfold merge. by rewrite (left_id_L ∅ (∪)). }
  unfold with_name. rewrite lookup_singleton_eq. by rewrite Hgt.
Qed.

Lemma C1_select_order_and_builder_witness :
  select builder_cases (Builder (int 50)) = Ok (Selected 1 {["v" := int 50]}).
Proof.
  apply (proj1 (proj2 (proj2 C1_select_order_and_builder))). reflexivity.
Defined.

(** A raising guard ends the scan, whatever cases follow. *)
Lemma select_guard_raises before c after v e :
  Forall (fun c' => rejects c' v) before →
  guard_raises c v e →
  select (before ++ c :: after) v = Raise e.
Proof.
  intros Hbefore Hraise. unfold select.
  generalize 0%nat. induction Hbefore as [| c' before Hc' _ IH]; intros i; simpl app.
  - by apply select_from_cons_raise.
  - rewrite (select_from_cons_reject _ _ _ _ Hc'). apply IH.
Qed.

(** In [analyze_data] a subject other than 0 meets the guard [x < 0]. *)
Lemma analyze_data_raises v e :
  value_eq_scalar v (SInt 0) = false →
  lt_int v 0 = Raise e →
  analyze_data v = Raise e.
Proof.
  intros Hne Hlt.
  unfold analyze_data, run_match, select.
  cbn [analyze_data_clauses fmap list_fmap clause_case case_ case_if].
  cbn [select_from pattern guard match_pattern].
  rewrite Hne.
  unfold with_name. rewrite lookup_singleton_eq. by rewrite Hlt.
Qed.

(** C2. When the guard of a case raises, and the cases before it rejected the
    subject, [select] raises the same exception whatever cases follow: the
    failure is not read as a rejection and the scan does not go on. In
    [analyze_data], a subject that is not equal to 0 and for which [x < 0]
    cannot be evaluated makes the call raise. *)
Theorem C2_guard_failure_propagates :
  (∀ before c after v e,
     Forall (fun c' => rejects c' v) before →
     guard_raises c v e →
     select (before ++ c :: after) v = Raise e) ∧
  (∀ v e,
     value_eq_scalar v (SInt 0) = false →
     lt_int v 0 = Raise e →
     analyze_data v = Raise e).
Proof. split; [apply select_guard_raises | apply analyze_data_raises]. Qed.

Lemma C2_guard_failure_propagates_witness :
  select ([mkCase (Literal (SInt 0)) None] ++
          mkCase (Capture "x") (Some (fun b => with_name b "x" (fun x => lt_int x 0))) ::
          [mkCase Wildcard None]) (str "abc") = Raise TypeError ∧
  analyze_data (str "abc") = Raise TypeError.
Proof.
  split.
  - apply (proj1 C2_guard_failure_propagates).
    + constructor; [| constructor]. by left.
    + exists {["x" := str "abc"]}. eexists. repeat split; reflexivity.
  - apply (proj2 C2_guard_failure_propagates); reflexivity.
Defined.

(** ** Sequence patterns *)

Section Match_items.
Variable m : Pattern → Value → MatchResult.

Lemma match_items_length ps vs b :
  match_items m ps vs = Some b → length vs = length ps.
Proof.
  revert vs b; induction ps as [| p ps IH]; intros [| v vs] b; simpl; try discriminate.
  - done.
  - destruct (m p v); [| discriminate].
    destruct (match_items m ps vs) as [b2 |] eqn:H2; [| discriminate].
    intros _. f_equal. by eapply IH.
Qed.

(** Matching a concatenation of patterns splits the items accordingly. *)
Lemma match_items_app ps qs vs ws :
  length vs = length ps →
  match_items m (ps ++ qs) (vs ++ ws) =
  match match_items m ps vs with
  | None => None
  | Some b1 =>
      match match_items m qs ws with
      | None => None
      | Some b2 => Some (merge b1 b2)
      end
  end.
Proof.
  revert vs; induction ps as [| p ps IH]; intros [| v vs] Hlen; try discriminate.
  - simpl. destruct (match_items m qs ws) as [b2 |]; [| done].
    unfold merge. by rewrite (right_id_L ∅ (∪)).
  - simpl in *. destruct (m p v) as [b0 |]; [| done].
    rewrite IH by lia.
    destruct (match_items m ps vs) as [b1 |]; [| done].
    destruct (match_items m qs ws) as [b2 |]; [| done].
    unfold merge. by rewrite (assoc_L (∪)).
Qed.
End Match_items.

(** A sequence pattern matches nothing but a sequence; a [str] in particular
    is not one. *)
Lemma match_sequence_only_sequences head rest tail v :
  (∀ items, v ≠ VSequence items) → match_pattern (PSequence head rest tail) v = NoMatch.
Proof. intros Hv. destruct v; simpl; try done. by destruct (Hv items). Qed.

(** Without a star name the element patterns are matched one to one. *)
Lemma match_fixed_sequence head tail items :
  match_pattern (PSequence head None tail) (VSequence items) =
  if bool_decide (length items = (length head + length tail)%nat)
  then match_items match_pattern (head ++ tail) items
  else NoMatch.
Proof.
  simpl. case_bool_decide as Hlen; [| done].
  assert (match_items match_pattern (head ++ tail) items =
          match_items match_pattern (head ++ tail)
            (take (length head) items ++ drop (length head) items)) as ->
    by (by rewrite take_drop).
  rewrite match_items_app by (rewrite length_take; lia).
  replace (length items - (length head + length tail))%nat with 0%nat by lia.
  rewrite Nat.add_0_r.
  destruct (match_items match_pattern head _); [| done].
  by destruct (match_items match_pattern tail _).
Qed.

(** C3. A sequence pattern without rest-capture matches a sequence only when
    its length is exactly the number of element patterns: the two-element
    pattern matches [[1, 2]], binding both elements, and fails on
    [[1, 2, 3]]. With a rest-capture the length must be at least the number of
    fixed element patterns. *)
Theorem C3_sequence_length :
  (∀ head tail items b,
     match_pattern (PSequence head None tail) (VSequence items) = Matched b →
     length items = (length head + length tail)%nat) ∧
  (∀ head r tail items b,
     match_pattern (PSequence head (Some r) tail) (VSequence items) = Matched b →
     (length head + length tail ≤ length items)%nat) ∧
  match_pattern (PSequence [Capture "a"; Capture "b"] None []) (VSequence [int 1; int 2])
    = Matched {["a" := int 1; "b" := int 2]} ∧
  match_pattern (PSequence [Capture "a"; Capture "b"] None [])
                (VSequence [int 1; int 2; int 3]) = NoMatch.
Proof.
  split; [| split; [| split; reflexivity]].
  - intros head tail items b. rewrite match_fixed_sequence.
    by case_bool_decide.
  - intros head r tail items b. simpl. by case_bool_decide.
Qed.

Lemma C3_sequence_length_witness :
  length [int 1; int 2] = (length [Capture "a"; Capture "b"] + length (@nil Pattern))%nat ∧
  (length [Capture "x"] + length (@nil Pattern) ≤ length [int 1; int 2; int 3])%nat.
Proof.
  split.
  - apply (proj1 C3_sequence_length _ _ _ {["a" := int 1; "b" := int 2]}). reflexivity.
  - apply (proj1 (proj2 C3_sequence_length) _ "rest" _ _
             {["x" := int 1; "rest" := VSequence [int 2; int 3]]}).
    reflexivity.
Defined.

(** Any sequence long enough for a head and a tail splits into a front as
    long as the head, a back as long as the tail, and what lies between. *)
Lemma split_front_middle_back {A} (n k : nat) (items : list A) :
  (n + k ≤ length items)%nat →
  ∃ front middle back,
    items = front ++ middle ++ back ∧ length front = n ∧ length back = k.
Proof.
  intros Hlen.
  exists (take n items), (take (length items - (n + k)) (drop n items)),
         (drop (n + (length items - (n + k))) items).
  split; [| split].
  - rewrite <- drop_drop, take_drop. by rewrite take_drop.
  - rewrite length_take. lia.
  - rewrite length_drop. lia.
Qed.

Lemma match_star_sequence head r tail front middle back :
  length front = length head → length back = length tail →
  match_pattern (PSequence head (Some r) tail) (VSequence (front ++ middle ++ back)) =
  match match_items match_pattern head front with
  | None => NoMatch
  | Some b1 =>
      match match_items match_pattern tail back with
      | None => NoMatch
      | Some b3 => Matched (merge (<[r := VSequence middle]> b1) b3)
      end
  end.
Proof.
  intros Hf Hb. simpl.
  rewrite !length_app. rewrite bool_decide_true by lia.
  rewrite <- Hf. rewrite take_app_length.
  destruct (match_items match_pattern head front) as [b1 |]; [| done].
  replace (length front + (length middle + length back) - (length front + length tail))%nat
    with (length middle) by lia.
  rewrite drop_app_length, take_app_length.
  rewrite app_assoc, <- length_app, drop_app_length.
  done.
Qed.

Lemma front_between_back {A} (n k : nat) (items : list A) :
  (n + k ≤ length items)%nat →
  items = take n items ++ between n (length items - k) items ++ drop (length items - k) items.
Proof.
  intros Hlen. unfold between.
  rewrite <- (take_drop (length items - k) items) at 1.
  rewrite <- (take_drop n (take (length items - k) items)) at 1.
  rewrite take_take. rewrite Nat.min_l by lia. by rewrite <- app_assoc.
Qed.

(** C4. For a sequence pattern with head patterns, a rest name and tail
    patterns: a sequence shorter than head plus tail is no match; on a longer
    one the head patterns are matched from the start, the tail patterns from
    the end, and the rest name is bound to the items strictly between (the
    rest name being distinct from the names of the tail, as every well-formed
    pattern has it). The middle may be empty: [[1, 2]] binds first=1,
    middle=[], last=2, and [[1]] is no match. *)
Theorem C4_sequence_rest :
  (∀ head r tail items,
     (length items < length head + length tail)%nat →
     match_pattern (PSequence head (Some r) tail) (VSequence items) = NoMatch) ∧
  (∀ head r tail items,
     (length head + length tail ≤ length items)%nat →
     let middle := between (length head) (length items - length tail) items in
     match_pattern (PSequence head (Some r) tail) (VSequence items) =
       match match_items match_pattern head (take (length head) items) with
       | None => NoMatch
       | Some b1 =>
           match match_items match_pattern tail
                   (drop (length items - length tail) items) with
           | None => NoMatch
           | Some b3 => Matched (merge (<[r := VSequence middle]> b1) b3)
           end
       end) ∧
  (∀ head r tail items b,
     (length head + length tail ≤ length items)%nat →
     r ∉ ⋃ (bound_names <$> tail) →
     match_pattern (PSequence head (Some r) tail) (VSequence items) = Matched b →
     b !! r = Some (VSequence (between (length head) (length items - length tail) items))) ∧
  match_pattern (PSequence [Capture "first"] (Some "middle") [Capture "last"])
                (VSequence [int 1; int 2; int 3; int 4])
    = Matched {["first" := int 1; "middle" := VSequence [int 2; int 3]; "last" := int 4]} ∧
  match_pattern (PSequence [Capture "first"] (Some "middle") [Capture "last"])
                (VSequence [int 1; int 2])
    = Matched {["first" := int 1; "middle" := VSequence []; "last" := int 2]} ∧
  match_pattern (PSequence [Capture "first"] (Some "middle") [Capture "last"])
                (VSequence [int 1]) = NoMatch.
Proof.
  assert (Hlong : ∀ head r tail items,
     (length head + length tail ≤ length items)%nat →
     match_pattern (PSequence head (Some r) tail) (VSequence items) =
       match match_items match_pattern head (take (length head) items) with
       | None => NoMatch
       | Some b1 =>
           match match_items match_pattern tail
                   (drop (length items - length tail) items) with
           | None => NoMatch
           | Some b3 =>
               Matched (merge (<[r := VSequence (between (length head)
                                  (length items - length tail) items)]> b1) b3)
           end
       end).
  { intros head r tail items Hlen.
    rewrite (front_between_back (length head) (length tail) items Hlen) at 1.
    apply match_star_sequence.
    - rewrite length_take. lia.
    - rewrite length_drop. lia. }
  split; [| split; [| split; [| split; [| split]]]]; try reflexivity.
  - intros head r tail items Hshort. simpl.
    by rewrite bool_decide_false by lia.
  - intros head r tail items Hlen middle. by apply Hlong.
  - intros head r tail items b Hlen Hfresh. rewrite (Hlong _ _ _ _ Hlen).
    destruct (match_items match_pattern head _) as [b1 |]; [| discriminate].
    destruct (match_items match_pattern tail _) as [b3 |] eqn:H3; [| discriminate].
    intros [= <-]. unfold merge.
    apply (match_items_dom _ tail) in H3.
    + rewrite lookup_union_r; [apply lookup_insert_eq |].
      apply not_elem_of_dom. set_solver.
    + apply Forall_forall. intros p _. apply match_pattern_dom.
Qed.

Lemma C4_sequence_rest_witness :
  match_pattern (PSequence [Capture "first"] (Some "middle") [Capture "last"])
                (VSequence [int 1]) = NoMatch ∧
  match_pattern (PSequence [Capture "first"] (Some "middle") [Capture "last"])
                (VSequence [int 1; int 2]) =
    Matched (merge (<["middle" := VSequence []]> {["first" := int 1]})
                   {["last" := int 2]}) ∧
  ({["first" := int 1; "middle" := VSequence []; "last" := int 2]} : Bindings) !! "middle"
    = Some (VSequence (between 1 1 [int 1; int 2])).
Proof.
  split; [| split].
  - apply (proj1 C4_sequence_rest). simpl. lia.
  - apply (proj1 (proj2 C4_sequence_rest) [Capture "first"] "middle"
             [Capture "last"] [int 1; int 2]).
    simpl. lia.
  - apply (proj1 (proj2 (proj2 C4_sequence_rest)) [Capture "first"] "middle"
             [Capture "last"] [int 1; int 2]).
    + simpl. lia.
    + apply (bool_decide_unpack _). by vm_compute.
    + reflexivity.
Defined.

(** ** Mapping and record patterns *)

Lemma lookup_key_extra {A} k k' (v : A) es1 es2 :
  scalar_eq k' k = false →
  lookup_key k (es1 ++ (k', v) :: es2) = lookup_key k (es1 ++ es2).
Proof.
  intros Hk. induction es1 as [| [k1 v1] es1 IH]; simpl.
  - by rewrite Hk.
  - by rewrite IH.
Qed.

Lemma lookup_field_extra {A} f f' (v : A) fs1 fs2 :
  f' ≠ f →
  lookup_field f (fs1 ++ (f', v) :: fs2) = lookup_field f (fs1 ++ fs2).
Proof.
  intros Hf. induction fs1 as [| [f1 v1] fs1 IH]; simpl.
  - by rewrite bool_decide_false.
  - by rewrite IH.
Qed.

Section Keyed_matches.
Variable m : Pattern → Value → MatchResult.

Lemma match_keys_is_Some req es :
  is_Some (match_keys m req es) ↔
  Forall (fun kp => ∃ x, lookup_key kp.1 es = Some x ∧ is_Some (m kp.2 x)) req.
Proof.
  induction req as [| [k p] req IH]; simpl.
  - split; [constructor | eauto].
  - rewrite Forall_cons, <- IH. simpl.
    unfold is_Some.
    destruct (lookup_key k es) as [x |]; [| naive_solver].
    destruct (m p x) as [b1 |] eqn:Hm; [| naive_solver].
    destruct (match_keys m req es) as [b2 |]; naive_solver.
Qed.

(** Only the entries under the required keys are looked at. *)
Lemma match_keys_ext req es es' :
  (∀ k, k ∈ req.*1 → lookup_key k es = lookup_key k es') →
  match_keys m req es = match_keys m req es'.
Proof.
  induction req as [| [k p] req IH]; intros Hext; simpl; [done |].
  rewrite <- (Hext k) by (simpl; left).
  rewrite IH; [done |]. intros k' Hk'. apply Hext. simpl. by right.
Qed.

Lemma match_fields_is_Some fps fs :
  is_Some (match_fields m fps fs) ↔
  Forall (fun fp => ∃ x, lookup_field fp.1 fs = Some x ∧ is_Some (m fp.2 x)) fps.
Proof.
  induction fps as [| [f p] fps IH]; simpl.
  - split; [constructor | eauto].
  - rewrite Forall_cons, <- IH. simpl.
    unfold is_Some.
    destruct (lookup_field f fs) as [x |]; [| naive_solver].
    destruct (m p x) as [b1 |] eqn:Hm; [| naive_solver].
    destruct (match_fields m fps fs) as [b2 |]; naive_solver.
Qed.

Lemma match_fields_ext fps fs fs' :
  (∀ f, f ∈ fps.*1 → lookup_field f fs = lookup_field f fs') →
  match_fields m fps fs = match_fields m fps fs'.
Proof.
  induction fps as [| [f p] fps IH]; intros Hext; simpl; [done |].
  rewrite <- (Hext f) by (simpl; left).
  rewrite IH; [done |]. intros f' Hf'. apply Hext. simpl. by right.
Qed.
End Keyed_matches.

(** The left-over entries are those of the subject, in its order, whose key
    equals no required key. *)
Lemma elem_of_remaining {A} keys (es : list (Scalar * A)) k v :
  (k, v) ∈ remaining keys es ↔
  (k, v) ∈ es ∧ ∀ k', k' ∈ keys → scalar_eq k k' = false.
Proof.
  unfold remaining. rewrite !list_elem_of_In, filter_In. simpl.
  rewrite negb_true_iff. split; intros [Hin Hk]; split; try done.
  - intros k' Hk'. destruct (scalar_eq k k') eqn:Heq; [| done].
    assert (existsb (scalar_eq k) keys = true) as Hex; [| congruence].
    apply existsb_exists. exists k'. by rewrite <- list_elem_of_In.
  - destruct (existsb (scalar_eq k) keys) eqn:Hex; [| done].
    apply existsb_exists in Hex as (k' & Hk' & Heq).
    rewrite <- list_elem_of_In in Hk'. rewrite (Hk _ Hk') in Heq. discriminate.
Qed.

(** C5. A mapping pattern matches a mapping exactly when every required key
    is present with its sub-pattern satisfied. Without a rest-capture, an
    entry under any other key changes nothing. With a rest-capture, the name
    is bound to the mapping of all entries whose key is not required, even
    when none is left. *)
Theorem C5_mapping_required_and_rest :
  (∀ req rest es,
     is_Some (match_pattern (PMapping req rest) (VMapping es)) ↔
     Forall (fun kp => ∃ x, lookup_key kp.1 es = Some x ∧
                            is_Some (match_pattern kp.2 x)) req) ∧
  (∀ req es1 k v es2,
     (∀ k', k' ∈ req.*1 → scalar_eq k k' = false) →
     match_pattern (PMapping req None) (VMapping (es1 ++ (k, v) :: es2)) =
     match_pattern (PMapping req None) (VMapping (es1 ++ es2))) ∧
  (∀ req r es b,
     match_pattern (PMapping req (Some r)) (VMapping es) = Matched b →
     b !! r = Some (VMapping (remaining (req.*1) es))) ∧
  (∀ keys (es : list (Scalar * Value)) k v,
     (k, v) ∈ remaining keys es ↔
     (k, v) ∈ es ∧ ∀ k', k' ∈ keys → scalar_eq k k' = false) ∧
  match_pattern (PMapping [(key "type", str_lit "user")] None)
                (VMapping [(key "type", str "user"); (key "name", str "Alice")])
    = Matched ∅ ∧
  match_pattern (PMapping [(key "type", str_lit "user")] None)
                (VMapping [(key "type", str "admin")]) = NoMatch ∧
  match_pattern (PMapping [(key "required", Capture "v")] (Some "rest"))
                (VMapping [(key "required", str "x"); (key "a", int 1); (key "b", int 2)])
    = Matched {["v" := str "x";
                "rest" := VMapping [(key "a", int 1); (key "b", int 2)]]} ∧
  match_pattern (PMapping [(key "required", Capture "v")] (Some "rest"))
                (VMapping [(key "required", str "x")])
    = Matched {["v" := str "x"; "rest" := VMapping []]}.
Proof.
  split; [| split; [| split; [| split; [| repeat split]]]].
  - intros req rest es. rewrite <- match_keys_is_Some. simpl.
    destruct (match_keys match_pattern req es); split; intros []; eauto.
    all: discriminate.
  - intros req es1 k v es2 Hextra. simpl.
    rewrite (match_keys_ext _ req _ (es1 ++ es2)); [done |].
    intros k' Hk'. apply lookup_key_extra. by apply Hextra.
  - intros req r es b. simpl.
    destruct (match_keys match_pattern req es) as [b1 |]; [| discriminate].
    intros [= <-]. apply lookup_insert_eq.
  - apply elem_of_remaining.
Qed.

Lemma C5_mapping_required_and_rest_witness :
  match_pattern (PMapping [(key "type", str_lit "user")] None)
                (VMapping ([(key "type", str "user")] ++ (key "name", str "Alice") :: [])) =
  match_pattern (PMapping [(key "type", str_lit "user")] None)
                (VMapping ([(key "type", str "user")] ++ [])) ∧
  ({["v" := str "x"; "rest" := VMapping []]} : Bindings) !! "rest" =
  Some (VMapping (remaining ([(key "required", Capture "v")].*1)
                            [(key "required", str "x")])).
Proof.
  split.
  - apply (proj1 (proj2 C5_mapping_required_and_rest)).
    intros k' Hk'. apply list_elem_of_In in Hk'. simpl in Hk'.
    destruct Hk' as [<- | []]. reflexivity.
  - apply (proj1 (proj2 (proj2 C5_mapping_required_and_rest))). reflexivity.
Defined.

(** The instance test of a class pattern, as the code makes it. *)
Lemma instance_of_spec c tag :
  instance_of c tag = true ↔ class_name c = tag ∨ tag ∈ class_bases c.
Proof.
  unfold instance_of. rewrite bool_decide_eq_true, elem_of_cons. naive_solver.
Qed.

Lemma match_record_instance tag fps v :
  is_Some (match_pattern (PRecord tag fps) v) ↔
  ∃ c fields, v = VRecord c fields ∧
    (class_name c = tag ∨ tag ∈ class_bases c) ∧
    Forall (fun fp => ∃ x, lookup_field fp.1 fields = Some x ∧
                           is_Some (match_pattern fp.2 x)) fps.
Proof.
  split.
  - destruct v as [| | | c fs]; simpl; try by intros [].
    destruct (instance_of c tag) eqn:Hc; [| by intros []].
    intros H. exists c, fs. split; [done |]. split; [by apply instance_of_spec |].
    by apply match_fields_is_Some.
  - intros (c & fs & -> & Hc & H). simpl.
    apply instance_of_spec in Hc. rewrite Hc. by apply match_fields_is_Some.
Qed.

(** C8, as the code has it. A class pattern with keyword sub-patterns matches
    exactly the instances of the named class, that is of the class itself or
    of a class that inherits from it, in which every named attribute is
    present and satisfies its sub-pattern; an attribute the pattern does not
    name changes nothing. An instance of another class, a missing attribute
    or a failing sub-pattern is no match, as with [Point(x=0, y=0)] and
    [Builder(value=v)]. What the specification asks for, the same tag, is
    enough for a match but not needed: an instance of a subclass of [Point]
    matches [Point(x=0, y=0)] too. *)
Theorem C8_record_pattern :
  (∀ tag fps v,
     is_Some (match_pattern (PRecord tag fps) v) ↔
     ∃ c fields, v = VRecord c fields ∧
       (class_name c = tag ∨ tag ∈ class_bases c) ∧
       Forall (fun fp => ∃ x, lookup_field fp.1 fields = Some x ∧
                              is_Some (match_pattern fp.2 x)) fps) ∧
  (∀ tag fps v,
     spec_record_matches tag fps v → is_Some (match_pattern (PRecord tag fps) v)) ∧
  (∀ tag fps c fs1 f x fs2,
     f ∉ fps.*1 →
     match_pattern (PRecord tag fps) (VRecord c (fs1 ++ (f, x) :: fs2)) =
     match_pattern (PRecord tag fps) (VRecord c (fs1 ++ fs2))) ∧
  match_pattern (PRecord "Point" [("x", Literal (SInt 0)); ("y", Literal (SInt 0))])
                (Point (int 0) (int 0)) = Matched ∅ ∧
  match_pattern (PRecord "Point" [("x", Literal (SInt 0)); ("y", Literal (SInt 0))])
                (Point3D (int 0) (int 0)) = Matched ∅ ∧
  match_pattern (PRecord "Point3D" [("x", Literal (SInt 0)); ("y", Literal (SInt 0))])
                (Point (int 0) (int 0)) = NoMatch ∧
  match_pattern (PRecord "Point" [("x", Literal (SInt 0)); ("y", Literal (SInt 0))])
                (Point (int 0) (int 1)) = NoMatch ∧
  match_pattern (PRecord "Point" [("x", Literal (SInt 0)); ("y", Literal (SInt 0))])
                (VRecord (mkClass "Point" []) [("x", int 0)]) = NoMatch ∧
  match_pattern (PRecord "Point" [("x", Literal (SInt 0)); ("y", Literal (SInt 0))])
                (VRecord (mkClass "Builder" []) [("x", int 0); ("y", int 0)]) = NoMatch ∧
  match_pattern (PRecord "Builder" [("value", Capture "v")])
                (VRecord (mkClass "Builder" []) [("value", int 7); ("note", str "extra")])
    = Matched {["v" := int 7]} ∧
  complex_pattern_matching (Point3D (int 0) (int 0)) = Ok (Fmt "Origin point" []).
Proof.
  split; [| split; [| split; [| repeat split]]].
  - apply match_record_instance.
  - intros tag fps v (c & fields & -> & Hname & Hfps).
    apply match_record_instance. exists c, fields. auto.
  - intros tag fps c fs1 f x fs2 Hf. simpl. destruct (instance_of c tag); [| done].
    apply match_fields_ext. intros f' Hf'. apply lookup_field_extra.
    intros ->. done.
Qed.

Lemma C8_record_pattern_witness :
  match_pattern (PRecord "Builder" [("value", Capture "v")])
                (VRecord (mkClass "Builder" [])
                         ([("value", int 7)] ++ ("note", str "extra") :: [])) =
  match_pattern (PRecord "Builder" [("value", Capture "v")])
                (VRecord (mkClass "Builder" []) ([("value", int 7)] ++ [])).
Proof.
  apply (proj1 (proj2 (proj2 C8_record_pattern))).
  apply (bool_decide_unpack _). by vm_compute.
Defined.

(** The claim as stated fails on an instance of [Point3D], a subclass of
    [Point], and the pattern [Point(x=0, y=0)]: the type tag of the subject
    is not the tag of the pattern, yet the pattern matches. *)
Lemma C8_counterexample :
  ¬ (is_Some (match_pattern
                (PRecord "Point" [("x", Literal (SInt 0)); ("y", Literal (SInt 0))])
                (Point3D (int 0) (int 0))) ↔
     spec_record_matches "Point" [("x", Literal (SInt 0)); ("y", Literal (SInt 0))]
                         (Point3D (int 0) (int 0))).
Proof.
  intros [H _]. destruct H as (c & fields & Heq & Hname & _); [by eexists |].
  injection Heq as <- _. discriminate.
Qed.

(** ** Literal patterns *)

Lemma same_magnitude_int a b : same_magnitude (NFin a 0) (NFin b 0) = bool_decide (a = b).
Proof.
  unfold same_magnitude; simpl. rewrite !Z.mul_1_r.
  destruct (Z.compare_spec a b); case_bool_decide; try done; lia.
Qed.

(** A literal pattern binds nothing. *)
Lemma match_literal_bindings l v b : match_pattern (Literal l) v = Matched b → b = ∅.
Proof. simpl. destruct l; case_match; congruence. Qed.

(** C6, as the code has it. A literal pattern matches exactly the values
    equal to the literal in the specification's sense and, beyond the
    int/float exception, a [bool] whose magnitude equals that of an [int] or
    [float] literal: [False] matches the literal 0, as does 0.0, and
    [analyze_data(False)] is ["Zero"]. A [str], [None], a sequence, a mapping
    or a record never matches a number literal. *)
Theorem C6_literal_python_equality :
  (∀ l v,
     match_pattern (Literal l) v =
     if spec_literal_equal v l || bool_equals_number v l then Matched ∅ else NoMatch) ∧
  match_pattern (Literal (SInt 0)) (VScalar (SFloat (S754_zero false))) = Matched ∅ ∧
  match_pattern (Literal (SInt 0)) (VScalar (SFloat (S754_zero true))) = Matched ∅ ∧
  match_pattern (Literal (SInt 0)) (VScalar (SBool false)) = Matched ∅ ∧
  match_pattern (Literal (SInt 1)) (VScalar (SBool true)) = Matched ∅ ∧
  match_pattern (Literal (SBool true)) (int 1) = NoMatch ∧
  match_pattern (Literal (SInt 0)) (str "0") = NoMatch ∧
  match_pattern (Literal (SInt 0)) (VScalar SNone) = NoMatch ∧
  analyze_data (VScalar (SBool false)) = Ok (Fmt "Zero" []) ∧
  analyze_data (VScalar (SFloat (S754_zero false))) = Ok (Fmt "Zero" []).
Proof.
  split; [| repeat split].
  intros l v. destruct v as [s | | |].
  - destruct l, s;
      try (simpl; unfold scalar_eq; simpl; rewrite ?orb_false_r; reflexivity).
    change (match_pattern (Literal (SInt n)) (VScalar (SInt n0)))
      with (if same_magnitude (NFin n0 0) (NFin n 0) then Matched ∅ else NoMatch).
    rewrite same_magnitude_int. simpl. by rewrite orb_false_r.
  - by destruct l.
  - by destruct l.
  - by destruct l.
Qed.

(** The claim as stated fails on the subject [False] and the literal 0: the
    kinds differ and neither is a [float], yet the pattern matches. *)
Lemma C6_counterexample :
  ¬ (match_pattern (Literal (SInt 0)) (VScalar (SBool false)) = Matched ∅ ↔
     spec_literal_equal (VScalar (SBool false)) (SInt 0) = true).
Proof. intros [H _]. by specialize (H eq_refl). Qed.

(** ** Typed captures *)

(** The kind test of a typed capture, as the code makes it. *)
Lemma isinstance_spec v k :
  isinstance v k = true ↔ kind_of v = Some k ∨ (kind_of v = Some KBool ∧ k = KInt).
Proof.
  unfold isinstance. destruct (kind_of v) as [k' |].
  - rewrite orb_true_iff, andb_true_iff, !bool_decide_eq_true. naive_solver.
  - naive_solver.
Qed.

(** [process_value] on an [int]: the case [int()] is taken, and its f-string
    writes the number out, which fails beyond the digit limit. *)
Lemma process_value_int z :
  process_value (int z) =
  if bool_decide (Z.abs z < 10 ^ int_max_str_digits)
  then Ok (Fmt "Integer: {value}" [int z])
  else Raise ValueError.
Proof.
  unfold process_value, run_match, select, process_value_clauses.
  cbn [fmap list_fmap clause_case case_ select_from pattern guard match_pattern
       isinstance kind_of int].
  cbn [bool_decide decide_rel orb andb].
  change (bool_decide (KInt = KStr)) with false.
  change (bool_decide (KInt = KBool)) with false.
  change (bool_decide (KInt = KInt)) with true.
  cbn [orb andb lookup list_lookup clause_body bind_rest].
  unfold fstring, interpolate, with_name, field_name, format_field.
  cbn [clause_body case_].
  assert ((merge {["value" := int z]} ∅ : Bindings) !! "value" = Some (int z)) as ->
    by reflexivity.
  unfold int. cbn [written written_scalar]. by case_bool_decide.
Qed.

(** C7, as the code has it. A typed capture binds the name to the value
    exactly when the value is an instance of the expected kind: its runtime
    kind is that kind, or it is a [bool] and the expected kind is [int]
    ([bool] is a subclass of [int]). Otherwise there is no match, and there
    is no other coercion: an [int] does not satisfy [float], nor a [float]
    [int]. So [process_value] answers "Integer" for [True], as it does for
    an [int] that its f-string can write out; an [int] of more than 4300
    digits is matched by [int()] all the same and makes the f-string raise
    [ValueError]. *)
Theorem C7_typed_capture_isinstance :
  (∀ k n v,
     match_pattern (TypedCapture k (Some n)) v = Matched {[n := v]} ↔
     kind_of v = Some k ∨ (kind_of v = Some KBool ∧ k = KInt)) ∧
  (∀ k n v,
     match_pattern (TypedCapture k (Some n)) v = NoMatch ↔
     ¬ (kind_of v = Some k ∨ (kind_of v = Some KBool ∧ k = KInt))) ∧
  (∀ z n, match_pattern (TypedCapture KFloat (Some n)) (int z) = NoMatch) ∧
  (∀ f n, match_pattern (TypedCapture KInt (Some n)) (VScalar (SFloat f)) = NoMatch) ∧
  (∀ b n, match_pattern (TypedCapture KInt (Some n)) (VScalar (SBool b))
          = Matched {[n := VScalar (SBool b)]}) ∧
  (∀ s, process_value (str s) = Ok (Fmt "String: {value}" [str s])) ∧
  (∀ z, process_value (int z) =
        if bool_decide (Z.abs z < 10 ^ int_max_str_digits)
        then Ok (Fmt "Integer: {value}" [int z])
        else Raise ValueError) ∧
  (∀ b, process_value (VScalar (SBool b)) = Ok (Fmt "Integer: {value}" [VScalar (SBool b)])) ∧
  (∀ f, process_value (VScalar (SFloat f))
        = Ok (Fmt "Float: {value:.2f}" [VScalar (SFloat f)])) ∧
  process_value (VScalar SNone) = Ok (Fmt "Unknown type" []).
Proof.
  split; [| split; [| repeat split]]; try apply process_value_int.
  - intros k n v. rewrite <- isinstance_spec. simpl. rewrite insert_empty.
    destruct (isinstance v k); split; congruence.
  - intros k n v. rewrite <- isinstance_spec. simpl.
    destruct (isinstance v k); split; congruence.
Qed.

(** The claim as stated fails on the subject [True] and the kind [int]: the
    runtime kind of [True] is [bool], yet the typed capture matches. *)
Lemma C7_counterexample :
  ¬ (match_pattern (TypedCapture KInt (Some "n")) (VScalar (SBool true))
       = Matched {["n" := VScalar (SBool true)]} ↔
     kind_of (VScalar (SBool true)) = Some KInt).
Proof. intros [H _]. by specialize (H eq_refl). Qed.

(** ** Reading a [match] statement clause by clause *)

Lemma select_from_run_clauses param (all clauses : list Clause) i v :
  (∀ j cl, clauses !! j = Some cl → all !! (i + j)%nat = Some cl) →
  match select_from i (clause_case <$> clauses) v with
  | Raise e => Raise e
  | Ok Exhausted => Ok ReturnNone
  | Ok (Selected k b) =>
      match all !! k with
      | Some cl => clause_body cl (merge {[param := v]} b)
      | None => Ok ReturnNone
      end
  end = run_clauses param clauses v.
Proof.
  revert i. induction clauses as [| cl clauses IH]; intros i Hall; [done |].
  assert (all !! i = Some cl) as Hi.
  { rewrite <- (Nat.add_0_r i). by apply Hall. }
  assert (∀ j cl', clauses !! j = Some cl' → all !! (S i + j)%nat = Some cl') as Hrest.
  { intros j cl' Hj. replace (S i + j)%nat with (i + S j)%nat by lia. by apply Hall. }
  simpl.
  destruct (match_pattern (pattern (clause_case cl)) v) as [b |]; [| by apply IH].
  destruct (guard (clause_case cl)) as [g |]; [| by rewrite Hi].
  destruct (g b) as [[|] | e]; [by rewrite Hi | by apply IH | done].
Qed.

Lemma run_match_run_clauses param clauses v :
  run_match param clauses v = run_clauses param clauses v.
Proof.
  unfold run_match, select.
  rewrite <- (select_from_run_clauses param clauses clauses 0 v); [| done].
  by destruct (select_from 0 (clause_case <$> clauses) v) as [[] |].
Qed.

Lemma num_compare_int a b : num_compare (NFin a 0) (NFin b 0) = Some (a ?= b)%Z.
Proof. unfold num_compare. rewrite Z.min_id. simpl. by rewrite !Z.mul_1_r. Qed.

Lemma compare_int_int_value v z n :
  int_value v = Some z → compare_int v n = Ok (Some (z ?= n)%Z).
Proof.
  destruct v as [[a | | t | |] | | |]; try discriminate; intros [= <-];
    unfold compare_int; cbn [num_of]; cbv iota beta; by rewrite num_compare_int.
Qed.

Lemma isinstance_int_value v :
  isinstance v KInt = true ↔ is_Some (int_value v).
Proof.
  destruct v as [[a | f | t | s |] | | |]; simpl; split; try done;
    try (by intros []); eauto.
Qed.

(** ** [analyze_data] on subjects that cannot be ordered against 0 *)

Lemma literal_zero_number s x :
  num_of s = Some x →
  match_pattern (Literal (SInt 0)) (VScalar s) =
  if same_magnitude x (NFin 0 0) then Matched ∅ else NoMatch.
Proof.
  intros Hx.
  change (match_pattern (Literal (SInt 0)) (VScalar s))
    with (if scalar_eq s (SInt 0) then Matched ∅ else NoMatch).
  unfold scalar_eq, same_magnitude. rewrite Hx. reflexivity.
Qed.

Lemma lt_int_number s x :
  num_of s = Some x →
  lt_int (VScalar s) 0 =
  Ok (match num_compare x (NFin 0 0) with Some Lt => true | _ => false end).
Proof.
  intros Hx. unfold lt_int, order_int, compare_int. rewrite Hx.
  by destruct (num_compare x (NFin 0 0)) as [[| |] |].
Qed.

(** What [analyze_data] answers for a number, by its sign; a negative [int]
    is written out by the f-string of the second case. *)
Lemma analyze_data_number s x :
  num_of s = Some x →
  analyze_data (VScalar s) =
  match num_compare x (NFin 0 0) with
  | Some Eq => Ok (Fmt "Zero" [])
  | Some Lt =>
      match s with
      | SInt n =>
          if bool_decide (Z.abs n < 10 ^ int_max_str_digits)
          then Ok (Fmt "Negative: {x}" [VScalar s])
          else Raise ValueError
      | _ => Ok (Fmt "Negative: {x}" [VScalar s])
      end
  | _ => Ok (Fmt "Unknown data type: {type(data)}" [VScalar s])
  end.
Proof.
  intros Hx. unfold analyze_data. rewrite run_match_run_clauses.
  unfold analyze_data_clauses.
  cbn [run_clauses clause_case case_ case_if pattern guard clause_body].
  rewrite (literal_zero_number s x Hx). unfold same_magnitude.
  cbn [match_pattern]. unfold with_name. rewrite lookup_singleton_eq.
  rewrite (lt_int_number s x Hx).
  destruct (num_compare x (NFin 0 0)) as [[| |] |]; [done | | |];
    destruct s as [n | f | t | |]; try discriminate; try reflexivity.
  unfold fstring, interpolate, with_name, field_name, format_field.
  assert ((merge {["data" := VScalar (SInt n)]} {["x" := VScalar (SInt n)]} : Bindings)
            !! "x" = Some (VScalar (SInt n))) as -> by reflexivity.
  cbn [written written_scalar]. by case_bool_decide.
Qed.

(** A negative [int] compares below 0. *)
Lemma num_compare_negative n : (n < 0)%Z → num_compare (NFin n 0) (NFin 0 0) = Some Lt.
Proof. intros Hn. rewrite num_compare_int. f_equal. by apply Z.compare_lt_iff. Qed.


Lemma compare_int_number v n :
  is_number v ↔ ∃ c, compare_int v n = Ok c.
Proof.
  unfold is_number, compare_int. split.
  - intros (s & -> & [x ->]). eauto.
  - intros [c Hc]. destruct v as [s | | |]; try discriminate.
    exists s. split; [done |]. by destruct (num_of s).
Qed.

(** Only the literal 0, the guarded capture and the wildcard are ever
    selected by [analyze_data]. *)
Lemma analyze_data_selected v i b :
  select (clause_case <$> analyze_data_clauses) v = Ok (Selected i b) →
  i = 0%nat ∨ i = 1%nat ∨ i = 12%nat.
Proof.
  destruct v as [s | | |]; try discriminate.
  unfold select.
  cbn [analyze_data_clauses fmap list_fmap clause_case case_ case_if].
  cbn [select_from pattern guard].
  destruct (match_pattern (Literal (SInt 0)) (VScalar s)); [intros [= <- <-]; auto |].
  cbn [match_pattern]. unfold with_name. rewrite lookup_singleton_eq.
  destruct (lt_int (VScalar s) 0) as [[|] | e] eqn:Hlt; try discriminate.
  { intros [= <- <-]; auto. }
  destruct s; try discriminate; vm_compute; intros [= <- <-]; auto.
Qed.

(** [analyze_data] returns normally exactly on the numbers other than the
    negative [int]s that the f-string of the second case cannot write out. *)
Lemma analyze_data_returns v :
  (∃ r, analyze_data v = Ok r) ↔
  is_number v ∧ ∀ n, v = int n → (- 10 ^ int_max_str_digits < n)%Z.
Proof.
  split.
  - intros [r Hr]. destruct v as [s | | |]; try discriminate.
    assert (is_Some (num_of s)) as [x Hx] by (by destruct s).
    split; [by exists s |].
    intros n [= ->]. destruct (decide (- 10 ^ int_max_str_digits < n)%Z) as [| Hn]; [done |].
    assert (0 < 10 ^ int_max_str_digits)%Z as Hpos by (by apply Z.pow_pos_nonneg).
    rewrite (analyze_data_number (SInt n) (NFin n 0) eq_refl) in Hr.
    rewrite num_compare_negative in Hr by lia.
    rewrite bool_decide_false in Hr by lia. discriminate.
  - intros [(s & -> & [x Hx]) Hn]. rewrite (analyze_data_number s x Hx).
    destruct (num_compare x (NFin 0 0)) as [[| |] |] eqn:Hc; eauto.
    destruct s as [n | | | |]; eauto.
    injection Hx as <-. rewrite num_compare_int in Hc. injection Hc as Hc.
    assert (n < 0)%Z as Hneg by (by apply Z.compare_lt_iff).
    specialize (Hn n eq_refl). rewrite bool_decide_true by lia. eauto.
Qed.

(** C9. A subject of [analyze_data] that is not equal to 0 and cannot be
    ordered against an [int] makes the call raise, from the guard [x < 0] of
    the second case: so it is for every string, sequence, mapping and record
    (and for [None]). The cases after the second one, up to the wildcard, are
    therefore never selected, and [analyze_data] returns normally only on
    numbers, booleans included: on all of them but the negative [int]s of
    more than 4300 digits, which the f-string of the second case cannot
    write out ([ValueError]). *)
Theorem C9_analyze_data_guard_error :
  (∀ v,
     value_eq_scalar v (SInt 0) = false →
     compare_int v 0 = Raise TypeError →
     analyze_data v = Raise TypeError ∧
     ∃ c0 c1, (clause_case <$> analyze_data_clauses) !! 0%nat = Some c0 ∧
              (clause_case <$> analyze_data_clauses) !! 1%nat = Some c1 ∧
              rejects c0 v ∧ guard_raises c1 v TypeError) ∧
  (∀ s, analyze_data (str s) = Raise TypeError) ∧
  (∀ items, analyze_data (VSequence items) = Raise TypeError) ∧
  (∀ entries, analyze_data (VMapping entries) = Raise TypeError) ∧
  (∀ c fields, analyze_data (VRecord c fields) = Raise TypeError) ∧
  analyze_data (VScalar SNone) = Raise TypeError ∧
  (∀ v i b,
     select (clause_case <$> analyze_data_clauses) v = Ok (Selected i b) →
     i = 0%nat ∨ i = 1%nat ∨ i = 12%nat) ∧
  (∀ v, (∃ r, analyze_data v = Ok r) → is_number v) ∧
  (∀ v, (∃ r, analyze_data v = Ok r) ↔
        is_number v ∧ ∀ n, v = int n → (- 10 ^ int_max_str_digits < n)%Z) ∧
  (∀ n, (n ≤ - 10 ^ int_max_str_digits)%Z → analyze_data (int n) = Raise ValueError).
Proof.
  split; [| split; [| split; [| split; [| split; [| split; [| split; [| split; [| split]]]]]]]];
    try reflexivity.
  - intros v Hne Hcmp.
    assert (lt_int v 0 = Raise TypeError) as Hlt
      by (unfold lt_int, order_int; by rewrite Hcmp).
    split; [by apply analyze_data_raises |].
    eexists _, _. split; [reflexivity |]. split; [reflexivity |]. split.
    + left. simpl. by rewrite Hne.
    + exists {["x" := v]}. eexists. split; [reflexivity |]. split; [reflexivity |].
      unfold with_name. by rewrite lookup_singleton_eq.
  - apply analyze_data_selected.
  - intros v Hv. by apply analyze_data_returns in Hv as [Hv _].
  - apply analyze_data_returns.
  - intros n Hn.
    assert (0 < 10 ^ int_max_str_digits)%Z as Hpos by (by apply Z.pow_pos_nonneg).
    unfold int. rewrite (analyze_data_number (SInt n) (NFin n 0) eq_refl).
    rewrite num_compare_negative by lia. by rewrite bool_decide_false by lia.
Qed.

Lemma C9_analyze_data_guard_error_witness :
  analyze_data (str "start") = Raise TypeError ∧
  ∃ c0 c1, (clause_case <$> analyze_data_clauses) !! 0%nat = Some c0 ∧
           (clause_case <$> analyze_data_clauses) !! 1%nat = Some c1 ∧
           rejects c0 (str "start") ∧ guard_raises c1 (str "start") TypeError.
Proof. apply (proj1 C9_analyze_data_guard_error); reflexivity. Defined.

(** ** The store only grows *)

Lemma store_bind_rest_frame rest o b h b' h' :
  store_bind_rest rest o b h = (b', h') → h `prefix_of` h'.
Proof.
  destruct rest; simpl; intros [= <- <-]; [| done]. by apply prefix_app_r.
Qed.

Section Store_frame.
Variable m : Pattern → loc → Store → option Refs * Store.

Lemma store_match_items_frame ps :
  Forall (grows_only m) ps →
  ∀ ls h r h', store_match_items m ps ls h = (r, h') → h `prefix_of` h'.
Proof.
  induction 1 as [| p ps Hp _ IH]; intros [| l ls] h r h'; simpl;
    try (intros [= <- <-]; done).
  destruct (m p l h) as [[b1 |] h1] eqn:H1.
  - destruct (store_match_items m ps ls h1) as [[b2 |] h2] eqn:H2;
      intros [= <- <-]; (etrans; [by eapply Hp | by eapply IH]).
  - intros [= <- <-]. by eapply Hp.
Qed.

Lemma store_match_keys_frame req :
  Forall (fun kp => grows_only m kp.2) req →
  ∀ es h r h', store_match_keys m req es h = (r, h') → h `prefix_of` h'.
Proof.
  induction 1 as [| [k p] req Hp _ IH]; intros es h r h'; simpl;
    try (intros [= <- <-]; done).
  destruct (lookup_key k es) as [l |]; [| intros [= <- <-]; done].
  destruct (m p l h) as [[b1 |] h1] eqn:H1.
  - destruct (store_match_keys m req es h1) as [[b2 |] h2] eqn:H2;
      intros [= <- <-]; (etrans; [by eapply Hp | by eapply IH]).
  - intros [= <- <-]. by eapply Hp.
Qed.

Lemma store_match_fields_frame fps :
  Forall (fun fp => grows_only m fp.2) fps →
  ∀ attrs h r h', store_match_fields m fps attrs h = (r, h') → h `prefix_of` h'.
Proof.
  induction 1 as [| [f p] fps Hp _ IH]; intros attrs h r h'; simpl;
    try (intros [= <- <-]; done).
  destruct (lookup_field f attrs) as [l |]; [| intros [= <- <-]; done].
  destruct (m p l h) as [[b1 |] h1] eqn:H1.
  - destruct (store_match_fields m fps attrs h1) as [[b2 |] h2] eqn:H2;
      intros [= <- <-]; (etrans; [by eapply Hp | by eapply IH]).
  - intros [= <- <-]. by eapply Hp.
Qed.

Lemma store_match_any_frame alts :
  Forall (grows_only m) alts →
  ∀ l h r h', store_match_any m alts l h = (r, h') → h `prefix_of` h'.
Proof.
  induction 1 as [| p alts Hp _ IH]; intros l h r h'; simpl;
    try (intros [= <- <-]; done).
  destruct (m p l h) as [[b1 |] h1] eqn:H1.
  - intros [= <- <-]. by eapply Hp.
  - intros H2. etrans; [by eapply Hp | by eapply IH].
Qed.
End Store_frame.

(** Matching allocates at most: the store it leaves extends the store it
    was given. *)
Lemma store_match_frame p :
  ∀ l h r h', store_match p l h = (r, h') → h `prefix_of` h'.
Proof.
  induction p as [lit | | n | k n | head rest tail IHh IHt | req rest IH
                 | tag fps IH | alts IH | inner n IH] using Pattern_tree_ind;
    intros l h r h'; simpl.
  - destruct (h !! l); [destruct lit |]; by intros [= <- <-].
  - by intros [= <- <-].
  - by intros [= <- <-].
  - destruct (h !! l); by intros [= <- <-].
  - destruct (h !! l) as [[| items | |] |]; try by intros [= <- <-].
    case_match; [| by intros [= <- <-]].
    destruct (store_match_items _ head _ h) as [[b1 |] h1] eqn:H1.
    + apply (store_match_items_frame _ _ IHh) in H1.
      destruct (store_bind_rest rest _ b1 h1) as [b2 h2] eqn:H2.
      apply store_bind_rest_frame in H2.
      destruct (store_match_items _ tail _ h2) as [[b3 |] h3] eqn:H3;
        apply (store_match_items_frame _ _ IHt) in H3;
        intros [= <- <-]; by repeat (etrans; [eassumption |]).
    + apply (store_match_items_frame _ _ IHh) in H1. by intros [= <- <-].
  - destruct (h !! l) as [[| | es |] |]; try by intros [= <- <-].
    destruct (store_match_keys _ req es h) as [[b1 |] h1] eqn:H1;
      apply (store_match_keys_frame _ _ IH) in H1.
    + destruct (store_bind_rest rest _ b1 h1) as [b2 h2] eqn:H2.
      apply store_bind_rest_frame in H2. intros [= <- <-]. by etrans.
    + by intros [= <- <-].
  - destruct (h !! l) as [[| | | tag' attrs] |]; try by intros [= <- <-].
    case_match; [| by intros [= <- <-]].
    apply (store_match_fields_frame _ _ IH).
  - apply (store_match_any_frame _ _ IH).
  - destruct (store_match inner l h) as [[b1 |] h1] eqn:H1;
      apply IH in H1; by intros [= <- <-].
Qed.

Lemma store_select_from_frame depth cases :
  ∀ i l h r h', store_select_from depth i cases l h = (r, h') → h `prefix_of` h'.
Proof.
  induction cases as [| c cases IH]; intros i l h r h'; simpl.
  - by intros [= <- <-].
  - destruct (store_match (pattern c) l h) as [[b |] h1] eqn:Hm;
      apply store_match_frame in Hm.
    + destruct (guard c) as [g |]; [| by intros [= <- <-]].
      destruct (g _) as [[|] | e].
      * by intros [= <- <-].
      * intros Hs. apply IH in Hs. by etrans.
      * by intros [= <- <-].
    + intros Hs. apply IH in Hs. by etrans.
Qed.

Lemma store_run_match_frame depth param clauses l h r h' :
  store_run_match depth param clauses l h = (r, h') → h `prefix_of` h'.
Proof.
  unfold store_run_match, store_select.
  destruct (store_select_from _ _ _ _ _) as [[[i b |] | e] h1] eqn:Hs;
    apply store_select_from_frame in Hs.
  - destruct (clauses !! i); by intros [= <- <-].
  - by intros [= <- <-].
  - by intros [= <- <-].
Qed.

(** ** Reading values off a grown store *)

Lemma mapM_impl {A B} (f g : A → option B) (xs : list A) ys :
  (∀ x y, f x = Some y → g x = Some y) →
  mapM f xs = Some ys → mapM g xs = Some ys.
Proof.
  intros Hfg. rewrite !mapM_Some. intros H. eapply Forall2_impl; [exact H | exact Hfg].
Qed.

Lemma fmap_pair_impl {K} (f g : loc → option Value) :
  (∀ x y, f x = Some y → g x = Some y) →
  ∀ (kl : K * loc) kv, pair kl.1 <$> f kl.2 = Some kv → pair kl.1 <$> g kl.2 = Some kv.
Proof.
  intros Hfg [k l0] kv; simpl.
  destruct (f l0) as [v |] eqn:Hf; [| discriminate].
  by rewrite (Hfg _ _ Hf).
Qed.

Lemma reify_S d (h : Store) l :
  reify (S d) h l =
  match h !! l with
  | Some (OScalar s) => Some (VScalar s)
  | Some (OList items) => VSequence <$> mapM (reify d h) items
  | Some (ODict entries) =>
      VMapping <$> mapM (fun kl => pair kl.1 <$> reify d h kl.2) entries
  | Some (OInstance c attrs) =>
      VRecord c <$> mapM (fun fl => pair fl.1 <$> reify d h fl.2) attrs
  | None => None
  end.
Proof. reflexivity. Qed.

(** Reading is the same from any store that agrees on what was read. *)
Lemma reify_impl depth (h h' : Store) :
  (∀ l o, h !! l = Some o → h' !! l = Some o) →
  ∀ l v, reify depth h l = Some v → reify depth h' l = Some v.
Proof.
  intros Hext. induction depth as [| d IH]; intros l v; [discriminate |].
  rewrite !reify_S.
  destruct (h !! l) as [o |] eqn:Hl; [| discriminate].
  rewrite (Hext _ _ Hl). destruct o as [s | items | es | tag attrs]; [done | | |].
  - destruct (mapM (reify d h) items) as [vs |] eqn:Hm; [| discriminate].
    by rewrite (mapM_impl _ _ _ _ IH Hm).
  - destruct (mapM _ es) as [vs |] eqn:Hm; [| discriminate].
    by rewrite (mapM_impl _ _ _ _ (fmap_pair_impl _ _ IH) Hm).
  - destruct (mapM _ attrs) as [vs |] eqn:Hm; [| discriminate].
    by rewrite (mapM_impl _ _ _ _ (fmap_pair_impl _ _ IH) Hm).
Qed.

Lemma reify_grown depth (h h' : Store) l v :
  h `prefix_of` h' → reify depth h l = Some v → reify depth h' l = Some v.
Proof.
  intros Hpre. apply reify_impl. intros l' o Hl'. by eapply prefix_lookup_Some.
Qed.

(** Reading deeper than needed gives the same value. *)
Lemma reify_deeper depth (h : Store) :
  ∀ l v, reify depth h l = Some v → reify (S depth) h l = Some v.
Proof.
  induction depth as [| d IH]; intros l v; [discriminate |].
  rewrite (reify_S (S d)), (reify_S d).
  destruct (h !! l) as [o |] eqn:Hl; [| discriminate].
  destruct o as [s | items | es | tag attrs]; [done | | |].
  - destruct (mapM (reify d h) items) as [vs |] eqn:Hm; [| discriminate].
    by rewrite (mapM_impl _ _ _ _ IH Hm).
  - destruct (mapM _ es) as [vs |] eqn:Hm; [| discriminate].
    by rewrite (mapM_impl _ _ _ _ (fmap_pair_impl _ _ IH) Hm).
  - destruct (mapM _ attrs) as [vs |] eqn:Hm; [| discriminate].
    by rewrite (mapM_impl _ _ _ _ (fmap_pair_impl _ _ IH) Hm).
Qed.

(** ** The store matcher computes the value matcher *)

Lemma stands_for_grown depth h h' lb b :
  h `prefix_of` h' → stands_for depth h lb b → stands_for depth h' lb b.
Proof.
  intros Hpre Hs. eapply map_Forall2_impl; [exact Hs |].
  intros x l v. by apply reify_grown.
Qed.

Lemma stands_for_merge depth h lb1 b1 lb2 b2 :
  stands_for depth h lb1 b1 → stands_for depth h lb2 b2 →
  stands_for depth h (merge lb1 lb2) (merge b1 b2).
Proof.
  intros H1 H2 x. unfold merge. rewrite !lookup_union.
  specialize (H1 x). specialize (H2 x).
  destruct H1, H2; simpl; by constructor.
Qed.

Lemma stands_for_bind_rest depth h rest l v lb b :
  reify depth h l = Some v → stands_for depth h lb b →
  stands_for depth h (bind_rest rest l lb) (bind_rest rest v b).
Proof.
  intros Hl Hs. destruct rest; simpl; [| done]. by apply map_Forall2_insert_2.
Qed.

Lemma stands_for_reify_refs depth h lb b :
  stands_for depth h lb b → reify_refs depth h lb = b.
Proof.
  intros Hs. apply map_eq. intros x. unfold reify_refs. rewrite lookup_omap.
  specialize (Hs x). destruct Hs as [l v Hlv |]; simpl; done.
Qed.

Lemma mapM_pair_Some {K} (f : loc → option Value) (es : list (K * loc)) ves :
  mapM (fun kl => pair kl.1 <$> f kl.2) es = Some ves ↔
  Forall2 (fun kl kv => kl.1 = kv.1 ∧ f kl.2 = Some kv.2) es ves.
Proof.
  rewrite mapM_Some.
  split; intros H; (eapply Forall2_impl; [exact H |]); intros [k l] [k' v]; simpl.
  - destruct (f l); simpl; [| discriminate]. by intros [= -> ->].
  - by intros [-> ->].
Qed.

Lemma reify_reads_as d h l v :
  reify (S d) h l = Some v ↔ ∃ o, h !! l = Some o ∧ reads_as d h o v.
Proof.
  rewrite reify_S. split.
  - destruct (h !! l) as [[s | items | es | tag attrs] |]; [| | | | discriminate].
    + intros [= <-]. eexists. split; [done | constructor].
    + destruct (mapM _ items) as [vs |] eqn:Hm; [| discriminate].
      intros [= <-]. eexists. split; [done |]. constructor. by apply mapM_Some.
    + destruct (mapM _ es) as [ves |] eqn:Hm; [| discriminate].
      intros [= <-]. eexists. split; [done |]. constructor. by apply mapM_pair_Some.
    + destruct (mapM _ attrs) as [fs |] eqn:Hm; [| discriminate].
      intros [= <-]. eexists. split; [done |]. constructor. by apply mapM_pair_Some.
  - intros (o & -> & Ho). destruct Ho as [s | items vs H | es ves H | tag attrs fs H].
    + done.
    + apply mapM_Some in H. by rewrite H.
    + apply mapM_pair_Some in H. by rewrite H.
    + apply mapM_pair_Some in H. by rewrite H.
Qed.

(** Literal and kind tests see the same thing in the object and in the
    value. *)
Lemma reads_as_head d h o v :
  reads_as d h o v →
  (∀ lit, value_eq_scalar (head_value o) lit = value_eq_scalar v lit) ∧
  (∀ lit, value_is_scalar (head_value o) lit = value_is_scalar v lit) ∧
  (∀ k, isinstance (head_value o) k = isinstance v k).
Proof. by destruct 1. Qed.

Lemma lookup_key_reads d h k es ves :
  Forall2 (fun kl kv => kl.1 = kv.1 ∧ reify d h kl.2 = Some kv.2) es ves →
  option_Forall2 (fun l v => reify d h l = Some v) (lookup_key k es) (lookup_key k ves).
Proof.
  induction 1 as [| [k1 l1] [k2 v2] es ves [Hk Hl] _ IH]; simpl in *; [constructor |].
  subst k2. destruct (scalar_eq k1 k); [by constructor | done].
Qed.

Lemma lookup_field_reads d h f attrs fs :
  Forall2 (fun fl fv => fl.1 = fv.1 ∧ reify d h fl.2 = Some fv.2) attrs fs →
  option_Forall2 (fun l v => reify d h l = Some v) (lookup_field f attrs) (lookup_field f fs).
Proof.
  induction 1 as [| [f1 l1] [f2 v2] attrs fs [Hf Hl] _ IH]; simpl in *; [constructor |].
  subst f2. case_bool_decide; [by constructor | done].
Qed.

Lemma remaining_reads d h keys es ves :
  Forall2 (fun kl kv => kl.1 = kv.1 ∧ reify d h kl.2 = Some kv.2) es ves →
  Forall2 (fun kl kv => kl.1 = kv.1 ∧ reify d h kl.2 = Some kv.2)
          (remaining keys es) (remaining keys ves).
Proof.
  unfold remaining.
  induction 1 as [| [k1 l1] [k2 v2] es ves [Hk Hl] _ IH]; simpl in *; [constructor |].
  subst k2. destruct (existsb (scalar_eq k1) keys); simpl; [done |].
  by constructor.
Qed.

Lemma reads_as_grown d h h' o v :
  h `prefix_of` h' → reads_as d h o v → reads_as d h' o v.
Proof.
  intros Hpre. destruct 1 as [s | items vs H | es ves H | tag attrs fs H];
    constructor; (eapply Forall2_impl; [exact H |]); simpl.
  - intros l v. by apply reify_grown.
  - intros kl kv [? ?]. split; [done |]. by eapply reify_grown.
  - intros fl fv [? ?]. split; [done |]. by eapply reify_grown.
Qed.

Lemma Forall2_reify_deeper d h ls vs :
  Forall2 (fun l v => reify d h l = Some v) ls vs →
  Forall2 (fun l v => reify (S d) h l = Some v) ls vs.
Proof. intros H. eapply Forall2_impl; [exact H |]. apply reify_deeper. Qed.

Lemma Forall2_reify_grown d h h' ls vs :
  h `prefix_of` h' →
  Forall2 (fun l v => reify d h l = Some v) ls vs →
  Forall2 (fun l v => reify d h' l = Some v) ls vs.
Proof.
  intros Hpre H. eapply Forall2_impl; [exact H |]. intros l v. by apply reify_grown.
Qed.

Lemma Forall2_keyed_deeper {K} d h (es : list (K * loc)) (ves : list (K * Value)) :
  Forall2 (fun kl kv => kl.1 = kv.1 ∧ reify d h kl.2 = Some kv.2) es ves →
  Forall2 (fun kl kv => kl.1 = kv.1 ∧ reify (S d) h kl.2 = Some kv.2) es ves.
Proof.
  intros H. eapply Forall2_impl; [exact H |]. intros kl kv [? ?].
  split; [done |]. by apply reify_deeper.
Qed.

Lemma Forall2_keyed_grown {K} d h h' (es : list (K * loc)) (ves : list (K * Value)) :
  h `prefix_of` h' →
  Forall2 (fun kl kv => kl.1 = kv.1 ∧ reify d h kl.2 = Some kv.2) es ves →
  Forall2 (fun kl kv => kl.1 = kv.1 ∧ reify d h' kl.2 = Some kv.2) es ves.
Proof.
  intros Hpre H. eapply Forall2_impl; [exact H |]. intros kl kv [? ?].
  split; [done |]. by eapply reify_grown.
Qed.

(** The container bound to a rest name is a new object that reads as the
    value the value matcher binds. *)
Lemma store_bind_rest_refines d h rest o v lb b :
  reads_as d h o v → stands_for (S d) h lb b →
  stands_for (S d) (store_bind_rest rest o lb h).2
             (store_bind_rest rest o lb h).1 (bind_rest rest v b).
Proof.
  intros Ho Hs. destruct rest as [r |]; simpl; [| done].
  assert (h `prefix_of` h ++ [o]) as Hpre by by apply prefix_app_r.
  apply map_Forall2_insert_2; [| by eapply stands_for_grown].
  apply reify_reads_as. exists o. split; [by apply list_lookup_middle |].
  by eapply reads_as_grown.
Qed.

Section Store_refines.
Variable depth : nat.
Variable ms : Pattern → loc → Store → option Refs * Store.
Variable mp : Pattern → Value → MatchResult.
Hypothesis ms_frame : ∀ p, grows_only ms p.

Lemma store_match_items_refines ps :
  Forall (refines_at depth ms mp) ps →
  ∀ ls vs h, Forall2 (fun l v => reify depth h l = Some v) ls vs →
             agree depth (store_match_items ms ps ls h) (match_items mp ps vs).
Proof.
  induction 1 as [| p ps Hp Hps IH]; intros ls vs h Hlv.
  - destruct Hlv; simpl; constructor. apply map_Forall2_empty.
  - destruct Hlv as [| l v ls vs Hl Hls]; simpl; [constructor |].
    pose proof (Hp l h v Hl) as H1. unfold agree in H1.
    destruct (ms p l h) as [[lb1 |] h1] eqn:Hm, (mp p v) as [b1 |];
      simpl in H1; inversion H1 as [? ? Hs1 |]; subst; [| constructor].
    assert (h `prefix_of` h1) as Hpre by by eapply ms_frame.
    pose proof (IH ls vs h1 (Forall2_reify_grown _ _ _ _ _ Hpre Hls)) as H2.
    unfold agree in H2.
    destruct (store_match_items ms ps ls h1) as [[lb2 |] h2] eqn:Hm2,
             (match_items mp ps vs) as [b2 |];
      simpl in H2; inversion H2 as [? ? Hs2 |]; subst; constructor.
    simpl. apply stands_for_merge; [| done].
    eapply stands_for_grown; [| exact Hs1].
    eapply store_match_items_frame; [| exact Hm2].
    apply Forall_forall. intros q _. apply ms_frame.
Qed.

Lemma store_match_keys_refines req :
  Forall (fun kp => refines_at depth ms mp kp.2) req →
  ∀ es ves h,
    Forall2 (fun kl kv => kl.1 = kv.1 ∧ reify depth h kl.2 = Some kv.2) es ves →
    agree depth (store_match_keys ms req es h) (match_keys mp req ves).
Proof.
  induction 1 as [| [k p] req Hp Hreq IH]; intros es ves h Hes; simpl.
  - constructor. apply map_Forall2_empty.
  - pose proof (lookup_key_reads depth h k es ves Hes) as Hk.
    destruct (lookup_key k es) as [l |], (lookup_key k ves) as [v |];
      inversion Hk as [? ? Hl |]; subst; [| constructor].
    pose proof (Hp l h v Hl) as H1. unfold agree in H1. simpl in H1.
    destruct (ms p l h) as [[lb1 |] h1] eqn:Hm, (mp p v) as [b1 |];
      simpl in H1; inversion H1 as [? ? Hs1 |]; subst; [| constructor].
    assert (h `prefix_of` h1) as Hpre by by eapply ms_frame.
    pose proof (IH es ves h1 (Forall2_keyed_grown _ _ _ _ _ Hpre Hes)) as H2.
    unfold agree in H2.
    destruct (store_match_keys ms req es h1) as [[lb2 |] h2] eqn:Hm2,
             (match_keys mp req ves) as [b2 |];
      simpl in H2; inversion H2 as [? ? Hs2 |]; subst; constructor.
    simpl. apply stands_for_merge; [| done].
    eapply stands_for_grown; [| exact Hs1].
    eapply store_match_keys_frame; [| exact Hm2].
    apply Forall_forall. intros q _. apply ms_frame.
Qed.

Lemma store_match_fields_refines fps :
  Forall (fun fp => refines_at depth ms mp fp.2) fps →
  ∀ attrs fs h,
    Forall2 (fun fl fv => fl.1 = fv.1 ∧ reify depth h fl.2 = Some fv.2) attrs fs →
    agree depth (store_match_fields ms fps attrs h) (match_fields mp fps fs).
Proof.
  induction 1 as [| [f p] fps Hp Hfps IH]; intros attrs fs h Hfs; simpl.
  - constructor. apply map_Forall2_empty.
  - pose proof (lookup_field_reads depth h f attrs fs Hfs) as Hf.
    destruct (lookup_field f attrs) as [l |], (lookup_field f fs) as [v |];
      inversion Hf as [? ? Hl |]; subst; [| constructor].
    pose proof (Hp l h v Hl) as H1. unfold agree in H1. simpl in H1.
    destruct (ms p l h) as [[lb1 |] h1] eqn:Hm, (mp p v) as [b1 |];
      simpl in H1; inversion H1 as [? ? Hs1 |]; subst; [| constructor].
    assert (h `prefix_of` h1) as Hpre by by eapply ms_frame.
    pose proof (IH attrs fs h1 (Forall2_keyed_grown _ _ _ _ _ Hpre Hfs)) as H2.
    unfold agree in H2.
    destruct (store_match_fields ms fps attrs h1) as [[lb2 |] h2] eqn:Hm2,
             (match_fields mp fps fs) as [b2 |];
      simpl in H2; inversion H2 as [? ? Hs2 |]; subst; constructor.
    simpl. apply stands_for_merge; [| done].
    eapply stands_for_grown; [| exact Hs1].
    eapply store_match_fields_frame; [| exact Hm2].
    apply Forall_forall. intros q _. apply ms_frame.
Qed.

Lemma store_match_any_refines alts :
  Forall (refines_at depth ms mp) alts →
  ∀ l h v, reify depth h l = Some v →
           agree depth (store_match_any ms alts l h) (match_any mp alts v).
Proof.
  induction 1 as [| p alts Hp Halts IH]; intros l h v Hl; simpl; [constructor |].
  pose proof (Hp l h v Hl) as H1. unfold agree in H1.
  destruct (ms p l h) as [[lb1 |] h1] eqn:Hm, (mp p v) as [b1 |];
    simpl in H1; inversion H1 as [? ? Hs1 |]; subst; [by constructor |].
  apply IH. eapply reify_grown; [| exact Hl]. by eapply ms_frame.
Qed.
End Store_refines.

(** On a subject that reads as the value [v], the store matcher succeeds
    exactly when the value matcher does on [v], and its references stand
    for the bindings of the value matcher. *)
Lemma store_match_refines depth p :
  refines_at depth store_match match_pattern p.
Proof.
  induction p as [lit | | n | k n | head rest tail IHh IHt | req rest IH
                 | tag fps IH | alts IH | inner n IH] using Pattern_tree_ind;
    intros l h v Hv; unfold agree.
  - destruct depth as [| d]; [discriminate |].
    apply reify_reads_as in Hv as (o & Ho & Hov).
    destruct (reads_as_head _ _ _ _ Hov) as (Heq & His & _).
    simpl. rewrite Ho.
    destruct lit; rewrite ?Heq, ?His; simpl; case_match; constructor;
      apply map_Forall2_empty.
  - constructor. apply map_Forall2_empty.
  - constructor. by apply map_Forall2_singleton.
  - destruct depth as [| d]; [discriminate |].
    pose proof Hv as Hv'.
    apply reify_reads_as in Hv as (o & Ho & Hov).
    destruct (reads_as_head _ _ _ _ Hov) as (_ & _ & Hinst).
    simpl. rewrite Ho, Hinst. case_match; constructor.
    apply stands_for_bind_rest; [done | apply map_Forall2_empty].
  - destruct depth as [| d]; [discriminate |].
    apply reify_reads_as in Hv as (o & Ho & Hov).
    simpl store_match. rewrite Ho.
    destruct Hov as [s | items vs Hitems | es ves Hes | tag' attrs fs Hfs];
      try (simpl; constructor).
    simpl match_pattern. rewrite <- (Forall2_length _ _ _ Hitems).
    case_match; [| constructor].
    set (n_mid := (length items - (length head + length tail))%nat).
    pose proof (store_match_items_refines (S d) store_match match_pattern
                  store_match_frame head IHh _ _ h
                  (Forall2_reify_deeper _ _ _ _
                     (Forall2_take _ _ _ (length head) Hitems))) as H1.
    unfold agree in H1.
    destruct (store_match_items store_match head _ h) as [[lb1 |] h1] eqn:Hm1,
             (match_items match_pattern head _) as [b1 |];
      simpl in H1; inversion H1 as [? ? Hs1 |]; subst; [| constructor].
    assert (h `prefix_of` h1) as Hpre1.
    { eapply store_match_items_frame; [| exact Hm1].
      apply Forall_forall. intros q _. exact (store_match_frame q). }
    assert (reads_as d h1 (OList (take n_mid (drop (length head) items)))
                     (VSequence (take n_mid (drop (length head) vs)))) as Hmid.
    { constructor. apply Forall2_take, Forall2_drop.
      by eapply Forall2_reify_grown. }
    pose proof (store_bind_rest_refines d h1 rest _ _ lb1 b1 Hmid Hs1) as Hs2.
    destruct (store_bind_rest rest _ lb1 h1) as [lb2 h2] eqn:Hb2.
    assert (h1 `prefix_of` h2) as Hpre2 by by eapply store_bind_rest_frame.
    simpl in Hs2.
    assert (h `prefix_of` h2) as Hpre by by etrans.
    pose proof (store_match_items_refines (S d) store_match match_pattern
                  store_match_frame tail IHt _ _ h2
                  (Forall2_reify_deeper _ _ _ _
                     (Forall2_reify_grown _ _ _ _ _ Hpre
                        (Forall2_drop _ _ _ (length head + n_mid) Hitems)))) as H3.
    unfold agree in H3.
    destruct (store_match_items store_match tail _ h2) as [[lb3 |] h3] eqn:Hm3,
             (match_items match_pattern tail _) as [b3 |];
      simpl in H3; inversion H3 as [? ? Hs3 |]; subst; constructor.
    simpl. apply stands_for_merge; [| done].
    eapply stands_for_grown; [| exact Hs2].
    eapply store_match_items_frame; [| exact Hm3].
    apply Forall_forall. intros q _. exact (store_match_frame q).
  - destruct depth as [| d]; [discriminate |].
    apply reify_reads_as in Hv as (o & Ho & Hov).
    simpl store_match. rewrite Ho.
    destruct Hov as [s | items vs Hitems | es ves Hes | tag' attrs fs Hfs];
      try (simpl; constructor).
    simpl match_pattern.
    pose proof (store_match_keys_refines (S d) store_match match_pattern
                  store_match_frame req IH _ _ h
                  (Forall2_keyed_deeper _ _ _ _ Hes)) as H1.
    unfold agree in H1.
    destruct (store_match_keys store_match req es h) as [[lb1 |] h1] eqn:Hm1,
             (match_keys match_pattern req ves) as [b1 |];
      simpl in H1; inversion H1 as [? ? Hs1 |]; subst; [| constructor].
    assert (h `prefix_of` h1) as Hpre1.
    { eapply store_match_keys_frame; [| exact Hm1].
      apply Forall_forall. intros q _. exact (store_match_frame q.2). }
    assert (reads_as d h1 (ODict (remaining (req.*1) es))
                     (VMapping (remaining (req.*1) ves))) as Hrest.
    { constructor. apply remaining_reads. by eapply Forall2_keyed_grown. }
    pose proof (store_bind_rest_refines d h1 rest _ _ lb1 b1 Hrest Hs1) as Hs2.
    destruct (store_bind_rest rest _ lb1 h1) as [lb2 h2] eqn:Hb2.
    by constructor.
  - destruct depth as [| d]; [discriminate |].
    apply reify_reads_as in Hv as (o & Ho & Hov).
    simpl store_match. rewrite Ho.
    destruct Hov as [s | items vs Hitems | es ves Hes | tag' attrs fs Hfs];
      try (simpl; constructor).
    simpl match_pattern. destruct (instance_of tag' tag); [| constructor].
    apply (store_match_fields_refines (S d) store_match match_pattern
             store_match_frame fps IH).
    by apply Forall2_keyed_deeper.
  - by apply (store_match_any_refines depth store_match match_pattern
                store_match_frame alts IH).
  - simpl. pose proof (IH l h v Hv) as H1. unfold agree in H1.
    destruct (store_match inner l h) as [[lb1 |] h1] eqn:Hm1,
             (match_pattern inner v) as [b1 |];
      simpl in H1; inversion H1 as [? ? Hs1 |]; subst; constructor.
    simpl. apply map_Forall2_insert_2; [| done].
    eapply reify_grown; [| exact Hv]. by eapply store_match_frame.
Qed.

(** ** The scan and the functions on the store *)

Lemma store_select_from_refines depth cases :
  ∀ i l h v, reify depth h l = Some v →
    match select_from i cases v with
    | Ok (Selected j b) =>
        ∃ lb, (store_select_from depth i cases l h).1 = Ok (SelectedRefs j lb) ∧
              stands_for depth (store_select_from depth i cases l h).2 lb b
    | Ok Exhausted => (store_select_from depth i cases l h).1 = Ok ExhaustedRefs
    | Raise e => (store_select_from depth i cases l h).1 = Raise e
    end.
Proof.
  induction cases as [| c cases IH]; intros i l h v Hv; simpl; [done |].
  pose proof (store_match_refines depth (pattern c) l h v Hv) as H1.
  unfold agree in H1.
  destruct (store_match (pattern c) l h) as [[lb1 |] h1] eqn:Hm1,
           (match_pattern (pattern c) v) as [b1 |];
    simpl in H1; inversion H1 as [? ? Hs1 |]; subst.
  - destruct (guard c) as [g |]; [| by exists lb1].
    rewrite (stands_for_reify_refs _ _ _ _ Hs1).
    destruct (g b1) as [[|] | e]; [by exists lb1 | | done].
    apply IH. eapply reify_grown; [| exact Hv]. by eapply store_match_frame.
  - apply IH. eapply reify_grown; [| exact Hv]. by eapply store_match_frame.
Qed.

(** Called on an object that reads as [v], a function on the store returns
    what the function on values returns for [v]. *)
Lemma store_run_match_refines depth param clauses l h v :
  reify depth h l = Some v →
  (store_run_match depth param clauses l h).1 = run_match param clauses v.
Proof.
  intros Hv. unfold store_run_match, run_match, store_select, select.
  pose proof (store_select_from_refines depth (clause_case <$> clauses) 0 l h v Hv) as Hs.
  destruct (store_select_from depth 0 (clause_case <$> clauses) l h)
    as [r h'] eqn:Hsel.
  apply store_select_from_frame in Hsel.
  destruct (select_from 0 (clause_case <$> clauses) v) as [[j b |] | e]; simpl in Hs.
  - destruct Hs as (lb & -> & Hlb).
    destruct (clauses !! j) as [cl |]; [| done]. simpl. f_equal.
    apply stands_for_reify_refs. apply stands_for_merge; [| done].
    apply map_Forall2_singleton. by eapply reify_grown.
  - by subst r.
  - by subst r.
Qed.

(** ** Names bound on the store *)

Section Store_names.
Variable m : Pattern → loc → Store → option Refs * Store.

Lemma store_match_items_dom ps :
  Forall (binds_within m) ps →
  ∀ ls h b h', store_match_items m ps ls h = (Some b, h') →
               dom b ⊆ ⋃ (bound_names <$> ps).
Proof.
  induction 1 as [| p ps Hp _ IH]; intros [| l ls] h b h'; simpl; try discriminate.
  - intros [= <- <-]. set_solver.
  - destruct (m p l h) as [[b1 |] h1] eqn:H1; [| discriminate].
    destruct (store_match_items m ps ls h1) as [[b2 |] h2] eqn:H2; [| discriminate].
    intros [= <- <-]. rewrite dom_merge.
    specialize (Hp _ _ _ _ H1). specialize (IH _ _ _ _ H2). set_solver.
Qed.

Lemma store_match_keys_dom req :
  Forall (fun kp => binds_within m kp.2) req →
  ∀ es h b h', store_match_keys m req es h = (Some b, h') →
               dom b ⊆ ⋃ ((fun kp => bound_names kp.2) <$> req).
Proof.
  induction 1 as [| [k p] req Hp _ IH]; intros es h b h'; simpl.
  - intros [= <- <-]. set_solver.
  - destruct (lookup_key k es) as [l |]; [| discriminate].
    destruct (m p l h) as [[b1 |] h1] eqn:H1; [| discriminate].
    destruct (store_match_keys m req es h1) as [[b2 |] h2] eqn:H2; [| discriminate].
    intros [= <- <-]. rewrite dom_merge.
    specialize (Hp _ _ _ _ H1). specialize (IH _ _ _ _ H2). set_solver.
Qed.

Lemma store_match_fields_dom fps :
  Forall (fun fp => binds_within m fp.2) fps →
  ∀ attrs h b h', store_match_fields m fps attrs h = (Some b, h') →
                  dom b ⊆ ⋃ ((fun fp => bound_names fp.2) <$> fps).
Proof.
  induction 1 as [| [f p] fps Hp _ IH]; intros attrs h b h'; simpl.
  - intros [= <- <-]. set_solver.
  - destruct (lookup_field f attrs) as [l |]; [| discriminate].
    destruct (m p l h) as [[b1 |] h1] eqn:H1; [| discriminate].
    destruct (store_match_fields m fps attrs h1) as [[b2 |] h2] eqn:H2; [| discriminate].
    intros [= <- <-]. rewrite dom_merge.
    specialize (Hp _ _ _ _ H1). specialize (IH _ _ _ _ H2). set_solver.
Qed.

Lemma store_match_any_dom alts :
  Forall (binds_within m) alts →
  ∀ l h b h', store_match_any m alts l h = (Some b, h') →
              dom b ⊆ ⋃ (bound_names <$> alts).
Proof.
  induction 1 as [| p alts Hp _ IH]; intros l h b h'; simpl; [discriminate |].
  destruct (m p l h) as [[b1 |] h1] eqn:H1.
  - intros [= <- <-]. specialize (Hp _ _ _ _ H1). set_solver.
  - intros H2. specialize (IH _ _ _ _ H2). set_solver.
Qed.
End Store_names.

Lemma dom_store_bind_rest rest o b h :
  dom (store_bind_rest rest o b h).1 = rest_name rest ∪ dom b.
Proof. destruct rest; simpl; [apply dom_insert_L | set_solver]. Qed.

Lemma store_match_dom p :
  ∀ l h b h', store_match p l h = (Some b, h') → dom b ⊆ bound_names p.
Proof.
  induction p as [lit | | n | k n | head rest tail IHh IHt | req rest IH
                 | tag fps IH | alts IH | inner n IH] using Pattern_tree_ind;
    intros l h b h'; simpl.
  - destruct (h !! l); [| discriminate].
    destruct lit; case_match; intros [= <- <-]; set_solver.
  - intros [= <- <-]. set_solver.
  - intros [= <- <-]. rewrite dom_singleton_L. set_solver.
  - destruct (h !! l); [| discriminate].
    case_match; intros [= <- <-]. rewrite dom_bind_rest. set_solver.
  - destruct (h !! l) as [[| items | |] |]; try discriminate.
    case_match; [| discriminate].
    destruct (store_match_items _ head _ h) as [[b1 |] h1] eqn:H1; [| discriminate].
    pose proof (dom_store_bind_rest rest
                  (OList (take (length items - (length head + length tail))
                            (drop (length head) items))) b1 h1) as Hd.
    destruct (store_bind_rest rest _ b1 h1) as [b2 h2].
    destruct (store_match_items _ tail _ h2) as [[b3 |] h3] eqn:H3; [| discriminate].
    intros [= <- <-]. rewrite dom_merge. simpl in Hd. rewrite Hd.
    apply (store_match_items_dom _ _ IHh) in H1.
    apply (store_match_items_dom _ _ IHt) in H3.
    set_solver.
  - destruct (h !! l) as [[| | es |] |]; try discriminate.
    destruct (store_match_keys _ req es h) as [[b1 |] h1] eqn:H1; [| discriminate].
    pose proof (dom_store_bind_rest rest (ODict (remaining (req.*1) es)) b1 h1) as Hd.
    destruct (store_bind_rest rest _ b1 h1) as [b2 h2].
    intros [= <- <-]. simpl in Hd. rewrite Hd.
    apply (store_match_keys_dom _ _ IH) in H1. set_solver.
  - destruct (h !! l) as [[| | | tag' attrs] |]; try discriminate.
    case_match; [| discriminate].
    intros H1. by apply (store_match_fields_dom _ _ IH) in H1.
  - intros H1. by apply (store_match_any_dom _ _ IH) in H1.
  - destruct (store_match inner l h) as [[b1 |] h1] eqn:H1; [| discriminate].
    intros [= <- <-]. rewrite dom_insert_L. specialize (IH _ _ _ _ H1). set_solver.
Qed.

(** ** Rest-captures are new objects *)

Lemma store_rest_sequence_new head r tail l h lb h' :
  r ∉ ⋃ (bound_names <$> tail) →
  store_match (PSequence head (Some r) tail) l h = (Some lb, h') →
  ∃ items lr,
    h !! l = Some (OList items) ∧ lb !! r = Some lr ∧ (length h ≤ lr)%nat ∧
    h' !! lr = Some (OList (between (length head) (length items - length tail) items)).
Proof.
  intros Hfresh. simpl.
  destruct (h !! l) as [[| items | |] |]; try discriminate.
  case_bool_decide as Hlen; [| discriminate].
  destruct (store_match_items _ head _ h) as [[b1 |] h1] eqn:H1; [| discriminate].
  destruct (store_match_items _ tail _ _) as [[b3 |] h3] eqn:H3; [| discriminate].
  intros [= <- <-]. exists items, (length h1).
  assert (h `prefix_of` h1) as Hpre1.
  { eapply store_match_items_frame; [| exact H1].
    apply Forall_forall. intros q _. exact (store_match_frame q). }
  assert (h1 ++ [OList (take (length items - (length head + length tail))
                          (drop (length head) items))] `prefix_of` h3) as Hpre3.
  { eapply store_match_items_frame; [| exact H3].
    apply Forall_forall. intros q _. exact (store_match_frame q). }
  split; [done |]. split; [| split].
  - unfold merge. rewrite lookup_union_r; [apply lookup_insert_eq |].
    apply not_elem_of_dom. apply store_match_items_dom in H3; [set_solver |].
    apply Forall_forall. intros q _. exact (store_match_dom q).
  - by apply prefix_length.
  - eapply prefix_lookup_Some; [| exact Hpre3].
    rewrite list_lookup_middle by done. do 2 f_equal. unfold between.
    rewrite take_drop_commute. do 2 f_equal. lia.
Qed.

Lemma store_rest_mapping_new req r l h lb h' :
  store_match (PMapping req (Some r)) l h = (Some lb, h') →
  ∃ es lr,
    h !! l = Some (ODict es) ∧ lb !! r = Some lr ∧ (length h ≤ lr)%nat ∧
    h' !! lr = Some (ODict (remaining (req.*1) es)).
Proof.
  simpl. destruct (h !! l) as [[| | es |] |]; try discriminate.
  destruct (store_match_keys _ req es h) as [[b1 |] h1] eqn:H1; [| discriminate].
  intros [= <- <-]. exists es, (length h1).
  assert (h `prefix_of` h1) as Hpre1.
  { eapply store_match_keys_frame; [| exact H1].
    apply Forall_forall. intros q _. exact (store_match_frame q.2). }
  split; [done |]. split; [apply lookup_insert_eq |]. split.
  - by apply prefix_length.
  - by apply list_lookup_middle.
Qed.



(** * Further theorems: the rest of the source *)

(** ** A match binds exactly the names of its pattern *)

Section Exact_names.
Variable m : Pattern → Value → MatchResult.

Lemma match_items_names ps :
  Forall (binds_all m) ps → forallb well_formed ps = true →
  ∀ vs b, match_items m ps vs = Some b → dom b = ⋃ (bound_names <$> ps).
Proof.
  induction 1 as [| p ps Hp _ IH]; intros Hwf [| v vs] b; simpl in *; try discriminate.
  - by intros [= <-].
  - apply andb_true_iff in Hwf as [Hwp Hwps].
    destruct (m p v) as [b1 |] eqn:H1; [| discriminate].
    destruct (match_items m ps vs) as [b2 |] eqn:H2; [| discriminate].
    intros [= <-]. rewrite dom_merge, (Hp Hwp _ _ H1), (IH Hwps _ _ H2). done.
Qed.

Lemma match_keys_names req :
  Forall (fun kp => binds_all m kp.2) req →
  forallb (fun kp => well_formed kp.2) req = true →
  ∀ es b, match_keys m req es = Some b →
          dom b = ⋃ ((fun kp => bound_names kp.2) <$> req).
Proof.
  induction 1 as [| [k p] req Hp _ IH]; intros Hwf es b; simpl in *.
  - by intros [= <-].
  - apply andb_true_iff in Hwf as [Hwp Hwps].
    destruct (lookup_key k es) as [v |]; [| discriminate].
    destruct (m p v) as [b1 |] eqn:H1; [| discriminate].
    destruct (match_keys m req es) as [b2 |] eqn:H2; [| discriminate].
    intros [= <-]. rewrite dom_merge, (Hp Hwp _ _ H1), (IH Hwps _ _ H2). done.
Qed.

Lemma match_fields_names fps :
  Forall (fun fp => binds_all m fp.2) fps →
  forallb (fun fp => well_formed fp.2) fps = true →
  ∀ fs b, match_fields m fps fs = Some b →
          dom b = ⋃ ((fun fp => bound_names fp.2) <$> fps).
Proof.
  induction 1 as [| [f p] fps Hp _ IH]; intros Hwf fs b; simpl in *.
  - by intros [= <-].
  - apply andb_true_iff in Hwf as [Hwp Hwps].
    destruct (lookup_field f fs) as [v |]; [| discriminate].
    destruct (m p v) as [b1 |] eqn:H1; [| discriminate].
    destruct (match_fields m fps fs) as [b2 |] eqn:H2; [| discriminate].
    intros [= <-]. rewrite dom_merge, (Hp Hwp _ _ H1), (IH Hwps _ _ H2). done.
Qed.

Lemma match_any_names (names : gset string) alts :
  Forall (binds_all m) alts → forallb well_formed alts = true →
  forallb (fun q => bool_decide (bound_names q = names)) alts = true →
  ∀ v b, match_any m alts v = Some b → dom b = names.
Proof.
  induction 1 as [| p alts Hp _ IH]; intros Hwf Hsame v b; simpl in *; [discriminate |].
  apply andb_true_iff in Hwf as [Hwp Hwps].
  apply andb_true_iff in Hsame as [Hp_names Hsame].
  apply bool_decide_eq_true in Hp_names.
  destruct (m p v) as [b1 |] eqn:H1.
  - intros [= <-]. by rewrite (Hp Hwp _ _ H1).
  - by apply IH.
Qed.
End Exact_names.

Lemma match_pattern_names p :
  binds_all match_pattern p.
Proof.
  induction p as [l | | n | k n | head rest tail IHh IHt | req rest IH
                 | tag fps IH | alts IH | inner n IH] using Pattern_tree_ind;
    intros Hwf v b; simpl in *.
  - destruct l; case_match; intros [= <-]; set_solver.
  - intros [= <-]. set_solver.
  - intros [= <-]. by rewrite dom_singleton_L.
  - case_match; intros [= <-]. rewrite dom_bind_rest. set_solver.
  - apply andb_true_iff in Hwf as [Hwh Hwt].
    destruct v as [| items | |]; try discriminate.
    case_match; [| discriminate].
    destruct (match_items _ head _) as [b1 |] eqn:H1; [| discriminate].
    destruct (match_items _ tail _) as [b3 |] eqn:H3; [| discriminate].
    intros [= <-]. rewrite dom_merge, dom_bind_rest.
    rewrite (match_items_names _ _ IHh Hwh _ _ H1), (match_items_names _ _ IHt Hwt _ _ H3).
    set_solver.
  - destruct v as [| | es |]; try discriminate.
    destruct (match_keys _ req es) as [b1 |] eqn:H1; [| discriminate].
    intros [= <-]. rewrite dom_bind_rest, (match_keys_names _ _ IH Hwf _ _ H1).
    set_solver.
  - destruct v as [| | | tag' fs]; try discriminate.
    case_match; [| discriminate].
    by apply match_fields_names.
  - apply andb_true_iff in Hwf as [Hwa Hsame].
    by apply match_any_names.
  - destruct (match_pattern inner v) as [b1 |] eqn:H1; [| discriminate].
    intros [= <-]. rewrite dom_insert_L, (IH Hwf _ _ H1). set_solver.
Qed.



(** ** [analyze_data] on numbers, and the loop of [main] over it *)

Lemma analyze_data_not_number v :
  ¬ is_number v → analyze_data v = Raise TypeError.
Proof.
  intros Hv. destruct v as [s | | |]; try reflexivity.
  destruct s; try reflexivity; destruct Hv; eexists; split; try done; by eexists.
Qed.

(** X2. On a number, [analyze_data] answers by the sign alone: "Zero" for
    whatever equals 0 (0, 0.0, -0.0, [False]), "Negative" below 0, and
    "Unknown data type" for everything else, positive numbers, infinity and
    NaN included; no other case of the function is ever taken. The answer
    "Negative" writes the number out, which CPython refuses for an [int] of
    more than 4300 digits: the call then raises [ValueError]. The answer
    "Unknown data type" writes only the class, whatever the number. *)
Theorem X2_analyze_data_by_sign :
  ∀ s x,
    num_of s = Some x →
    analyze_data (VScalar s) =
    match num_compare x (NFin 0 0) with
    | Some Eq => Ok (Fmt "Zero" [])
    | Some Lt =>
        match s with
        | SInt n =>
            if bool_decide (Z.abs n < 10 ^ int_max_str_digits)
            then Ok (Fmt "Negative: {x}" [VScalar s])
            else Raise ValueError
        | _ => Ok (Fmt "Negative: {x}" [VScalar s])
        end
    | _ => Ok (Fmt "Unknown data type: {type(data)}" [VScalar s])
    end.
Proof. exact analyze_data_number. Qed.

Lemma X2_analyze_data_by_sign_witness :
  analyze_data (VScalar (SInt (-5))) = Ok (Fmt "Negative: {x}" [VScalar (SInt (-5))]).
Proof. apply (X2_analyze_data_by_sign (SInt (-5)) (NFin (-5) 0)). reflexivity. Defined.

(** The loop goes through the subjects that [f] answers and that the
    f-string of [print] can write out. *)
Lemma print_results_all_ok f test_data :
  Forall (fun v => (∃ r, f v = Ok r) ∧ written v = Ok tt) test_data →
  ∃ printed, print_results f test_data = (printed, Ok tt) ∧ printed.*1 = test_data.
Proof.
  induction 1 as [| v test_data [[r Hr] Hw] _ (printed & IH & Hfst)]; simpl.
  - by exists [].
  - rewrite Hr, Hw, IH. exists ((v, r) :: printed). split; [done |].
    rewrite fmap_cons. by f_equal.
Qed.

(** It stops at the first subject for which [f] raises, or which [f] answers
    but the f-string of [print] cannot write out. *)
Lemma print_results_first_failure f before v after e :
  Forall (fun v => (∃ r, f v = Ok r) ∧ written v = Ok tt) before →
  f v = Raise e ∨ ((∃ r, f v = Ok r) ∧ written v = Raise e) →
  ∃ printed,
    print_results f (before ++ v :: after) = (printed, Raise e) ∧ printed.*1 = before.
Proof.
  intros Hbefore Hv.
  induction Hbefore as [| w before [[r Hr] Hw] _ (printed & IH & Hfst)]; simpl.
  - destruct Hv as [-> | [[r ->] ->]]; by exists [].
  - rewrite Hr, Hw, IH. exists ((w, r) :: printed). split; [done |].
    rewrite fmap_cons. by f_equal.
Qed.

Lemma print_results_ok_inv f test_data printed :
  print_results f test_data = (printed, Ok tt) →
  Forall (fun v => (∃ r, f v = Ok r) ∧ written v = Ok tt) test_data.
Proof.
  revert printed. induction test_data as [| v test_data IH]; intros printed; simpl.
  - constructor.
  - destruct (f v) as [r | e] eqn:Hr; [| discriminate].
    destruct (written v) as [[] | e] eqn:Hw; [| discriminate].
    destruct (print_results f test_data) as [printed' outcome].
    intros [= <- ->]. constructor; [eauto | by eapply IH].
Qed.

(** The numbers that [analyze_data] answers and that [print] can write
    out. *)
Lemma short_number_spec v :
  short_number v ↔ (∃ r, analyze_data v = Ok r) ∧ written v = Ok tt.
Proof.
  assert (0 < 10 ^ int_max_str_digits)%Z as Hpos by (by apply Z.pow_pos_nonneg).
  unfold short_number. rewrite analyze_data_returns. split.
  - intros [Hnum Hshort]. split; [split; [done |] |].
    + intros n Hn. specialize (Hshort n Hn). lia.
    + destruct Hnum as (s & -> & Hs). destruct s as [n | | | |]; try done.
      simpl. by rewrite bool_decide_true by by apply Hshort.
  - intros [[Hnum _] Hw]. split; [done |].
    intros n ->. simpl in Hw. by case_bool_decide.
Qed.

(** An [int] too long to be written stops the loop with [ValueError]: a
    negative one inside [analyze_data], a positive one in [print]. *)
Lemma long_int_stops n :
  (10 ^ int_max_str_digits ≤ Z.abs n)%Z →
  analyze_data (int n) = Raise ValueError ∨
  ((∃ r, analyze_data (int n) = Ok r) ∧ written (int n) = Raise ValueError).
Proof.
  intros Hn.
  assert (0 < 10 ^ int_max_str_digits)%Z as Hpos by (by apply Z.pow_pos_nonneg).
  assert (written (int n) = Raise ValueError) as Hw.
  { simpl. by rewrite bool_decide_false by lia. }
  destruct (decide (n < 0)%Z) as [Hneg | Hpos'].
  - left. unfold int. rewrite (analyze_data_number (SInt n) (NFin n 0) eq_refl).
    rewrite num_compare_negative by done. by rewrite bool_decide_false by lia.
  - right. split; [| done]. apply analyze_data_returns. split.
    + exists (SInt n). split; [done | by eexists].
    + intros n' [= <-]. lia.
Qed.

(** X3. The loop of [main] over [analyze_data] prints one line for each
    subject as long as the subjects are numbers that can be written out (any
    [float] or [bool], an [int] of at most 4300 digits). It stops at the
    first subject that is a string, [None], a list, a dict or an instance,
    with the [TypeError] of the guard [x < 0], and at the first [int] of more
    than 4300 digits, with [ValueError]; the subjects after it are never
    tried. It runs to the end exactly over lists of numbers that can be
    written out. On the [test_data] of [main] it prints the lines for 42 and
    -5 and fails at the third item, [[]]. *)
Theorem X3_main_loop_stops_at_first_non_number :
  (∀ before v after,
     Forall short_number before → ¬ is_number v →
     ∃ printed,
       print_results analyze_data (before ++ v :: after) = (printed, Raise TypeError) ∧
       printed.*1 = before) ∧
  (∀ before n after,
     Forall short_number before → (10 ^ int_max_str_digits ≤ Z.abs n)%Z →
     ∃ printed,
       print_results analyze_data (before ++ int n :: after) = (printed, Raise ValueError) ∧
       printed.*1 = before) ∧
  (∀ test_data,
     Forall short_number test_data ↔
     ∃ printed,
       print_results analyze_data test_data = (printed, Ok tt) ∧
       printed.*1 = test_data) ∧
  print_results analyze_data main_test_data =
    ([ (int 42, Fmt "Unknown data type: {type(data)}" [int 42]);
       (int (-5), Fmt "Negative: {x}" [int (-5)]) ],
     Raise TypeError).
Proof.
  split; [| split; [| split; [| reflexivity]]].
  - intros before v after Hbefore Hv.
    apply print_results_first_failure; [| left; by apply analyze_data_not_number].
    eapply Forall_impl; [exact Hbefore |]. intros w. apply short_number_spec.
  - intros before n after Hbefore Hn.
    apply print_results_first_failure; [| by apply long_int_stops].
    eapply Forall_impl; [exact Hbefore |]. intros w. apply short_number_spec.
  - intros test_data. split.
    + intros Hall. apply print_results_all_ok.
      eapply Forall_impl; [exact Hall |]. intros w. apply short_number_spec.
    + intros (printed & Hp & _). apply print_results_ok_inv in Hp.
      eapply Forall_impl; [exact Hp |]. intros w. apply short_number_spec.
Qed.

Lemma X3_main_loop_stops_at_first_non_number_witness :
  ∃ printed,
    print_results analyze_data ([int 42; int (-5)] ++ VSequence [] :: [VSequence [int 1]])
      = (printed, Raise TypeError) ∧
    printed.*1 = [int 42; int (-5)].
Proof.
  apply (proj1 X3_main_loop_stops_at_first_non_number).
  - repeat constructor; try (eexists; (split; [reflexivity | by eexists]));
      intros n [= <-]; reflexivity.
  - intros (s & Hs & _). discriminate.
Defined.

(** ** Writing values out *)

Lemma written_cons x items :
  written (VSequence (x :: items)) =
  match written x with
  | Ok _ => written (VSequence items)
  | Raise e => Raise e
  end.
Proof. reflexivity. Qed.

Lemma written_entry k x entries :
  written (VMapping ((k, x) :: entries)) =
  match written_scalar k with
  | Ok _ =>
      match written x with
      | Ok _ => written (VMapping entries)
      | Raise e => Raise e
      end
  | Raise e => Raise e
  end.
Proof. reflexivity. Qed.

(** A list is written out when each of its items is. *)
Lemma written_sequence items :
  written (VSequence items) = Ok tt ↔ Forall (fun x => written x = Ok tt) items.
Proof.
  induction items as [| x items IH]; [by split |].
  rewrite Forall_cons, written_cons.
  destruct (written x) as [[] | e]; [rewrite IH |]; naive_solver.
Qed.

(** A dict is written out when each of its keys and values is. *)
Lemma written_mapping entries :
  written (VMapping entries) = Ok tt ↔
  Forall (fun kv => written_scalar kv.1 = Ok tt ∧ written kv.2 = Ok tt) entries.
Proof.
  induction entries as [| [k x] entries IH]; [by split |].
  rewrite Forall_cons, written_entry. simpl.
  destruct (written_scalar k) as [[] | e]; [| naive_solver].
  destruct (written x) as [[] | e]; [rewrite IH |]; naive_solver.
Qed.

Lemma written_lookup_key k entries x :
  written (VMapping entries) = Ok tt → lookup_key k entries = Some x → written x = Ok tt.
Proof.
  rewrite written_mapping. induction 1 as [| [k' x'] entries [_ Hx] _ IH]; simpl; [done |].
  destruct (scalar_eq k' k); [by intros [= <-] | done].
Qed.

Lemma written_remaining keys entries :
  written (VMapping entries) = Ok tt → written (VMapping (remaining keys entries)) = Ok tt.
Proof.
  rewrite !written_mapping. unfold remaining. intros Hall.
  apply Forall_forall. intros [k x] Hkx. apply elem_of_remaining in Hkx as [Hkx _].
  rewrite Forall_forall in Hall. by apply Hall.
Qed.

(** An f-string whose fields write out the values of bound names fails where
    writing the list of those values fails. *)
Lemma interpolate_shown names env args :
  Forall2 (fun n v => env !! n = Some v) names args →
  interpolate (Shown <$> names) env =
  match written (VSequence args) with
  | Ok _ => Ok args
  | Raise e => Raise e
  end.
Proof.
  induction 1 as [| n v names args Hn _ IH]; [done |].
  rewrite written_cons. cbn [fmap list_fmap interpolate field_name format_field].
  unfold with_name. rewrite Hn. destruct (written v) as [[] | e]; [| done].
  fold (@fmap list _ _ _ Shown names). rewrite IH.
  by destruct (written (VSequence args)).
Qed.

Lemma fstring_shown template names env args :
  Forall2 (fun n v => env !! n = Some v) names args →
  fstring template (Shown <$> names) env =
  match written (VSequence args) with
  | Ok _ => Ok (Fmt template args)
  | Raise e => Raise e
  end.
Proof.
  intros H. unfold fstring. rewrite (interpolate_shown names env args H).
  by destruct (written (VSequence args)).
Qed.

Lemma fstring_shown_ok template names env args :
  Forall2 (fun n v => env !! n = Some v) names args →
  written (VSequence args) = Ok tt →
  fstring template (Shown <$> names) env = Ok (Fmt template args).
Proof. intros H Hw. by rewrite (fstring_shown template names env args H), Hw. Qed.

Lemma plain_scalar_written s : plain_scalar s = true → written_scalar s = Ok tt.
Proof. destruct s as [n | | | |]; simpl; try done. by intros ->. Qed.

(** Plain data can be written out. *)
Lemma plain_written d : ∀ v, plain d v = true → written v = Ok tt.
Proof.
  induction d as [| d IH]; intros [s | items | entries | c fields]; simpl; try done;
    try apply plain_scalar_written.
  - intros Hall. apply written_sequence, Forall_forall. intros x Hx.
    apply IH. rewrite forallb_forall in Hall. apply Hall. by apply list_elem_of_In.
  - intros Hall. apply written_mapping, Forall_forall. intros [k x] Hkx.
    rewrite forallb_forall in Hall. specialize (Hall (k, x)).
    rewrite <- list_elem_of_In in Hall. apply Hall, andb_true_iff in Hkx as [Hk Hx].
    split; [by apply plain_scalar_written | by apply IH].
Qed.

(** ** [complex_pattern_matching], case by case *)

Lemma match_one_user v b :
  match_pattern one_user v = Some b ↔
  ∃ es ue name age,
    v = VMapping es ∧
    lookup_key (key "users") es = Some (VSequence [VMapping ue]) ∧
    lookup_key (key "name") ue = Some name ∧ isinstance name KStr = true ∧
    lookup_key (key "age") ue = Some age ∧ isinstance age KInt = true ∧
    b = {["name" := name; "age" := age]}.
Proof.
  unfold one_user. split.
  - destruct v as [| | es |]; try discriminate. cbn [match_pattern match_keys].
    destruct (lookup_key (key "users") es) as [[| [| u [| ? ?]] | |] |] eqn:Hu;
      try discriminate.
    destruct u as [| | ue |]; try discriminate.
    cbn [match_pattern match_keys match_items length bool_decide take drop
         Nat.add Nat.sub app].
    rewrite bool_decide_true by done. cbn [take drop match_items match_pattern match_keys].
    destruct (lookup_key (key "name") ue) as [name |] eqn:Hn; [| discriminate].
    destruct (isinstance name KStr) eqn:Hname; [| discriminate].
    destruct (lookup_key (key "age") ue) as [age |] eqn:Ha; [| discriminate].
    destruct (isinstance age KInt) eqn:Hage; [| discriminate].
    intros [= <-]. exists es, ue, name, age. repeat split; try done.
  - intros (es & ue & name & age & -> & Hu & Hn & Hns & Ha & Has & ->).
    cbn [match_pattern match_keys]. rewrite Hu.
    cbn [match_pattern match_keys match_items length bool_decide take drop
         Nat.add Nat.sub app].
    rewrite bool_decide_true by done. cbn [take drop match_items match_pattern match_keys].
    rewrite Hn, Hns, Ha, Has. reflexivity.
Qed.

Lemma match_single_key k p rest v :
  match_pattern (PMapping [(k, p)] rest) v =
  match v with
  | VMapping es =>
      match lookup_key k es with
      | Some x =>
          match match_pattern p x with
          | Some b1 => Matched (bind_rest rest (VMapping (remaining [k] es)) b1)
          | None => NoMatch
          end
      | None => NoMatch
      end
  | _ => NoMatch
  end.
Proof.
  destruct v as [| | es |]; try done. simpl.
  destruct (lookup_key k es) as [x |]; [| done].
  destruct (match_pattern p x) as [b1 |]; [| done].
  unfold merge. by rewrite (left_id_L ∅ (∪)).
Qed.

Lemma first_middle_last {A} (items : list A) :
  (2 ≤ length items)%nat → ∃ first middle last, items = first :: middle ++ [last].
Proof.
  destruct items as [| first rest]; simpl; [lia |]. intros Hlen.
  destruct (exists_last (l := rest)) as (middle & last & ->).
  - intros ->. simpl in Hlen. lia.
  - by exists first, middle, last.
Qed.

Lemma match_first_middle_last first middle last :
  match_pattern (PSequence [Capture "first"] (Some "middle") [Capture "last"])
                (VSequence (first :: middle ++ [last]))
  = Matched {["first" := first; "middle" := VSequence middle; "last" := last]}.
Proof.
  change (first :: middle ++ [last]) with ([first] ++ middle ++ [last]).
  rewrite match_star_sequence by done. reflexivity.
Qed.

Lemma match_first_middle_last_short items :
  (length items < 2)%nat →
  match_pattern (PSequence [Capture "first"] (Some "middle") [Capture "last"])
                (VSequence items) = NoMatch.
Proof. intros Hlen. simpl. by rewrite bool_decide_false by lia. Qed.

Lemma match_items_pattern v b :
  match_pattern items_pattern v = Some b ↔
  ∃ es first middle last,
    v = VMapping es ∧
    lookup_key (key "items") es = Some (VSequence (first :: middle ++ [last])) ∧
    b = {["first" := first; "middle" := VSequence middle; "last" := last]}.
Proof.
  unfold items_pattern. rewrite match_single_key. split.
  - destruct v as [| | es |]; try discriminate.
    destruct (lookup_key (key "items") es) as [x |] eqn:Hx; [| discriminate].
    destruct x as [| items | |]; try discriminate.
    destruct (decide (2 ≤ length items)%nat) as [Hlen | Hlen].
    + destruct (first_middle_last items Hlen) as (first & middle & last & ->).
      rewrite match_first_middle_last. intros [= <-].
      by exists es, first, middle, last.
    + rewrite match_first_middle_last_short by lia. discriminate.
  - intros (es & first & middle & last & -> & Hx & ->).
    by rewrite Hx, match_first_middle_last.
Qed.

Lemma ge_int_int_value v z n :
  int_value v = Some z → ge_int v n = Ok (bool_decide (n ≤ z)%Z).
Proof.
  intros Hz. unfold ge_int, order_int. rewrite (compare_int_int_value v z n Hz).
  f_equal. destruct (Z.compare_spec z n); case_bool_decide; try done; lia.
Qed.

Lemma lt_int_int_value v z n :
  int_value v = Some z → lt_int v n = Ok (bool_decide (z < n)%Z).
Proof.
  intros Hz. unfold lt_int, order_int. rewrite (compare_int_int_value v z n Hz).
  f_equal. destruct (Z.compare_spec z n); case_bool_decide; try done; lia.
Qed.

Lemma isinstance_str v : isinstance v KStr = true → ∃ s, v = str s.
Proof. destruct v as [[] | | |]; try discriminate. eauto. Qed.

(** A dict that holds exactly one user with a [str] name and an [int] age
    under ["users"] is answered by one of the first two cases. *)
Lemma complex_pattern_matching_user es ue name age z :
  lookup_key (key "users") es = Some (VSequence [VMapping ue]) →
  lookup_key (key "name") ue = Some name → isinstance name KStr = true →
  lookup_key (key "age") ue = Some age → int_value age = Some z →
  complex_pattern_matching (VMapping es) =
  Ok (Fmt (if bool_decide (18 ≤ z)%Z then "Adult user: {name}" else "Minor user: {name}")
          [name]).
Proof.
  intros Hu Hn Hns Ha Hz.
  assert (match_pattern one_user (VMapping es) = Some {["name" := name; "age" := age]})
    as Hm.
  { apply match_one_user. exists es, ue, name, age. repeat split; try done.
    apply isinstance_int_value. by rewrite Hz. }
  assert (written (VSequence [name]) = Ok tt) as Hw.
  { by destruct (isinstance_str name Hns) as [s ->]. }
  unfold complex_pattern_matching. rewrite run_match_run_clauses.
  unfold complex_pattern_matching_clauses.
  cbn [run_clauses clause_case case_ case_if pattern guard clause_body].
  rewrite Hm. unfold with_name.
  change (({["name" := name; "age" := age]} : Bindings) !! "age") with (Some age).
  cbv beta iota.
  rewrite (ge_int_int_value age z 18 Hz), (lt_int_int_value age z 18 Hz).
  case_bool_decide.
  - apply (fstring_shown_ok _ ["name"]); [| done]. by repeat constructor.
  - rewrite bool_decide_true by lia.
    apply (fstring_shown_ok _ ["name"]); [| done]. by repeat constructor.
Qed.

(** X4. For a dict whose ["users"] entry is a list of exactly one dict with a
    [str] under ["name"] and an [int] (or [bool]) under ["age"], whatever
    other keys either dict has, [complex_pattern_matching] answers
    "Adult user" when the age is at least 18 and "Minor user" otherwise: the
    guards [age >= 18] and [age < 18] of the first two cases leave no such
    subject to the later cases. *)
Theorem X4_adult_or_minor :
  ∀ es ue name age z,
    lookup_key (key "users") es = Some (VSequence [VMapping ue]) →
    lookup_key (key "name") ue = Some name → isinstance name KStr = true →
    lookup_key (key "age") ue = Some age → int_value age = Some z →
    complex_pattern_matching (VMapping es) =
    Ok (Fmt (if bool_decide (18 ≤ z)%Z then "Adult user: {name}" else "Minor user: {name}")
            [name]).
Proof. exact complex_pattern_matching_user. Qed.

Lemma X4_adult_or_minor_witness :
  complex_pattern_matching
    (VMapping [(key "status", str "active");
               (key "users",
                VSequence [VMapping [(key "age", int 17); (key "name", str "Bob");
                                     (key "email", VScalar SNone)]])])
  = Ok (Fmt "Minor user: {name}" [str "Bob"]).
Proof.
  apply (X4_adult_or_minor _ [(key "age", int 17); (key "name", str "Bob");
                              (key "email", VScalar SNone)] (str "Bob") (int 17) 17);
    reflexivity.
Defined.

Lemma gt_int_int n m : gt_int (VScalar (SInt n)) m = Ok (bool_decide (m < n)%Z).
Proof.
  unfold gt_int, order_int. rewrite (compare_int_int_value (VScalar (SInt n)) n m eq_refl).
  f_equal. destruct (Z.compare_spec n m); case_bool_decide; try done; lia.
Qed.

(** What [complex_pattern_matching] answers for an instance. *)
Lemma complex_pattern_matching_record c fields :
  complex_pattern_matching (VRecord c fields) =
  if instance_of c "Point"
  then
    match lookup_field "x" fields, lookup_field "y" fields with
    | Some x, Some y =>
        if value_eq_scalar x (SInt 0) && value_eq_scalar y (SInt 0)
        then Ok (Fmt "Origin point" [])
        else
          match value_eq x y with
          | Ok true =>
              match written (VSequence [x; y]) with
              | Ok _ => Ok (Fmt "Diagonal point: ({x}, {y})" [x; y])
              | Raise e => Raise e
              end
          | Ok false => Ok (Fmt "No pattern matched" [])
          | Raise e => Raise e
          end
    | _, _ => Ok (Fmt "No pattern matched" [])
    end
  else Ok (Fmt "No pattern matched" []).
Proof.
  unfold complex_pattern_matching. rewrite run_match_run_clauses.
  unfold complex_pattern_matching_clauses, one_user.
  cbn [run_clauses clause_case case_ case_if pattern guard clause_body].
  cbn [match_pattern]. destruct (instance_of c "Point"); [| reflexivity].
  cbn [match_fields match_pattern].
  destruct (lookup_field "x" fields) as [x |]; [| reflexivity].
  destruct (lookup_field "y" fields) as [y |].
  - destruct (value_eq_scalar x (SInt 0)), (value_eq_scalar y (SInt 0));
      cbn [andb]; try reflexivity;
      unfold with_name;
      (change ((merge {["x" := x]} (merge {["y" := y]} ∅) : Bindings) !! "x")
         with (Some x));
      (change ((merge {["x" := x]} (merge {["y" := y]} ∅) : Bindings) !! "y")
         with (Some y));
      cbv beta iota; destruct (value_eq x y) as [[|] | e]; try reflexivity;
      apply (fstring_shown _ ["x"; "y"]); by repeat constructor.
  - by destruct (value_eq_scalar x (SInt 0)).
Qed.

(** X5. For an instance of a class of the source, or of a subclass that adds
    no special method, [complex_pattern_matching] looks at nothing but the
    class and the attributes [x] and [y]. An instance of a class that is not
    [Point] and does not inherit from it, and an instance without [x] or
    without [y], get "No pattern matched". An instance of [Point] or of a
    subclass whose [x] and [y] both equal 0 is the "Origin point". When [x]
    and [y] are scalars (the [float]s that the dataclass declares, or any
    other number, a string or [None]) and are not both 0, the answer is
    "Diagonal point" if [x == y] and "No pattern matched" if not; the
    diagonal answer writes both out and so raises [ValueError] when one of
    them is an [int] of more than 4300 digits. *)
Theorem X5_points :
  (∀ c fields,
     instance_of c "Point" = false →
     complex_pattern_matching (VRecord c fields) = Ok (Fmt "No pattern matched" [])) ∧
  (∀ c fields,
     lookup_field "x" fields = None ∨ lookup_field "y" fields = None →
     complex_pattern_matching (VRecord c fields) = Ok (Fmt "No pattern matched" [])) ∧
  (∀ c fields x y,
     instance_of c "Point" = true →
     lookup_field "x" fields = Some x → lookup_field "y" fields = Some y →
     value_eq_scalar x (SInt 0) = true → value_eq_scalar y (SInt 0) = true →
     complex_pattern_matching (VRecord c fields) = Ok (Fmt "Origin point" [])) ∧
  (∀ c fields sx sy,
     instance_of c "Point" = true →
     lookup_field "x" fields = Some (VScalar sx) →
     lookup_field "y" fields = Some (VScalar sy) →
     complex_pattern_matching (VRecord c fields) =
     if scalar_eq sx (SInt 0) && scalar_eq sy (SInt 0)
     then Ok (Fmt "Origin point" [])
     else if scalar_eq sx sy
          then if plain_scalar sx && plain_scalar sy
               then Ok (Fmt "Diagonal point: ({x}, {y})" [VScalar sx; VScalar sy])
               else Raise ValueError
          else Ok (Fmt "No pattern matched" [])).
Proof.
  split; [| split; [| split]].
  - intros c fields Hc. by rewrite complex_pattern_matching_record, Hc.
  - intros c fields Hxy. rewrite complex_pattern_matching_record.
    destruct (instance_of c "Point"); [| done].
    destruct Hxy as [-> | Hy]; [done |]. rewrite Hy.
    by destruct (lookup_field "x" fields).
  - intros c fields x y Hc Hx Hy Hx0 Hy0.
    by rewrite complex_pattern_matching_record, Hc, Hx, Hy, Hx0, Hy0.
  - intros c fields sx sy Hc Hx Hy.
    rewrite complex_pattern_matching_record, Hc, Hx, Hy.
    cbn [value_eq_scalar value_eq].
    destruct (scalar_eq sx (SInt 0) && scalar_eq sy (SInt 0)); [done |].
    destruct (scalar_eq sx sy); [| done].
    rewrite !written_cons. cbn [written].
    destruct sx as [n | | | |], sy as [m | | | |]; cbn [written_scalar plain_scalar];
      repeat case_bool_decide; reflexivity.
Qed.

Lemma X5_points_witness :
  complex_pattern_matching (VRecord (mkClass "Circle" []) [("x", int 3); ("y", int 3)])
    = Ok (Fmt "No pattern matched" []) ∧
  complex_pattern_matching (VRecord (mkClass "Point" []) [("x", int 3)])
    = Ok (Fmt "No pattern matched" []) ∧
  complex_pattern_matching (Point3D (VScalar (SBool false)) (int 0))
    = Ok (Fmt "Origin point" []) ∧
  complex_pattern_matching (Point3D (int 3) (VScalar (SFloat (S754_finite false 3 0))))
    = Ok (Fmt "Diagonal point: ({x}, {y})"
              [int 3; VScalar (SFloat (S754_finite false 3 0))]).
Proof.
  split; [| split; [| split]].
  - apply (proj1 X5_points). reflexivity.
  - apply (proj1 (proj2 X5_points)). by right.
  - apply (proj1 (proj2 (proj2 X5_points)) _ _ (VScalar (SBool false)) (int 0));
      reflexivity.
  - apply (proj2 (proj2 (proj2 X5_points)) _ _ (SInt 3) (SFloat (S754_finite false 3 0)));
      reflexivity.
Defined.

Lemma lookup_users_none es :
  lookup_key (key "users") es = None → match_pattern one_user (VMapping es) = NoMatch.
Proof.
  intros Hu. destruct (match_pattern one_user (VMapping es)) as [b |] eqn:Hm; [| done].
  apply match_one_user in Hm as (es' & ue & name & age & [= <-] & Hu' & _). congruence.
Qed.

(** From the [Point] cases on, a dict is answered by the double-star case or
    the wildcard. *)
Lemma complex_pattern_matching_from_point es :
  run_clauses "data" (drop 4 complex_pattern_matching_clauses) (VMapping es) =
  match lookup_key (key "required") es with
  | Some value =>
      match remaining [key "required"] es with
      | [] => Ok (Fmt "No pattern matched" [])
      | rest =>
          match written (VSequence [value; VMapping rest]) with
          | Ok _ => Ok (Fmt "Required: {value}, Optional: {rest}" [value; VMapping rest])
          | Raise e => Raise e
          end
      end
  | None => Ok (Fmt "No pattern matched" [])
  end.
Proof.
  unfold complex_pattern_matching_clauses.
  cbn [drop run_clauses clause_case case_ case_if pattern guard clause_body].
  rewrite match_single_key.
  change (match_pattern (PRecord "Point" [("x", Literal (SInt 0)); ("y", Literal (SInt 0))])
            (VMapping es)) with NoMatch.
  change (match_pattern (PRecord "Point" [("x", Capture "x"); ("y", Capture "y")])
            (VMapping es)) with NoMatch.
  cbv beta iota.
  destruct (lookup_key (key "required") es) as [value |]; [| reflexivity].
  cbn [match_pattern bind_rest]. unfold with_name. rewrite lookup_insert_eq.
  destruct (remaining [key "required"] es) as [| kv rest]; [reflexivity |].
  cbn [truthy]. rewrite bool_decide_false by done. cbn [negb].
  apply (fstring_shown _ ["value"; "rest"]). by repeat constructor.
Qed.

(** From the star case on. *)
Lemma complex_pattern_matching_from_items es :
  run_clauses "data" (drop 3 complex_pattern_matching_clauses) (VMapping es) =
  match lookup_key (key "items") es with
  | Some (VSequence (first :: second :: others)) =>
      match others with
      | [] => run_clauses "data" (drop 4 complex_pattern_matching_clauses) (VMapping es)
      | _ =>
          match written (VSequence [first;
                                    VSequence (removelast (second :: others));
                                    List.last others second]) with
          | Ok _ =>
              Ok (Fmt "List: first={first}, middle={middle}, last={last}"
                      [first;
                       VSequence (removelast (second :: others));
                       List.last others second])
          | Raise e => Raise e
          end
      end
  | _ => run_clauses "data" (drop 4 complex_pattern_matching_clauses) (VMapping es)
  end.
Proof.
  unfold complex_pattern_matching_clauses at 1.
  cbn [drop run_clauses clause_case case_ case_if pattern guard clause_body].
  rewrite match_single_key.
  destruct (lookup_key (key "items") es) as [x |]; [| reflexivity].
  destruct x as [| items | |]; try reflexivity.
  destruct items as [| first [| second others]];
    try (rewrite match_first_middle_last_short by (simpl; lia); reflexivity).
  destruct (exists_last (l := second :: others)) as (middle & last & Heq); [done |].
  rewrite Heq, match_first_middle_last. rewrite <- Heq.
  cbn [bind_rest]. unfold with_name.
  change (({["first" := first; "middle" := VSequence middle; "last" := last]} : Bindings)
            !! "middle") with (Some (VSequence middle)).
  cbv beta iota. cbn [py_len]. rewrite gt_int_int.
  assert (removelast (second :: others) = middle) as Hmid.
  { rewrite Heq. apply removelast_last. }
  assert (List.last others second = last) as Hlast.
  { assert (List.last others second = List.last (second :: others) second) as ->
      by by destruct others.
    rewrite Heq. apply last_last. }
  destruct others as [| third others].
  - destruct middle as [| ? ?]; [| by destruct middle].
    reflexivity.
  - rewrite Hmid, Hlast.
    destruct middle as [| m1 middle].
    + simpl in Heq. discriminate.
    + rewrite bool_decide_true by (simpl; lia).
      apply (fstring_shown _ ["first"; "middle"; "last"]). by repeat constructor.
Qed.

Lemma complex_pattern_matching_skip_users es :
  match_pattern one_user (VMapping es) = NoMatch →
  complex_pattern_matching (VMapping es) =
  match lookup_key (key "status") es with
  | Some s =>
      match match_pattern (Or [str_lit "active"; str_lit "pending"; str_lit "processing"]) s with
      | Some _ => Ok (Fmt "System is operational" [])
      | None => run_clauses "data" (drop 3 complex_pattern_matching_clauses) (VMapping es)
      end
  | None => run_clauses "data" (drop 3 complex_pattern_matching_clauses) (VMapping es)
  end.
Proof.
  intros Hm. unfold complex_pattern_matching. rewrite run_match_run_clauses.
  unfold complex_pattern_matching_clauses at 1.
  cbn [run_clauses clause_case case_ case_if pattern guard clause_body].
  rewrite Hm, match_single_key.
  destruct (lookup_key (key "status") es) as [s |]; [| reflexivity].
  destruct (match_pattern _ s); reflexivity.
Qed.

(** The parts of a dict that can be written out can be written out: the
    value under a key together with the dict of the other entries, and the
    first item, the middle and the last item of a list in it. *)
Lemma written_required es value :
  written (VMapping es) = Ok tt → lookup_key (key "required") es = Some value →
  written (VSequence [value; VMapping (remaining [key "required"] es)]) = Ok tt.
Proof.
  intros Hw Hr. apply written_sequence. repeat constructor.
  - by eapply written_lookup_key.
  - by apply written_remaining.
Qed.

Lemma written_first_middle_last first middle last :
  written (VSequence (first :: middle ++ [last])) = Ok tt →
  written (VSequence [first; VSequence middle; last]) = Ok tt.
Proof.
  rewrite !written_sequence, Forall_cons, Forall_app, Forall_singleton.
  intros (Hf & Hm & Hl). repeat constructor; try done. by apply written_sequence.
Qed.

(** A dict of plain data gets one of the strings of
    [complex_pattern_matching]. *)
Lemma complex_pattern_matching_dict es :
  written (VMapping es) = Ok tt →
  ∃ template args, complex_pattern_matching (VMapping es) = Ok (Fmt template args).
Proof.
  intros Hw.
  destruct (match_pattern one_user (VMapping es)) as [b |] eqn:Hm.
  - apply match_one_user in Hm
      as (es' & ue & name & age & [= <-] & Hu & Hn & Hns & Ha & Has & ->).
    apply isinstance_int_value in Has as [z Hz].
    rewrite (complex_pattern_matching_user es ue name age z Hu Hn Hns Ha Hz). eauto.
  - rewrite (complex_pattern_matching_skip_users es Hm).
    assert (∃ template args,
              run_clauses "data" (drop 4 complex_pattern_matching_clauses) (VMapping es)
              = Ok (Fmt template args)) as Hpoint.
    { rewrite complex_pattern_matching_from_point.
      destruct (lookup_key (key "required") es) as [value |] eqn:Hr; [| eauto].
      pose proof (written_required es value Hw Hr) as Hwr.
      destruct (remaining _ es); [eauto |]. cbv zeta. rewrite Hwr. eauto. }
    assert (∃ template args,
              run_clauses "data" (drop 3 complex_pattern_matching_clauses) (VMapping es)
              = Ok (Fmt template args)) as Hitems.
    { rewrite complex_pattern_matching_from_items.
      destruct (lookup_key (key "items") es) as [[| [| first [| second others]] | |] |]
        eqn:Hi; try done.
      destruct others as [| third others]; [done |].
      destruct (exists_last (l := second :: third :: others)) as (middle & last & Heq);
        [done |].
      assert (removelast (second :: third :: others) = middle) as ->.
      { rewrite Heq. apply removelast_last. }
      assert (List.last (third :: others) second = last) as ->.
      { change (List.last (third :: others) second)
          with (List.last (second :: third :: others) second).
        rewrite Heq. apply last_last. }
      rewrite written_first_middle_last; [eauto |].
      rewrite <- Heq. by eapply written_lookup_key. }
    destruct (lookup_key (key "status") es) as [s |]; [| done].
    destruct (match_pattern _ s); eauto.
Qed.

(** X6. [complex_pattern_matching] returns one of its strings for every
    subject that is plain data: a number, a string or [None], or a list or
    dict of plain data nested no deeper than [nesting_limit], in which every
    [int] has at most 4300 digits. No guard of the function can raise on
    any subject, because [age] is compared only once [int(age)] matched and
    [len] is taken only of a star capture; on plain data its f-strings
    cannot fail either. *)
Theorem X6_complex_pattern_matching_always_answers :
  ∀ v,
    plain nesting_limit v = true →
    ∃ template args, complex_pattern_matching v = Ok (Fmt template args).
Proof.
  intros v Hv. pose proof (plain_written _ _ Hv) as Hw.
  destruct v as [s | items | es | c fields]; [by eexists _, _ | by eexists _, _ | | done].
  by apply complex_pattern_matching_dict.
Qed.

Lemma X6_complex_pattern_matching_always_answers_witness :
  ∃ template args,
    complex_pattern_matching
      (VMapping [(key "required", str "value"); (key "optional1", VSequence [int 1])])
    = Ok (Fmt template args).
Proof. apply X6_complex_pattern_matching_always_answers. reflexivity. Defined.

(** X7. A dict without ["users"], ["status"] and ["items"] that has the key
    ["required"] is answered "Required ..., Optional ..." with the entries
    under all its other keys, in their order, when there is at least one such
    entry and the dict is plain data; a dict with ["required"] alone binds an
    empty rest, which the guard [if rest] rejects, and gets "No pattern
    matched". When the value under ["required"] is an [int] of more than
    4300 digits and there are other entries, the f-string raises
    [ValueError]. *)
Theorem X7_required_needs_something_optional :
  (∀ es value,
     lookup_key (key "users") es = None →
     lookup_key (key "status") es = None →
     lookup_key (key "items") es = None →
     lookup_key (key "required") es = Some value →
     plain nesting_limit (VMapping es) = true →
     complex_pattern_matching (VMapping es) =
     match remaining [key "required"] es with
     | [] => Ok (Fmt "No pattern matched" [])
     | rest => Ok (Fmt "Required: {value}, Optional: {rest}" [value; VMapping rest])
     end) ∧
  (∀ es value,
     lookup_key (key "users") es = None →
     lookup_key (key "status") es = None →
     lookup_key (key "items") es = None →
     lookup_key (key "required") es = Some value →
     remaining [key "required"] es = [] →
     complex_pattern_matching (VMapping es) = Ok (Fmt "No pattern matched" [])) ∧
  (∀ es n,
     lookup_key (key "users") es = None →
     lookup_key (key "status") es = None →
     lookup_key (key "items") es = None →
     lookup_key (key "required") es = Some (int n) →
     remaining [key "required"] es ≠ [] →
     (10 ^ int_max_str_digits ≤ Z.abs n)%Z →
     complex_pattern_matching (VMapping es) = Raise ValueError).
Proof.
  assert (∀ es value,
     lookup_key (key "users") es = None →
     lookup_key (key "status") es = None →
     lookup_key (key "items") es = None →
     lookup_key (key "required") es = Some value →
     complex_pattern_matching (VMapping es) =
     match remaining [key "required"] es with
     | [] => Ok (Fmt "No pattern matched" [])
     | rest =>
         match written (VSequence [value; VMapping rest]) with
         | Ok _ => Ok (Fmt "Required: {value}, Optional: {rest}" [value; VMapping rest])
         | Raise e => Raise e
         end
     end) as Hreq.
  { intros es value Hu Hs Hi Hr.
    rewrite (complex_pattern_matching_skip_users es (lookup_users_none es Hu)), Hs.
    rewrite complex_pattern_matching_from_items, Hi.
    by rewrite complex_pattern_matching_from_point, Hr. }
  split; [| split].
  - intros es value Hu Hs Hi Hr Hplain. rewrite (Hreq es value Hu Hs Hi Hr).
    pose proof (written_required es value (plain_written _ _ Hplain) Hr) as Hw.
    destruct (remaining [key "required"] es); [done |]. cbv zeta. by rewrite Hw.
  - intros es value Hu Hs Hi Hr Hrest. by rewrite (Hreq es value Hu Hs Hi Hr), Hrest.
  - intros es n Hu Hs Hi Hr Hrest Hn. rewrite (Hreq es (int n) Hu Hs Hi Hr).
    destruct (remaining [key "required"] es) as [| kv rest]; [done |].
    cbv zeta. rewrite written_cons. cbn [int written written_scalar].
    by rewrite bool_decide_false by lia.
Qed.

Lemma X7_required_needs_something_optional_witness :
  complex_pattern_matching
    (VMapping [(key "required", int 1); (key "optional", VScalar SNone)])
  = Ok (Fmt "Required: {value}, Optional: {rest}"
            [int 1; VMapping [(key "optional", VScalar SNone)]]) ∧
  complex_pattern_matching (VMapping [(key "required", int 1)])
  = Ok (Fmt "No pattern matched" []).
Proof.
  split.
  - exact (proj1 X7_required_needs_something_optional
             [(key "required", int 1); (key "optional", VScalar SNone)] (int 1)
             eq_refl eq_refl eq_refl eq_refl eq_refl).
  - exact (proj1 (proj2 X7_required_needs_something_optional)
             [(key "required", int 1)] (int 1) eq_refl eq_refl eq_refl eq_refl eq_refl).
Defined.

(** X8. For a dict without ["users"] and ["status"] whose ["items"] is a list
    of at least three items, all plain data, [complex_pattern_matching]
    answers "List ..." with the first item, the list of the items strictly
    between, and the last item. A list of exactly two items, whatever they
    are, matches the star pattern with an empty middle, which the guard
    [len(middle) > 0] rejects: the subject goes on to the later cases and,
    having no ["required"] key, gets "No pattern matched". *)
Theorem X8_items_need_a_middle :
  (∀ es first m1 middle last,
     lookup_key (key "users") es = None →
     lookup_key (key "status") es = None →
     lookup_key (key "items") es = Some (VSequence (first :: (m1 :: middle) ++ [last])) →
     plain nesting_limit (VSequence (first :: (m1 :: middle) ++ [last])) = true →
     complex_pattern_matching (VMapping es) =
     Ok (Fmt "List: first={first}, middle={middle}, last={last}"
             [first; VSequence (m1 :: middle); last])) ∧
  (∀ es first last,
     lookup_key (key "users") es = None →
     lookup_key (key "status") es = None →
     lookup_key (key "items") es = Some (VSequence [first; last]) →
     lookup_key (key "required") es = None →
     complex_pattern_matching (VMapping es) = Ok (Fmt "No pattern matched" [])).
Proof.
  split.
  - intros es first m1 middle last Hu Hs Hi Hplain.
    pose proof (written_first_middle_last _ _ _ (plain_written _ _ Hplain)) as Hw.
    rewrite (complex_pattern_matching_skip_users es (lookup_users_none es Hu)), Hs.
    rewrite complex_pattern_matching_from_items, Hi.
    destruct middle as [| m2 middle]; simpl app.
    + cbv beta iota. cbn [removelast List.last]. by rewrite Hw.
    + assert (removelast (m1 :: m2 :: middle ++ [last]) = m1 :: m2 :: middle) as H1
        by exact (removelast_last (m1 :: m2 :: middle) last).
      assert (List.last (m2 :: middle ++ [last]) m1 = last) as H2
        by exact (last_last (m2 :: middle) last m1).
      cbv beta iota. by rewrite H1, H2, Hw.
  - intros es first last Hu Hs Hi Hr.
    rewrite (complex_pattern_matching_skip_users es (lookup_users_none es Hu)), Hs.
    rewrite complex_pattern_matching_from_items, Hi.
    by rewrite complex_pattern_matching_from_point, Hr.
Qed.

Lemma X8_items_need_a_middle_witness :
  complex_pattern_matching (VMapping [(key "items", VSequence [int 1; int 2; int 3])])
    = Ok (Fmt "List: first={first}, middle={middle}, last={last}"
              [int 1; VSequence [int 2]; int 3]) ∧
  complex_pattern_matching (VMapping [(key "items", VSequence [int 1; int 2])])
    = Ok (Fmt "No pattern matched" []).
Proof.
  split.
  - apply (proj1 X8_items_need_a_middle _ (int 1) (int 2) [] (int 3)); reflexivity.
  - apply (proj2 X8_items_need_a_middle _ (int 1) (int 2)); reflexivity.
Defined.

(** ** Running out of cases *)

Lemma select_from_exhausted i cases v :
  select_from i cases v = Ok Exhausted ↔ Forall (fun c => rejects c v) cases.
Proof.
  revert i. induction cases as [| c cases IH]; intros i; [by split |].
  rewrite Forall_cons.
  destruct (case_trichotomy c v) as [[b Hacc] | [Hrej | [e Hr]]].
  - rewrite (select_from_cons_accept _ _ _ _ _ Hacc). split; [discriminate |].
    intros [Hrej _]. by destruct (accepts_not_rejects _ _ _ Hacc).
  - rewrite (select_from_cons_reject _ _ _ _ Hrej), IH. naive_solver.
  - rewrite (select_from_cons_raise _ _ _ _ _ Hr). split; [discriminate |].
    intros [Hrej _]. by destruct (guard_raises_not_rejects _ _ _ Hr).
Qed.

Lemma fstring_returns template fields env : fstring template fields env ≠ Ok ReturnNone.
Proof. unfold fstring. by destruct (interpolate fields env). Qed.

(** A [match] statement with an unguarded [case _], whose bodies all end in
    a [return] of a string, does not return [None]. *)
Lemma run_clauses_returns param clauses v :
  Forall (fun cl => ∀ env, clause_body cl env ≠ Ok ReturnNone) clauses →
  Exists (fun cl => pattern (clause_case cl) = Wildcard ∧ guard (clause_case cl) = None)
         clauses →
  run_clauses param clauses v ≠ Ok ReturnNone.
Proof.
  intros Hbodies Hwild.
  induction Hwild as [cl clauses [Hp Hg] | cl clauses _ IH]; simpl;
    apply Forall_cons in Hbodies as [Hbody Hbodies].
  - rewrite Hp, Hg. simpl. apply Hbody.
  - destruct (match_pattern _ v) as [b |]; [| by apply IH].
    destruct (guard _) as [g |]; [| apply Hbody].
    destruct (g b) as [[|] | e]; [apply Hbody | by apply IH | done].
Qed.

(** The three functions of the source are such statements. *)
Lemma source_functions_return v :
  analyze_data v ≠ Ok ReturnNone ∧
  process_value v ≠ Ok ReturnNone ∧
  complex_pattern_matching v ≠ Ok ReturnNone.
Proof.
  unfold analyze_data, process_value, complex_pattern_matching.
  rewrite !run_match_run_clauses.
  repeat split; apply run_clauses_returns;
    try (repeat constructor; intros env; apply fstring_returns);
    apply Exists_exists; eexists (case_ Wildcard _);
    (split; [| done]); apply list_elem_of_In; simpl; tauto.
Qed.

(** X9. A scan runs out of cases exactly when every case rejects the subject,
    which no case list ending in an unguarded [case _] allows. So none of
    [analyze_data], [process_value] and [complex_pattern_matching] ever falls
    off the end of its [match] statement and returns [None]: each returns
    one of its strings or raises. *)
Theorem X9_wildcard_last_never_exhausts :
  (∀ cases v, select cases v = Ok Exhausted ↔ Forall (fun c => rejects c v) cases) ∧
  (∀ cases v, select (cases ++ [mkCase Wildcard None]) v ≠ Ok Exhausted) ∧
  (∀ v, analyze_data v ≠ Ok ReturnNone ∧
        process_value v ≠ Ok ReturnNone ∧
        complex_pattern_matching v ≠ Ok ReturnNone).
Proof.
  split; [| split].
  - intros cases v. apply select_from_exhausted.
  - intros cases v Hex. apply select_from_exhausted in Hex.
    apply Forall_app in Hex as [_ Hlast]. apply Forall_cons in Hlast as [Hw _].
    destruct Hw as [Hw | (b & g & _ & Hg & _)]; discriminate.
  - apply source_functions_return.
Qed.

(** ** [type_safe_function] *)

Lemma scalar_eq_str a b : scalar_eq (SStr a) (SStr b) = bool_decide (a = b).
Proof. reflexivity. Qed.

Lemma dict_set_word w d :
  lengths_dict d →
  lengths_dict (dict_set (SStr w) (int (Z.of_nat (code_points w))) d) ∧
  ∀ k, k ∈ (dict_set (SStr w) (int (Z.of_nat (code_points w))) d).*1 ↔
       k ∈ d.*1 ∨ k = SStr w.
Proof.
  intros [Hall Hnodup].
  induction d as [| [k' v'] d IH]; simpl.
  - split; [split |].
    + repeat constructor. by exists w.
    + repeat constructor. set_solver.
    + intros k. set_solver.
  - apply Forall_cons in Hall as [(w' & [= -> ->]) Hall].
    simpl in Hnodup. apply NoDup_cons in Hnodup as [Hnotin Hnodup].
    destruct (IH Hall Hnodup) as ([IHall IHnodup] & IHkeys).
    rewrite scalar_eq_str. case_bool_decide as Hw.
    + subst w'. split; [split |].
      * constructor; [by exists w | done].
      * simpl. by constructor.
      * intros k. simpl. set_solver.
    + split; [split |].
      * constructor; [by exists w' | done].
      * simpl. constructor; [| done]. rewrite IHkeys. intros [? | [= ?]]; done.
      * intros k. simpl. rewrite !elem_of_cons, IHkeys. naive_solver.
Qed.

Lemma lengths_into_words ws :
  ∀ acc, lengths_dict acc →
    ∃ d, lengths_into acc (str <$> ws) = Ok d ∧ lengths_dict d ∧
         ∀ k, k ∈ d.*1 ↔ k ∈ acc.*1 ∨ ∃ w, w ∈ ws ∧ k = SStr w.
Proof.
  induction ws as [| w ws IH]; intros acc Hacc; simpl.
  - exists acc. split; [done |]. split; [done |]. intros k. set_solver.
  - destruct (dict_set_word w acc Hacc) as [Hset Hkeys].
    destruct (IH _ Hset) as (d & Hd & Hgood & Hdk).
    exists d. split; [done |]. split; [done |].
    intros k. rewrite Hdk, Hkeys. set_solver.
Qed.

Lemma lookup_key_word w d :
  lengths_dict d → SStr w ∈ d.*1 →
  lookup_key (SStr w) d = Some (int (Z.of_nat (code_points w))).
Proof.
  intros [Hall _]. induction d as [| [k' v'] d IH]; simpl; [set_solver |].
  apply Forall_cons in Hall as [(w' & [= -> ->]) Hall].
  rewrite scalar_eq_str. case_bool_decide as Hw; [by subst |].
  intros Hin. apply IH; [done |]. set_solver.
Qed.

(** What a list of words is turned into. *)
Lemma type_safe_function_words ws :
  ∃ d,
    type_safe_function (VSequence (str <$> ws)) = Ok (VMapping d) ∧
    (∀ w, w ∈ ws → lookup_key (SStr w) d = Some (int (Z.of_nat (code_points w)))) ∧
    (∀ k, k ∈ d.*1 ↔ ∃ w, w ∈ ws ∧ k = SStr w) ∧
    NoDup (d.*1).
Proof.
  unfold type_safe_function. cbn [iterate].
  destruct (lengths_into_words ws [])
    as (d & Hd & Hgood & Hkeys); [split; constructor |].
  exists d. rewrite Hd. split; [done |]. split; [| split].
  - intros w Hw. apply lookup_key_word; [done |]. apply Hkeys. right. eauto.
  - intros k. rewrite Hkeys. set_solver.
  - apply Hgood.
Qed.

(** An item that has no [len], or that has one but cannot be hashed, ends
    the comprehension with [TypeError]. *)
Lemma lengths_into_not_str acc xs :
  Exists no_key xs → ∃ e, lengths_into acc xs = Raise e.
Proof.
  intros Hex. revert acc. induction Hex as [x xs Hx | x xs _ IH]; intros acc; simpl.
  - destruct x as [[| | | s |] | | |]; simpl; eauto; done.
  - destruct (py_len x) as [n | e]; [| eauto].
    destruct x as [k | | |]; eauto.
Qed.

Lemma lengths_into_raises_TypeError acc xs e :
  lengths_into acc xs = Raise e → e = TypeError.
Proof.
  revert acc. induction xs as [| x xs IH]; intros acc; simpl; [discriminate |].
  destruct x as [[| | | s |] | | |]; simpl; try (by intros [= <-]).
  apply IH.
Qed.

(** Every character of a string is one code point, and there are as many of
    them as [len] counts. *)
Lemma split_characters_spec s :
  Forall (fun c => code_points c = 1%nat) (split_characters s).2 ∧
  code_points (split_characters s).1 = 0%nat ∧
  code_points s = length (split_characters s).2.
Proof.
  induction s as [| c s (IHall & IHpending & IHlen)]; simpl; [by repeat constructor |].
  destruct (split_characters s) as [pending chars]. simpl in *.
  destruct (continuation_byte c) eqn:Hc; simpl.
  - by rewrite Hc.
  - split; [| by rewrite IHlen]. constructor; [| done]. simpl. by rewrite Hc, IHpending.
Qed.

(** X10. For a list of strings, [type_safe_function] returns a dict in which
    every word of the list is a key with its length, counted in characters,
    as value, which has no other key, and in which a word that occurs
    several times in the list is one key. A list with an item that is a
    number, [None], a list or a dict makes the call raise [TypeError] (the
    first three have no [len], the last two cannot be keys), and so does an
    [int] as argument; a string argument is taken character by character,
    each of length 1. *)
Theorem X10_type_safe_function_lengths :
  (∀ ws,
     ∃ d,
       type_safe_function (VSequence (str <$> ws)) = Ok (VMapping d) ∧
       (∀ w, w ∈ ws →
             lookup_key (SStr w) d = Some (int (Z.of_nat (code_points w)))) ∧
       (∀ k, k ∈ d.*1 ↔ ∃ w, w ∈ ws ∧ k = SStr w) ∧
       NoDup (d.*1)) ∧
  (∀ xs,
     Exists no_key xs →
     type_safe_function (VSequence xs) = Raise TypeError) ∧
  (∀ n, type_safe_function (int n) = Raise TypeError) ∧
  (∀ s,
     type_safe_function (str s) = type_safe_function (VSequence (str <$> characters s)) ∧
     Forall (fun c => code_points c = 1%nat) (characters s) ∧
     py_len (str s) = Ok (Z.of_nat (length (characters s)))) ∧
  type_safe_function (VSequence []) = Ok (VMapping []) ∧
  type_safe_function (VSequence [str "hello"; str "world"; str "python"])
    = Ok (VMapping [(key "hello", int 5); (key "world", int 5); (key "python", int 6)]) ∧
  type_safe_function (VSequence [str "ab"; str "c"; str "ab"])
    = Ok (VMapping [(key "ab", int 2); (key "c", int 1)]) ∧
  type_safe_function (VSequence [str "né"])
    = Ok (VMapping [(key "né", int 2)]) ∧
  type_safe_function (str "aba") = Ok (VMapping [(key "a", int 1); (key "b", int 1)]).
Proof.
  split; [| split; [| split; [| split; [| repeat split]]]].
  - apply type_safe_function_words.
  - intros xs Hex. unfold type_safe_function. cbn [iterate].
    destruct (lengths_into_not_str [] xs Hex) as [e He].
    rewrite He. by rewrite (lengths_into_raises_TypeError _ _ _ He).
  - done.
  - intros s. destruct (split_characters_spec s) as (Hall & _ & Hlen).
    split; [done |]. split; [done |]. simpl. by rewrite Hlen.
Qed.

Lemma X10_type_safe_function_lengths_witness :
  type_safe_function (VSequence [str "ab"; VSequence []]) = Raise TypeError.
Proof.
  apply (proj1 (proj2 X10_type_safe_function_lengths)).
  apply Exists_cons_tl, Exists_cons_hd. exact I.
Defined.

(** ** [Builder] *)

(** X11. The methods of [Builder] compose as the arithmetic on the values
    does: adding twice adds the sum, multiplying twice multiplies by the
    product, and an addition followed by a multiplication is the
    multiplication followed by the addition of the scaled amount; adding 0 or
    multiplying by 1 gives an instance of the same value. The chain of
    [main], [Builder(10).add(5).multiply(2)], has the value 30, and handing
    any instance so built to [analyze_data] raises. *)
Theorem X11_builder_methods_compose :
  (∀ b x y, Builder_add (Builder_add b x) y = Builder_add b (x + y)) ∧
  (∀ b f g, Builder_multiply (Builder_multiply b f) g = Builder_multiply b (f * g)) ∧
  (∀ b x f,
     Builder_multiply (Builder_add b x) f = Builder_add (Builder_multiply b f) (x * f)) ∧
  (∀ b, Builder_add b 0 = b ∧ Builder_multiply b 1 = b) ∧
  self_value (Builder_multiply (Builder_add (mkBuilder 10) 5) 2) = 30 ∧
  (∀ b x f,
     analyze_data (Builder_object (Builder_multiply (Builder_add b x) f))
     = Raise TypeError).
Proof.
  repeat split; try done.
  - intros [n] x y. unfold Builder_add; simpl. f_equal. lia.
  - intros [n] f g. unfold Builder_multiply; simpl. f_equal. lia.
  - intros [n] x f. unfold Builder_add, Builder_multiply; simpl. f_equal. lia.
  - destruct b as [n]. unfold Builder_add; simpl. f_equal. lia.
  - destruct b as [n]. unfold Builder_multiply; simpl. f_equal. lia.
Qed.
